(** * 3DGridWorld: a shallow embedding of the voxel world, its agents,
    the surface graph and the Khuong pickup / drop / move policies.

    Sources embedded here:
      - code/classes.py              (World, Agent, Surface)
      - khuong/khuong_algorithms.py  (eta_p, eta_d, prob_pickup, prob_drop,
                                      move / pickup / drop algorithms)
      - khuong/agent_based_khuong.py and khuong/markov_khuong.py
                                     (the per-agent update loops)

    code/functions.py is not among the sources: what the embedded code
    calls from it is a parameter or, where a statement needs more, modelled
    from the specification and marked so.

    Conventions.  Python integers are [Z].  A numpy array of integers is a
    shape together with its cells in C (row-major) order.  Python floats are
    read as real numbers ([R]) for the probabilities and as rationals ([Q])
    for the edge counter, which only ever holds multiples of one half.  A call
    that can raise returns a [result]; mutation of the shared [World] object
    is explicit state passing. *)

From Stdlib Require Import ZArith List Lia QArith Qfield Reals Lra.
From stdpp Require Import base list.

Local Open Scope Z_scope.

(** ** Python exceptions and the error monad *)

Inductive exception : Set :=
| IndexError
| KeyError
| ValueError.

Inductive result (A : Type) : Type :=
| Ok (a : A)
| Raise (e : exception).
Arguments Ok {A} a.
Arguments Raise {A} e.

#[global] Instance exception_eq_dec : EqDecision exception.
Proof. solve_decision. Defined.

#[global] Instance result_eq_dec {A : Type} `{EqDecision A} :
  EqDecision (result A).
Proof. solve_decision. Defined.

(** The error monad, with stdpp's notation [x ← e; k]. *)
#[global] Instance result_bind : MBind result :=
  fun A B (k : A -> result B) (r : result A) =>
    match r with
    | Ok a => k a
    | Raise e => Raise e
    end.

#[global] Instance result_ret : MRet result := fun A a => Ok a.

Definition raises {A : Type} (r : result A) : Prop :=
  exists e, r = Raise e.

(** ** Integer numpy arrays of rank three *)

Definition coord : Type := Z * Z * Z.

Record ndarray : Type := mk_ndarray {
  shape : coord;
  data : list Z
}.

#[global] Instance ndarray_eq_dec : EqDecision ndarray.
Proof. solve_decision. Defined.

(** [range n] is Python's [range(n)]. *)
Definition range (n : Z) : list Z := map Z.of_nat (seq 0 (Z.to_nat n)).

(** One index of a numpy subscript: an index in [0, n) is used as it is, an
    index in [-n, 0) counts from the end, anything else raises. *)
Definition norm_index (n i : Z) : result Z :=
  if (0 <=? i) && (i <? n) then Ok i
  else if (- n <=? i) && (i <? 0) then Ok (n + i)
  else Raise IndexError.

(** Position of cell [p] in the row-major cell list. *)
Definition offset (a : ndarray) (p : coord) : result nat :=
  let '(d0, d1, d2) := shape a in
  let '(x, y, z) := p in
  i ← norm_index d0 x;
  j ← norm_index d1 y;
  k ← norm_index d2 z;
  Ok (Z.to_nat ((i * d1 + j) * d2 + k)).

(** [a[x, y, z]] *)
Definition getitem (a : ndarray) (p : coord) : result Z :=
  o ← offset a p;
  match data a !! o with
  | Some v => Ok v
  | None => Raise IndexError
  end.

(** [a[x, y, z] = v] *)
Definition setitem (a : ndarray) (p : coord) (v : Z) : result ndarray :=
  o ← offset a p;
  if decide (o < length (data a))%nat
  then Ok {| shape := shape a; data := <[o := v]> (data a) |}
  else Raise IndexError.

(** An array of the given shape whose cell [(x, y, z)] is [f (x, y, z)]. *)
Definition full (sh : coord) (f : coord -> Z) : ndarray :=
  let '(d0, d1, d2) := sh in
  {| shape := sh;
     data := x ← range d0; y ← range d1; z ← range d2; [f (x, y, z)] |}.

(** The exclusive upper end of the slice [:s] along an axis of size [n]. *)
Definition slice_stop (n s : Z) : Z :=
  if s <? 0 then Z.max 0 (n + s) else Z.min s n.

(** [np.where(a[:, :, k] == v)]: the x and the y coordinates of the hits,
    in row-major order. *)
Definition where_layer (a : ndarray) (k v : Z) : result (list Z * list Z) :=
  let '(d0, d1, d2) := shape a in
  k' ← norm_index d2 k;
  let hits :=
    List.filter
      (fun p : Z * Z =>
         match getitem a (p.1, p.2, k') with
         | Ok c => c =? v
         | Raise _ => false
         end)
      (x ← range d0; y ← range d1; [(x, y)]) in
  Ok (map fst hits, map snd hits).

(** ** Random draws

    A call of a random generator is read as the finite distribution of its
    outcomes: a list of weighted results.  The uniform draw [x_rand] that
    the drivers hand to the pickup and drop policies stays an argument, as
    it is one in the source. *)

Record rand (A : Type) : Type := Rand {
  outcomes : list (Q * result A)
}.
Arguments Rand {A} outcomes.
Arguments outcomes {A} r.

Definition scale {A : Type} (q : Q) (o : Q * result A) : Q * result A :=
  ((q * o.1)%Q, o.2).

#[global] Instance rand_ret : MRet rand := fun A a => Rand [(1%Q, Ok a)].

#[global] Instance rand_bind : MBind rand :=
  fun A B (k : A -> rand B) (m : rand A) =>
    Rand (flat_map
            (fun o : Q * result A =>
               match o.2 with
               | Ok a => map (scale o.1) (outcomes (k a))
               | Raise e => [(o.1, Raise e)]
               end)
            (outcomes m)).

(** A call that draws nothing. *)
Definition lift {A : Type} (r : result A) : rand A := Rand [(1%Q, r)].

(** Every element of [l] with the same weight. *)
Definition uniform {A : Type} (l : list A) : rand A :=
  Rand (map (fun a => ((1 # Pos.of_nat (length l))%Q, Ok a)) l).

(** [np.random.choice(l)]: uniform on [l], an empty [l] raises. *)
Definition np_random_choice {A : Type} (l : list A) : rand A :=
  match l with
  | [] => lift (Raise ValueError)
  | _ => uniform l
  end.

(** [a] is an outcome of [m] that has positive weight. *)
Definition possible {A : Type} (m : rand A) (a : A) : Prop :=
  exists q : Q, (0 < q)%Q /\ In (q, Ok a) (outcomes m).

(** [a] is listed among the outcomes of [m], whatever its weight. *)
Definition listed {A : Type} (m : rand A) (a : A) : Prop :=
  exists q : Q, In (q, Ok a) (outcomes m).

(** Sum of a list of weights. *)
Definition Qsum (l : list Q) : Q := fold_right Qplus 0%Q l.

(** The probability that [m] ends in the result [r]. *)
Definition prob {A : Type} `{EqDecision A} (m : rand A) (r : result A) : Q :=
  Qsum (map fst (List.filter (fun o => bool_decide (o.2 = r)) (outcomes m))).

(** ** Material codes (the integers stored in [World.grid]) *)

Definition Empty : Z := 0.
Definition Soil : Z := 1.
Definition Obstacle : Z := -1.
Definition AgentOccupied : Z := -2.
Definition Built : Z := 2.

Definition is_code (c : Z) : Prop :=
  c = Empty \/ c = Soil \/ c = Obstacle \/ c = AgentOccupied \/ c = Built.

(** Number of cells of an array that hold the code [c]. *)
Definition count_code (c : Z) (a : ndarray) : nat :=
  length (List.filter (fun v => v =? c) (data a)).

(** ** classes.py: World *)

Record World : Type := mk_World {
  width : Z;
  wlength : Z;   (* the attribute [length] *)
  height : Z;
  soil_height : Z;
  grid : ndarray;
  times : ndarray
}.

#[global] Instance World_eq_dec : EqDecision World.
Proof. solve_decision. Defined.

Definition with_grid (w : World) (g : ndarray) : World :=
  {| width := width w; wlength := wlength w; height := height w;
     soil_height := soil_height w; grid := g; times := times w |}.

Definition with_times (w : World) (t : ndarray) : World :=
  {| width := width w; wlength := wlength w; height := height w;
     soil_height := soil_height w; grid := grid w; times := t |}.

(** [self.grid[obj == 1] = -1], done only when the shapes agree. *)
Definition insert_object (g obj : ndarray) : ndarray :=
  if decide (shape obj = shape g)
  then {| shape := shape g;
          data := zip_with (fun c o => if o =? 1 then Obstacle else c)
                           (data g) (data obj) |}
  else g.

(** [World.__init__].  [np.zeros] refuses a negative dimension. *)
Definition World_init (width wlength height soil_height : Z)
    (objects : option (list ndarray)) : result World :=
  if (width <? 0) || (wlength <? 0) || (height <? 0) then Raise ValueError
  else
    let sh := (width, wlength, height) in
    let stop := slice_stop height soil_height in
    let g0 := full sh (fun '(_, _, z) => if z <? stop then Soil else Empty) in
    let g := match objects with
             | None => g0
             | Some objs => fold_left insert_object objs g0
             end in
    Ok {| width := width; wlength := wlength; height := height;
          soil_height := soil_height; grid := g;
          times := full sh (fun _ => - 10 ^ 9) |}.

(** ** classes.py: Agent *)

Record Agent : Type := mk_Agent {
  pos : coord;
  has_pellet : Z
}.

#[global] Instance Agent_eq_dec : EqDecision Agent.
Proof. solve_decision. Defined.

(** [Agent.__init__]: the x and the y coordinate are drawn one after the
    other, each from its own array of [np.where]. *)
Definition Agent_init (world : World) : rand (Agent * World) :=
  no_obj ← lift (where_layer (grid world) (soil_height world) 0);
  x ← np_random_choice no_obj.1;
  y ← np_random_choice no_obj.2;
  let z := soil_height world in
  g ← lift (setitem (grid world) (x, y, z) AgentOccupied);
  mret ({| pos := (x, y, z); has_pellet := 0 |}, with_grid world g).

(** [Agent.place] *)
Definition place (self : Agent) (world : World) : result (Agent * World) :=
  g ← setitem (grid world) (pos self) AgentOccupied;
  Ok (self, with_grid world g).

(** [Agent.move] *)
Definition move (self : Agent) (world : World) (new_pos : coord)
  : result (Agent * World) :=
  let old_pos := pos self in
  g ← setitem (grid world) old_pos 0;
  let self := {| pos := new_pos; has_pellet := has_pellet self |} in
  place self (with_grid world g).

(** [Agent.pickup] *)
Definition pickup (self : Agent) (world : World) : result (Agent * World) :=
  let '(x, y, z) := pos self in
  g ← setitem (grid world) (x, y, z - 1) 0;
  g ← setitem g (x, y, z) 0;
  let self := {| pos := (x, y, z - 1); has_pellet := 1 |} in
  place self (with_grid world g).

(** [Agent.drop] *)
Definition drop (self : Agent) (world : World) (new_pos : coord)
  : result (Agent * World) :=
  g ← setitem (grid world) (pos self) 2;
  let self := {| pos := new_pos; has_pellet := 0 |} in
  place self (with_grid world g).

(** ** classes.py: Surface

    A vertex is a coordinate tuple.  An [OrderedDict] is the list of its
    items in insertion order, each key once. *)

Definition vertex : Type := coord.

Definition odict (V : Type) : Type := list (vertex * V).

Fixpoint od_lookup {V : Type} (d : odict V) (k : vertex) : option V :=
  match d with
  | [] => None
  | (k', v) :: d' => if decide (k' = k) then Some v else od_lookup d' k
  end.

(** [d[k]] *)
Definition od_get {V : Type} (d : odict V) (k : vertex) : result V :=
  match od_lookup d k with
  | Some v => Ok v
  | None => Raise KeyError
  end.

Fixpoint od_update {V : Type} (d : odict V) (k : vertex) (v : V) : odict V :=
  match d with
  | [] => []
  | (k', v') :: d' =>
      if decide (k' = k) then (k', v) :: d' else (k', v') :: od_update d' k v
  end.

(** [d[k] = v]: an existing key keeps its place, a new one goes last. *)
Definition od_set {V : Type} (d : odict V) (k : vertex) (v : V) : odict V :=
  match od_lookup d k with
  | Some _ => od_update d k v
  | None => d ++ [(k, v)]
  end.

Fixpoint od_remove {V : Type} (d : odict V) (k : vertex) : odict V :=
  match d with
  | [] => []
  | (k', v') :: d' =>
      if decide (k' = k) then d' else (k', v') :: od_remove d' k
  end.

(** [del d[k]] *)
Definition od_del {V : Type} (d : odict V) (k : vertex) : result (odict V) :=
  match od_lookup d k with
  | Some _ => Ok (od_remove d k)
  | None => Raise KeyError
  end.

Definition od_keys {V : Type} (d : odict V) : list vertex := map fst d.
Definition od_values {V : Type} (d : odict V) : list V := map snd d.

(** [l.remove(x)]: strikes the first occurrence, raises when there is none. *)
Fixpoint list_remove (x : vertex) (l : list vertex) : result (list vertex) :=
  match l with
  | [] => Raise ValueError
  | y :: l' =>
      if decide (y = x) then Ok l'
      else l'' ← list_remove x l'; Ok (y :: l'')
  end.

Record Surface : Type := mk_Surface {
  graph : odict (list vertex);
  degrees : odict Z;
  num_edges : Q
}.

(** One round of the loop of [Surface.__init__]. *)
Definition Surface_init_step (s : Surface) (v : vertex) : result Surface :=
  l ← od_get (graph s) v;
  let deg := Z.of_nat (length l) in
  Ok {| graph := graph s;
        degrees := od_set (degrees s) v deg;
        num_edges := (num_edges s + inject_Z deg / 2)%Q |}.

(** [Surface.__init__]; the seed is a mapping, so [OrderedDict(graph)] is
    its items as they come. *)
Definition Surface_init (seed : odict (list vertex)) : result Surface :=
  fold_left (fun acc v => s ← acc; Surface_init_step s v)
            (od_keys seed)
            (Ok {| graph := seed; degrees := []; num_edges := 0%Q |}).

(** [Surface.get_num_vertices] *)
Definition get_num_vertices (self : Surface) : Z :=
  Z.of_nat (length (od_keys (graph self))).

(** [Surface.add_edge] *)
Definition add_edge (self : Surface) (pair : vertex * vertex) : result Surface :=
  let '(v1, v2) := pair in
  l1 ← od_get (graph self) v1;
  let g := od_set (graph self) v1 (l1 ++ [v2]) in
  l2 ← od_get g v2;
  let g := od_set g v2 (l2 ++ [v1]) in
  d1 ← od_get (degrees self) v1;
  let dg := od_set (degrees self) v1 (d1 + 1) in
  d2 ← od_get dg v2;
  let dg := od_set dg v2 (d2 + 1) in
  Ok {| graph := g; degrees := dg; num_edges := (num_edges self + 1)%Q |}.

(** The [for nbr in nbrs] loop of [Surface.remove_vertex].  [nbrs] is the
    very list stored under [vertex], so the iterator (position [i]) sees
    what the body strikes from it; the list never grows, hence its initial
    length bounds the number of rounds ([fuel]). *)
Fixpoint remove_vertex_loop (fuel i : nat) (vertex : vertex) (s : Surface)
  : result Surface :=
  match fuel with
  | O => Ok s
  | S fuel' =>
      nbrs ← od_get (graph s) vertex;
      match nbrs !! i with
      | None => Ok s
      | Some nbr =>
          l ← od_get (graph s) nbr;
          l' ← list_remove vertex l;
          let g := od_set (graph s) nbr l' in
          d ← od_get (degrees s) nbr;
          let dg := od_set (degrees s) nbr (d - 1) in
          remove_vertex_loop fuel' (S i) vertex
            {| graph := g; degrees := dg;
               num_edges := (num_edges s - 1)%Q |}
      end
  end.

(** [Surface.remove_vertex] *)
Definition remove_vertex (self : Surface) (vertex : vertex) : result Surface :=
  nbrs ← od_get (graph self) vertex;
  s ← remove_vertex_loop (length nbrs) 0 vertex self;
  g ← od_del (graph s) vertex;
  dg ← od_del (degrees s) vertex;
  Ok {| graph := g; degrees := dg; num_edges := num_edges s |}.

(** A small graph and a short run on it, for the examples: an edge and an
    isolated vertex, to which a loop edge and an edge are added before it
    is removed again. *)
Definition small_seed : odict (list vertex) :=
  [((0, 0, 0), [(0, 1, 0)]); ((0, 1, 0), [(0, 0, 0)]); ((1, 1, 0), [])].

(** A numpy float: a finite value or one of the three special ones. *)
Inductive npfloat : Type :=
| Finite (q : Q)
| PosInf
| NegInf
| NaN.

(** [d / x] for an integer [d] of an array and a float [x]: numpy does not
    raise on a zero divisor, it warns and stores inf or nan. *)
Definition np_true_divide (d : Z) (x : Q) : npfloat :=
  if Qeq_bool x 0 then
    if d =? 0 then NaN else if 0 <? d then PosInf else NegInf
  else Finite (inject_Z d / x)%Q.

(** [Surface.get_rw_stationary_distribution]; the degrees are taken to fit
    [np.int32]. *)
Definition get_rw_stationary_distribution (self : Surface)
  : result (list npfloat) :=
  let p := od_values (degrees self) in
  Ok (map (fun d => np_true_divide d (2 * num_edges self)%Q) p).

(** The sum of the values of a dictionary of integers. *)
Definition od_sum (d : odict Z) : Z := fold_right Z.add 0 (od_values d).

(** The sum of all degrees. *)
Definition sum_degrees (s : Surface) : Z := od_sum (degrees s).

Definition adjacency (s : Surface) (v : vertex) : list vertex :=
  default [] (od_lookup (graph s) v).

(** ** khuong/khuong_algorithms.py *)

(** Modelled from the spec: [functions.random_choices], of code/functions.py
    which is not among the sources; the call [random_choices(l)[0]] samples
    one element of the candidate list uniformly (spec, section 4.4). *)
Definition random_choices {A : Type} (l : list A) : rand A :=
  np_random_choice l.

(** Vector sum [np.array(pos) + d]. *)
Definition vadd (p d : coord) : coord :=
  (p.1.1 + d.1.1, p.1.2 + d.1.2, p.2 + d.2).

(** [np.sum(v == c)] *)
Definition np_sum_eq (v : list Z) (c : Z) : Z :=
  Z.of_nat (length (List.filter (fun x => x =? c) v)).

(** The indices selected by the slice [start:stop] of an axis of size [n]. *)
Definition slice (n start stop : Z) : list Z :=
  let a := slice_stop n start in
  let b := slice_stop n stop in
  map (fun i => a + i) (range (b - a)).

(** [a[x0:x1, y0:y1, z0:z1]], flattened. *)
Definition getslice (a : ndarray) (xr yr zr : Z * Z) : result (list Z) :=
  let '(d0, d1, d2) := shape a in
  mapM (getitem a)
       (x ← slice d0 xr.1 xr.2; y ← slice d1 yr.1 yr.2;
        z ← slice d2 zr.1 zr.2; [(x, y, z)]).

(** [np.max]: an empty array has no maximum. *)
Definition np_max (l : list Z) : result Z :=
  match l with
  | [] => Raise ValueError
  | v :: l' => Ok (fold_left Z.max l' v)
  end.

(** [l[h]] on a one-dimensional array of floats. *)
Definition getitem1 (l : list R) (h : Z) : result R :=
  i ← norm_index (Z.of_nat (length l)) h;
  match l !! Z.to_nat i with
  | Some v => Ok v
  | None => Raise IndexError
  end.

Local Open Scope R_scope.

(** [eta_p]: the pickup rate. *)
Definition eta_p (N : Z) : R :=
  let n_p1 := 0.029 in
  if (N =? 0)%Z then n_p1 else n_p1 / IZR N.

(** [eta_d]: the dropping rate. *)
Definition eta_d (N : Z) : R :=
  let n_d0 := 0.025 in
  let b_d := 0.11 in
  if (N =? 0)%Z then n_d0 else n_d0 + b_d * IZR N.

(** [prob_pickup]; [np.e**x] is [exp x]. *)
Definition prob_pickup (N : Z) : R :=
  1 - exp (- eta_p N).

Section Khuong.

(** [scipy.stats.skewnorm.cdf], as [skewnorm_cdf x a loc scale]. *)
Variable skewnorm_cdf : R -> R -> R -> R -> R.

(** The helpers of code/functions.py that the algorithms call; that file is
    not among the sources, so they are parameters.  [local_grid_data] and
    [compute_height] read the world; a candidate move is a pair whose second
    component is the direction vector ([chosen_move[1]]). *)
Variable local_grid_data : coord -> World -> result (list Z).
Variable move_tag : Type.
Variable valid_moves : list Z -> list (move_tag * coord).
Variable random_move_direction : list Z -> rand (option coord).
Variable compute_height : coord -> World -> result Z.

(** [mod_list]: the skew normal cdf at [k/2] for [k] in [range(200)]. *)
Definition mod_list : list R :=
  map (fun k => skewnorm_cdf (IZR k / 2) 8.582 2.866 3.727) (range 200).

(** [prob_drop] *)
Definition prob_drop (N t_now t_latest : Z) (decay_rate : R) (h : Z)
  : result R :=
  if (N =? 0)%Z then Ok 0.025
  else
    let tau := (t_now - t_latest)%Z in
    let prob := 1 - exp (- eta_d N * exp (- IZR tau * decay_rate)) in
    if (0 <? h)%Z then
      f ← getitem1 mod_list h;
      Ok (prob * f)
    else Ok prob.

(** The loop of [move_algorithm], [j] rounds to go. *)
Fixpoint move_loop (world : World) (j : nat) (pos : coord) : rand coord :=
  match j with
  | O => mret pos
  | S j' =>
      local_data ← lift (local_grid_data pos world);
      let moves := valid_moves local_data in
      if decide (0 < length moves)%nat then
        chosen_move ← random_choices moves;
        let new_pos := vadd pos chosen_move.2 in
        move_loop world j' new_pos
      else move_loop world j' pos
  end.

(** [move_algorithm] *)
Definition move_algorithm (pos : coord) (world : World) (m : Z)
  : rand (coord * World) :=
  g ← lift (setitem (grid world) pos 0);
  let world := with_grid world g in
  pos ← move_loop world (Z.to_nat m) pos;
  g ← lift (setitem (grid world) pos (-2));
  mret (pos, with_grid world g).

(** The loop of [move_algorithm_new]; [None] from the helper is [break]. *)
Fixpoint move_loop_new (world : World) (j : nat) (pos : coord) : rand coord :=
  match j with
  | O => mret pos
  | S j' =>
      let '(x, y, z) := pos in
      local_data ← lift (local_grid_data pos world);
      dir ← random_move_direction local_data;
      match dir with
      | Some dir =>
          move_loop_new world j' ((x + dir.1.1)%Z, (y + dir.1.2)%Z, (z + dir.2)%Z)
      | None => mret pos
      end
  end.

(** [move_algorithm_new] *)
Definition move_algorithm_new (pos : coord) (world : World) (m : Z)
  : rand (coord * World) :=
  g ← lift (setitem (grid world) pos 0);
  let world := with_grid world g in
  pos ← move_loop_new world (Z.to_nat m) pos;
  g ← lift (setitem (grid world) pos (-2));
  mret (pos, with_grid world g).

(** [pickup_algorithm] *)
Definition pickup_algorithm (pos : coord) (world : World) (x_rand : R)
  : result (option Z * World) :=
  let '(x, y, z) := pos in
  below ← getitem (grid world) (x, y, (z - 1)%Z);
  if (0 <? below)%Z then
    v26 ← local_grid_data pos world;
    let N := np_sum_eq v26 2 in
    let prob := prob_pickup N in
    if Rlt_dec x_rand prob then
      material ← getitem (grid world) (x, y, (z - 1)%Z);
      g ← setitem (grid world) (x, y, (z - 1)%Z) 0;
      Ok (Some material, with_grid world g)
    else Ok (None, world)
  else Ok (None, world).

(** [t_latest]: the latest time in the block around [pos], cut at the
    border of the grid. *)
Definition latest_time (pos : coord) (world : World) : result Z :=
  let '(x, y, z) := pos in
  let x_low_bound := Z.max 0 (x - 1) in
  let y_low_bound := Z.max 0 (y - 1) in
  let z_low_bound := Z.max 0 (z - 1) in
  block ← getslice (times world) (x_low_bound, (x + 2)%Z)
             (y_low_bound, (y + 2)%Z) (z_low_bound, (z + 2)%Z);
  np_max block.

(** [drop_algorithm] *)
Definition drop_algorithm (pos : coord) (world : World) (step : Z)
    (decay_rate x_rand : R) : rand (option coord * World) :=
  let '(x, y, z) := pos in
  v26 ← lift (local_grid_data pos world);
  let moves := valid_moves v26 in
  if decide (0 < length moves)%nat then
    let N := np_sum_eq v26 2 in
    t_latest ← lift (latest_time pos world);
    let t_now := step in
    h ← lift (compute_height pos world);
    prob ← lift (prob_drop N t_now t_latest decay_rate h);
    if Rlt_dec x_rand prob then
      chosen_move ← random_choices moves;
      let new_pos := vadd pos chosen_move.2 in
      g ← lift (setitem (grid world) (x, y, z) 2);
      t ← lift (setitem (times world) (x, y, z) t_now);
      mret (Some new_pos, with_times (with_grid world g) t)
    else mret (None, world)
  else mret (None, world).

(** [drop_algorithm_new] *)
Definition drop_algorithm_new (pos : coord) (world : World) (step : Z)
    (decay_rate x_rand : R) : rand (option coord * World) :=
  let '(x, y, z) := pos in
  v26 ← lift (local_grid_data pos world);
  let N := np_sum_eq v26 2 in
  t_latest ← lift (latest_time pos world);
  let t_now := step in
  h ← lift (compute_height pos world);
  prob ← lift (prob_drop N t_now t_latest decay_rate h);
  if Rlt_dec x_rand prob then
    dir ← random_move_direction v26;
    match dir with
    | Some dir =>
        let new_pos := ((x + dir.1.1)%Z, (y + dir.1.2)%Z, (z + dir.2)%Z) in
        g ← lift (setitem (grid world) (x, y, z) 2);
        t ← lift (setitem (times world) (x, y, z) t_now);
        mret (Some new_pos, with_times (with_grid world g) t)
    | None => mret (None, world)
    end
  else mret (None, world).

(** [drop_algorithm_graph]; [graph] is [surface.graph]. *)
Definition drop_algorithm_graph (pos : coord) (world : World)
    (graph : odict (list vertex)) (step : Z) (decay_rate x_rand : R)
  : rand (option coord * World) :=
  nbrs ← lift (od_get graph pos);
  if decide (0 < length nbrs)%nat then
    let '(x, y, z) := pos in
    v26 ← lift (local_grid_data pos world);
    let N := np_sum_eq v26 2 in
    t_latest ← lift (latest_time pos world);
    let t_now := step in
    h ← lift (compute_height pos world);
    prob ← lift (prob_drop N t_now t_latest decay_rate h);
    if Rlt_dec x_rand prob then
      chosen_nbr ← random_choices nbrs;
      g ← lift (setitem (grid world) (x, y, z) 2);
      t ← lift (setitem (times world) (x, y, z) t_now);
      mret (Some chosen_nbr, with_times (with_grid world g) t)
    else mret (None, world)
  else mret (None, world).

(** ** The per-agent bodies of the drivers

    Only what touches the grid and the agents is kept: the counters, the
    data frames and the calls of [update_surface] / [update_structure]
    (code/functions.py), which work on the two graphs, are left out. *)

(** khuong/agent_based_khuong.py, the body of [for i in range(num_agents)]. *)
Definition agent_based_update (agent : Agent) (world : World) (m step : Z)
    (decay_rate x_rand : R) : rand (Agent * World) :=
  '(last_pos, world) ← move_algorithm_new (pos agent) world m;
  let agent := {| pos := last_pos; has_pellet := has_pellet agent |} in
  if (has_pellet agent =? 0)%Z then
    '(material, world) ← lift (pickup_algorithm (pos agent) world x_rand);
    match material with
    | Some _ => lift (pickup agent world)
    | None => mret (agent, world)
    end
  else
    '(new_pos, world) ←
       drop_algorithm_new (pos agent) world step decay_rate x_rand;
    match new_pos with
    | Some new_pos => lift (drop agent world new_pos)
    | None => mret (agent, world)
    end.

(** khuong/markov_khuong.py, the body of [for i in range(num_agents)];
    [random_pos] is the vertex that [conditional_random_choice] drew and
    [graph] is [surface.graph]. *)
Definition markov_update (agent : Agent) (world : World)
    (graph : odict (list vertex)) (random_pos : coord) (step : Z)
    (decay_rate x_rand : R) : rand (Agent * World) :=
  let agent := {| pos := random_pos; has_pellet := has_pellet agent |} in
  if (has_pellet agent =? 0)%Z then
    '(material, world) ← lift (pickup_algorithm random_pos world x_rand);
    match material with
    | Some _ =>
        mret ({| pos := (random_pos.1.1, random_pos.1.2, (random_pos.2 - 1)%Z);
                 has_pellet := 1 |}, world)
    | None => mret (agent, world)
    end
  else
    '(new_pos, world) ←
       drop_algorithm_graph random_pos world graph step decay_rate x_rand;
    match new_pos with
    | Some new_pos => mret ({| pos := new_pos; has_pellet := 0 |}, world)
    | None => mret (agent, world)
    end.

(** The states a driver can be in: the world and the list of agents.  A
    run builds the world, creates the agents, and then updates one agent
    after the other, tick after tick. *)
Inductive agent_based_reachable : World * list Agent -> Prop :=
| ab_world width wlength height soil_height objects world :
    World_init width wlength height soil_height objects = Ok world ->
    agent_based_reachable (world, [])
| ab_agent world agents agent world' :
    agent_based_reachable (world, agents) ->
    possible (Agent_init world) (agent, world') ->
    agent_based_reachable (world', agents ++ [agent])
| ab_update world agents i agent m step decay_rate x_rand agent' world' :
    agent_based_reachable (world, agents) ->
    agents !! i = Some agent ->
    possible (agent_based_update agent world m step decay_rate x_rand)
             (agent', world') ->
    agent_based_reachable (world', <[i := agent']> agents).

Inductive markov_reachable : World * list Agent -> Prop :=
| mk_world width wlength height soil_height objects world :
    World_init width wlength height soil_height objects = Ok world ->
    markov_reachable (world, [])
| mk_agent world agents agent world' :
    markov_reachable (world, agents) ->
    possible (Agent_init world) (agent, world') ->
    markov_reachable (world', agents ++ [agent])
| mk_update world agents i agent graph random_pos step decay_rate x_rand
    agent' world' :
    markov_reachable (world, agents) ->
    agents !! i = Some agent ->
    possible (markov_update agent world graph random_pos step decay_rate x_rand)
             (agent', world') ->
    markov_reachable (world', <[i := agent']> agents).

End Khuong.

Local Close Scope R_scope.

(** Modelled from the spec: [functions.random_move_direction], of
    code/functions.py which is not among the sources.  The spec (section
    4.4) has the optimized walk sample a direction vector directly, without
    the candidate list, so that it behaves as the uniform draw from that
    list: each candidate direction with the weight one over their number,
    and [None] when there is no candidate. *)
Definition random_move_direction {T : Type}
    (valid_moves : list Z -> list (T * coord)) (local_data : list Z)
  : rand (option coord) :=
  let dirs := map snd (valid_moves local_data) in
  match dirs with
  | [] => mret None
  | _ => Rand (map (fun d => ((1 # Pos.of_nat (length dirs))%Q, Ok (Some d)))
                   dirs)
  end.

(** ** Predicates used in the statements *)

(** The cell list of an array has one entry per cell of its shape. *)
Definition wf_ndarray (a : ndarray) : Prop :=
  0 <= (shape a).1.1 /\ 0 <= (shape a).1.2 /\ 0 <= (shape a).2 /\
  length (data a) = Z.to_nat ((shape a).1.1 * (shape a).1.2 * (shape a).2).

(** [p] names a cell of [a] by its plain, non-negative indices. *)
Definition in_bounds (a : ndarray) (p : coord) : Prop :=
  0 <= p.1.1 < (shape a).1.1 /\ 0 <= p.1.2 < (shape a).1.2 /\
  0 <= p.2 < (shape a).2.

(** Some component of [p] is neither an index nor a negative index of its
    axis. *)
Definition out_of_range (a : ndarray) (p : coord) : Prop :=
  (p.1.1 < - (shape a).1.1 \/ (shape a).1.1 <= p.1.1) \/
  (p.1.2 < - (shape a).1.2 \/ (shape a).1.2 <= p.1.2) \/
  (p.2 < - (shape a).2 \/ (shape a).2 <= p.2).

(** [v] is not a key of the graph. *)
Definition absent (s : Surface) (v : vertex) : Prop :=
  od_lookup (graph s) v = None.

(** *** Sequences of graph mutations and the graph invariants *)

Inductive graph_op : Type :=
| AddEdge (edge : vertex * vertex)
| RemoveVertex (v : vertex).

Definition apply_op (s : Surface) (o : graph_op) : result Surface :=
  match o with
  | AddEdge edge => add_edge s edge
  | RemoveVertex v => remove_vertex s v
  end.

Fixpoint run (s : Surface) (ops : list graph_op) : result Surface :=
  match ops with
  | [] => Ok s
  | o :: ops' => s' ← apply_op s o; run s' ops'
  end.

Definition small_ops : list graph_op :=
  [AddEdge ((1, 1, 0), (1, 1, 0)); AddEdge ((1, 1, 0), (0, 0, 0));
   RemoveVertex (1, 1, 0)].

Definition present (s : Surface) (v : vertex) : Prop :=
  is_Some (od_lookup (graph s) v).

(** What the caller owes: the ends of a new edge are vertices of the graph
    and the edge is not there yet; a vertex to remove is in the graph. *)
Definition precondition (s : Surface) (o : graph_op) : Prop :=
  match o with
  | AddEdge (v1, v2) =>
      present s v1 /\ present s v2 /\ (v2 ∉ adjacency s v1)
  | RemoveVertex v => present s v
  end.

Fixpoint respects (s : Surface) (ops : list graph_op) : Prop :=
  match ops with
  | [] => True
  | o :: ops' =>
      precondition s o /\
      forall s', apply_op s o = Ok s' -> respects s' ops'
  end.

(** Number of occurrences of [x] in [l]. *)
Fixpoint occurrences (x : vertex) (l : list vertex) : nat :=
  match l with
  | [] => 0
  | y :: l' => (if decide (y = x) then 1 else 0) + occurrences x l'
  end.

Definition adj_of (g : odict (list vertex)) (v : vertex) : list vertex :=
  default [] (od_lookup g v).

(** A seed adjacency of an undirected graph: each vertex once as a key,
    no vertex twice in a list nor in its own list, and [u] listed under [v]
    exactly when [v] is listed under [u]. *)
Definition symmetric_seed (seed : odict (list vertex)) : Prop :=
  NoDup (od_keys seed) /\
  (forall v l, od_lookup seed v = Some l -> NoDup l /\ (v ∉ l)) /\
  (forall u v, u ∈ adj_of seed v <-> v ∈ adj_of seed u).

Definition symmetric (s : Surface) : Prop :=
  forall u v, u ∈ adjacency s v <-> v ∈ adjacency s u.

Definition degrees_match (s : Surface) : Prop :=
  od_keys (degrees s) = od_keys (graph s) /\
  forall v l, od_lookup (graph s) v = Some l ->
              od_lookup (degrees s) v = Some (Z.of_nat (length l)).

Definition edges_match (s : Surface) : Prop :=
  (num_edges s == inject_Z (sum_degrees s) / 2)%Q.

(** A vertex other than [v] is at most once in the list of [v]. *)
Definition no_parallel (g : odict (list vertex)) : Prop :=
  forall v l u, od_lookup g v = Some l -> u <> v -> (occurrences u l <= 1)%nat.

(** [v] is not in [l], or exactly twice and side by side: the trace that
    [add_edge((v, v))] leaves in the list of [v]. *)
Definition loop_paired (v : vertex) (l : list vertex) : Prop :=
  (v ∉ l) \/
  exists l1 l2, l = l1 ++ v :: v :: l2 /\ (v ∉ l1) /\ (v ∉ l2).

(** The invariant of the graph between two mutations. *)
Definition surface_inv (s : Surface) : Prop :=
  NoDup (od_keys (graph s)) /\
  degrees_match s /\
  symmetric s /\
  no_parallel (graph s) /\
  (forall v l, od_lookup (graph s) v = Some l -> loop_paired v l) /\
  edges_match s.

(** The invariant of the loop of [remove_vertex] on [v]: the iterator has
    passed [done] and has [todo] before it. *)
Definition remove_inv (v : vertex) (done todo : list vertex) (s : Surface)
  : Prop :=
  od_lookup (graph s) v = Some (done ++ todo) /\
  NoDup (od_keys (graph s)) /\
  degrees_match s /\
  no_parallel (graph s) /\
  (forall a b, a <> v -> b <> v ->
               (a ∈ adjacency s b <-> b ∈ adjacency s a)) /\
  (forall u, u <> v -> (v ∈ adjacency s u <-> u ∈ todo)) /\
  ((v ∉ todo) \/
   ((v ∉ done) /\
    exists l1 l2, todo = l1 ++ v :: v :: l2 /\ (v ∉ l1) /\ (v ∉ l2))) /\
  (forall u l, u <> v -> od_lookup (graph s) u = Some l -> loop_paired u l) /\
  (2 * num_edges s
   == inject_Z (sum_degrees s) - inject_Z (Z.of_nat (length done)))%Q.

(** A 2 x 2 x 2 world with soil height 1, given by its cells; the cell
    [(0, 0, 1)] carries the time stamp [stamp], the others the initial one. *)
Definition small_world (cells : list Z) (stamp : Z) : World :=
  {| width := 2; wlength := 2; height := 2; soil_height := 1;
     grid := {| shape := (2, 2, 2); data := cells |};
     times := {| shape := (2, 2, 2);
                 data := [- 10 ^ 9; stamp; - 10 ^ 9; - 10 ^ 9;
                          - 10 ^ 9; - 10 ^ 9; - 10 ^ 9; - 10 ^ 9] |} |}.

(** *** The invariants of the grid under the drivers *)

(** A code that [World.__init__] writes. *)
Definition is_initial_code (c : Z) : Prop :=
  c = Empty \/ c = Soil \/ c = Obstacle.

(** Every cell that holds [AgentOccupied] is the cell of some agent. *)
Definition agents_cover (g : ndarray) (agents : list Agent) : Prop :=
  forall o : nat,
    data g !! o = Some AgentOccupied ->
    exists a, a ∈ agents /\ offset g (pos a) = Ok o.

(** The same while agent number [i] is being updated: its entry in the
    list is out of date, and [c] is the cell, if any, that it marks. *)
Definition agents_cover_but (g : ndarray) (agents : list Agent) (i : nat)
    (c : option nat) : Prop :=
  forall o : nat,
    data g !! o = Some AgentOccupied ->
    c = Some o \/
    exists j a, j <> i /\ agents !! j = Some a /\ offset g (pos a) = Ok o.

(** The cells of an array that hold [AgentOccupied], by their offsets. *)
Definition agent_cells (g : ndarray) : list nat :=
  filter (fun o => data g !! o = Some AgentOccupied)
         (seq 0 (length (data g))).

(** The offsets of the cells the agents of a list stand on. *)
Definition agent_offsets (g : ndarray) (agents : list Agent) : list nat :=
  omap (fun a => match offset g (pos a) with
                 | Ok o => Some o
                 | Raise _ => None
                 end) agents.

(** What holds of the grid and the agents in every state of a run. *)
Definition grid_inv (st : World * list Agent) : Prop :=
  Forall is_code (data (grid st.1)) /\
  (count_code AgentOccupied (grid st.1) <= length st.2)%nat.

(** ** Further code of the same files *)

(** [Surface.get_num_edges]: the number of edges counted anew from the
    adjacency lists. *)
Definition get_num_edges (self : Surface) : result Q :=
  lens ← mapM (fun v => l ← od_get (graph self) v; Ok (Z.of_nat (length l)))
              (od_keys (graph self));
  Ok (inject_Z (fold_right Z.add 0%Z lens) / 2)%Q.

(** *** classes.py: Structure (the graph of the built voxels) *)

Module Struct.

Record t : Type := mk {
  graph : odict (list vertex)
}.

(** [Structure.__init__] *)
Definition init : t := {| graph := [] |}.

(** [Structure.get_degree] *)
Definition get_degree (self : t) (v : vertex) : result Z :=
  l ← od_get (graph self) v;
  Ok (Z.of_nat (length l)).

(** [Structure.get_num_vertices] *)
Definition get_num_vertices (self : t) : Z :=
  Z.of_nat (length (od_keys (graph self))).

(** [Structure.get_num_edges] *)
Definition get_num_edges (self : t) : result Q :=
  lens ← mapM (fun v => l ← od_get (graph self) v; Ok (Z.of_nat (length l)))
              (od_keys (graph self));
  Ok (inject_Z (fold_right Z.add 0%Z lens) / 2)%Q.

(** [Structure.add_edge] *)
Definition add_edge (self : t) (pair : vertex * vertex) : result t :=
  let '(v1, v2) := pair in
  l1 ← od_get (graph self) v1;
  let g := od_set (graph self) v1 (l1 ++ [v2]) in
  l2 ← od_get g v2;
  let g := od_set g v2 (l2 ++ [v1]) in
  Ok {| graph := g |}.

(** The loop of [Structure.remove_vertex]; as for the surface, the list
    that is walked is the one stored under [vertex]. *)
Fixpoint remove_vertex_loop (g : odict (list vertex)) (fuel i : nat)
    {struct fuel} : vertex -> result (odict (list vertex)) :=
  fun vertex =>
  match fuel with
  | O => Ok g
  | S fuel' =>
      nbrs ← od_get g vertex;
      match nbrs !! i with
      | None => Ok g
      | Some nbr =>
          l ← od_get g nbr;
          l' ← list_remove vertex l;
          remove_vertex_loop (od_set g nbr l') fuel' (S i) vertex
      end
  end.

(** [Structure.remove_vertex] *)
Definition remove_vertex (self : t) (vertex : vertex) : result t :=
  nbrs ← od_get (graph self) vertex;
  g ← remove_vertex_loop (graph self) (length nbrs) 0 vertex;
  g ← od_del g vertex;
  Ok {| graph := g |}.

End Struct.

(** *** khuong_algorithms.py: the walk on the surface graph *)

(** The loop of [move_algorithm_graph], [j] rounds to go. *)
Fixpoint move_loop_graph (surface_graph : odict (list vertex)) (world : World)
    (j : nat) (pos : coord) : rand coord :=
  match j with
  | O => mret pos
  | S j' =>
      locs ← lift (od_get surface_graph pos);
      if decide (0 < length locs)%nat then
        chosen_loc ← random_choices locs;
        c ← lift (getitem (grid world) chosen_loc);
        if c =? 0 then move_loop_graph surface_graph world j' chosen_loc
        else move_loop_graph surface_graph world j' pos
      else move_loop_graph surface_graph world j' pos
  end.

(** [move_algorithm_graph] *)
Definition move_algorithm_graph (pos : coord)
    (surface_graph : odict (list vertex)) (world : World) (m : Z)
  : rand (coord * World) :=
  g ← lift (setitem (grid world) pos 0);
  let world := with_grid world g in
  pos ← move_loop_graph surface_graph world (Z.to_nat m) pos;
  g ← lift (setitem (grid world) pos (-2));
  mret (pos, with_grid world g).


(** *** khuong/mean_field_khuong.py *)

Section MeanField.

Variable skewnorm_cdf : R -> R -> R -> R -> R.
Variable local_grid_data : coord -> World -> result (list Z).
Variable compute_height : coord -> World -> result Z.

(** The body of [for i in permutation], as far as the grid goes: index
    [i] stands for an agent without pellet when it is below
    [no_pellet_num_cycle]. *)
Definition mean_field_update (world : World) (graph : odict (list vertex))
    (random_pos : coord) (i no_pellet_num_cycle step : Z)
    (decay_rate x_rand : R) : rand World :=
  if i <? no_pellet_num_cycle then
    '(material, world) ← lift (pickup_algorithm local_grid_data random_pos
                                 world x_rand);
    mret world
  else
    '(new_pos, world) ←
       drop_algorithm_graph skewnorm_cdf local_grid_data compute_height
         random_pos world graph step decay_rate x_rand;
    mret world.

Inductive mean_field_reachable : World -> Prop :=
| mf_world width wlength height soil_height objects world :
    World_init width wlength height soil_height objects = Ok world ->
    mean_field_reachable world
| mf_update world graph random_pos i no_pellet_num_cycle step decay_rate
    x_rand world' :
    mean_field_reachable world ->
    possible (mean_field_update world graph random_pos i no_pellet_num_cycle
                step decay_rate x_rand) world' ->
    mean_field_reachable world'.

End MeanField.

(** *** information_theory/helpers.py (floats read as real numbers) *)

(** [np.clip(x, lo, hi)] *)
Definition np_clip (x lo hi : R) : R := Rmin (Rmax x lo) hi.

(** [np.sum] of an array of floats. *)
Definition Rsum (l : list R) : R := fold_right Rplus 0%R l.

(** [entropy] *)
Definition entropy (probabilities : list R) (epsilon : R) : R :=
  let probabilities :=
    map (fun p => np_clip p epsilon (1 - epsilon)%R) probabilities in
  (- Rsum (map (fun p => p * (ln p / ln 2)) probabilities))%R.

(** [cross_entropy], on two arrays of the same length. *)
Definition cross_entropy (p_emp p_stat : list R) (epsilon : R) : R :=
  let p_emp := map (fun p => np_clip p epsilon (1 - epsilon)%R) p_emp in
  let p_stat := map (fun p => np_clip p epsilon (1 - epsilon)%R) p_stat in
  (- Rsum (zip_with (fun p q => p * ln q) p_emp p_stat))%R.

(** *** classes.py: World.diffuse (floats read as real numbers) *)

(** A numpy array of floats of rank three. *)
Record farray : Type := mk_farray {
  fshape : coord;
  fdata : list R
}.

(** The position of a cell depends on the shape only. *)
Definition foffset (a : farray) (p : coord) : result nat :=
  offset {| shape := fshape a; data := [] |} p.

(** [a[x, y, z]] *)
Definition fgetitem (a : farray) (p : coord) : result R :=
  o ← foffset a p;
  match fdata a !! o with
  | Some v => Ok v
  | None => Raise IndexError
  end.

(** [a[x, y, z] = v] *)
Definition fsetitem (a : farray) (p : coord) (v : R) : result farray :=
  o ← foffset a p;
  if decide (o < length (fdata a))%nat
  then Ok {| fshape := fshape a; fdata := <[o := v]> (fdata a) |}
  else Raise IndexError.

(** A [for] loop over [l] that threads the state [s]. *)
Fixpoint for_each {A S : Type} (l : list A) (body : S -> A -> result S)
    (s : S) : result S :=
  match l with
  | [] => Ok s
  | a :: l' => s' ← body s a; for_each l' body s'
  end.

(** [range(start, stop)] *)
Definition range2 (start stop : Z) : list Z :=
  map (fun i => start + i) (range (stop - start)).

(** The body of the three nested loops of [diffuse] at the cell [(i, j, k)]:
    the change is summed over the six neighbours that are empty in the
    grid, and added to the cell of the copy. *)
Definition diffuse_cell (g : ndarray) (tensor : farray) (diffusion_rate : R)
    (new_tensor : farray) (c : coord) : result farray :=
  let '(i, j, k) := c in
  concentration_change ←
    for_each [(i + 1, j, k); (i - 1, j, k); (i, j + 1, k); (i, j - 1, k);
              (i, j, k + 1); (i, j, k - 1)]
      (fun change nbr =>
         code ← getitem g nbr;
         if code =? 0 then
           t ← fgetitem tensor nbr;
           t0 ← fgetitem tensor (i, j, k);
           Ok (change + diffusion_rate * (t - t0))%R
         else Ok change)
      0%R;
  old ← fgetitem new_tensor (i, j, k);
  fsetitem new_tensor (i, j, k) (old + concentration_change)%R.

(** [a[dst, :, :] = a[src, :, :]] and its likes along the other axes:
    [cell i y z] is the cell with index [i] on the axis and [(y, z)] on the
    two others, of sizes [n1] and [n2]; the right-hand side is looked up
    first. *)
Definition copy_plane (n n1 n2 : Z) (cell : Z -> Z -> Z -> coord)
    (dst src : Z) (a : farray) : result farray :=
  i_src ← norm_index n src;
  i_dst ← norm_index n dst;
  for_each (y ← range n1; z ← range n2; [(y, z)])
    (fun a '(y, z) => v ← fgetitem a (cell i_src y z);
                      fsetitem a (cell i_dst y z) v)
    a.

(** One round of the outer loop of [diffuse]. *)
Definition diffuse_step (self : World) (diffusion_rate : R) (tensor : farray)
  : result farray :=
  let '(d0, d1, d2) := fshape tensor in
  new_tensor ←
    for_each (i ← range2 1 (width self - 1);
              j ← range2 1 (wlength self - 1);
              k ← range2 1 (height self - 1); [(i, j, k)])
      (diffuse_cell (grid self) tensor diffusion_rate) tensor;
  new_tensor ← copy_plane d0 d1 d2 (fun i y z => (i, y, z)) 0 1 new_tensor;
  new_tensor ← copy_plane d0 d1 d2 (fun i y z => (i, y, z)) (-1) (-2) new_tensor;
  new_tensor ← copy_plane d1 d0 d2 (fun i x z => (x, i, z)) 0 1 new_tensor;
  new_tensor ← copy_plane d1 d0 d2 (fun i x z => (x, i, z)) (-1) (-2) new_tensor;
  new_tensor ← copy_plane d2 d0 d1 (fun i x y => (x, y, i)) 0 1 new_tensor;
  copy_plane d2 d0 d1 (fun i x y => (x, y, i)) (-1) (-2) new_tensor.

(** [World.diffuse] *)
Definition diffuse (self : World) (tensor : farray) (diffusion_rate : R)
    (num_iterations : Z) : result farray :=
  for_each (range num_iterations)
    (fun tensor _ => diffuse_step self diffusion_rate tensor) tensor.

(** A float array whose cells all hold [c]. *)
Definition constant (sh : coord) (c : R) : farray :=
  {| fshape := sh;
     fdata := replicate (Z.to_nat (sh.1.1 * sh.1.2 * sh.2)) c |}.

(** * Properties *)

(** ** The error monad *)

Lemma bind_Ok {A B : Type} (r : result A) (k : A -> result B) (b : B) :
  (r ≫= k) = Ok b -> exists a, r = Ok a /\ k a = Ok b.
Proof. destruct r as [a|e]; simpl; [eauto | discriminate]. Qed.

Lemma bind_Raise {A B : Type} (r : result A) (k : A -> result B) e :
  r = Raise e -> (r ≫= k) = Raise e.
Proof. intros ->. reflexivity. Qed.

Ltac inv_bind H :=
  let a := fresh "a" in
  let Ha := fresh "Ha" in
  apply bind_Ok in H; destruct H as (a & Ha & H).

(** ** Array subscripts *)

Lemma norm_index_plain n i : 0 <= i < n -> norm_index n i = Ok i.
Proof.
  intros H. unfold norm_index.
  destruct (Z.leb_spec 0 i), (Z.ltb_spec i n); simpl; try lia. reflexivity.
Qed.

Lemma norm_index_wrap n i : - n <= i < 0 -> norm_index n i = Ok (n + i).
Proof.
  intros H. unfold norm_index.
  destruct (Z.leb_spec 0 i); simpl; try lia.
  destruct (Z.leb_spec (- n) i), (Z.ltb_spec i 0); simpl; try lia. reflexivity.
Qed.

Lemma norm_index_out n i : i < - n \/ n <= i -> norm_index n i = Raise IndexError.
Proof.
  intros H. unfold norm_index.
  destruct (Z.leb_spec 0 i), (Z.ltb_spec i n), (Z.leb_spec (- n) i),
    (Z.ltb_spec i 0); simpl; try lia; reflexivity.
Qed.

Lemma norm_index_Ok n i k : norm_index n i = Ok k -> 0 <= k < n.
Proof.
  unfold norm_index.
  destruct (Z.leb_spec 0 i), (Z.ltb_spec i n), (Z.leb_spec (- n) i),
    (Z.ltb_spec i 0); simpl; intros [= <-]; lia.
Qed.

Lemma offset_plain a x y z :
  in_bounds a (x, y, z) ->
  offset a (x, y, z) =
    Ok (Z.to_nat ((x * (shape a).1.2 + y) * (shape a).2 + z)).
Proof.
  unfold in_bounds, offset. destruct (shape a) as [[d0 d1] d2]; simpl.
  intros (Hx & Hy & Hz).
  rewrite !norm_index_plain by lia. reflexivity.
Qed.

Lemma norm_index_dom n i k : norm_index n i = Ok k -> - n <= i < n.
Proof.
  unfold norm_index.
  destruct (Z.leb_spec 0 i), (Z.ltb_spec i n), (Z.leb_spec (- n) i),
    (Z.ltb_spec i 0); simpl; intros [= <-]; lia.
Qed.

Lemma norm_index_Raise n i e : norm_index n i = Raise e -> e = IndexError.
Proof.
  unfold norm_index.
  destruct (_ && _); [discriminate |].
  destruct (_ && _); [discriminate |]. intros [= <-]. reflexivity.
Qed.

Lemma offset_Raise a p e : offset a p = Raise e -> e = IndexError.
Proof.
  unfold offset. destruct p as [[x y] z].
  destruct (shape a) as [[d0 d1] d2]; simpl.
  destruct (norm_index d0 x) eqn:Hx; simpl;
    [| intros [= <-]; eapply norm_index_Raise; eauto].
  destruct (norm_index d1 y) eqn:Hy; simpl;
    [| intros [= <-]; eapply norm_index_Raise; eauto].
  destruct (norm_index d2 z) eqn:Hz; simpl;
    [discriminate | intros [= <-]; eapply norm_index_Raise; eauto].
Qed.

Lemma offset_out a p : out_of_range a p -> offset a p = Raise IndexError.
Proof.
  intros H. destruct (offset a p) as [o | e] eqn:Ho.
  - exfalso. revert H Ho. unfold out_of_range, offset. destruct p as [[x y] z].
    destruct (shape a) as [[d0 d1] d2]; simpl. intros H Ho.
    inv_bind Ho. inv_bind Ho. inv_bind Ho.
    apply norm_index_dom in Ha, Ha0, Ha1. lia.
  - f_equal. eapply offset_Raise; eauto.
Qed.

Lemma offset_lt a p o :
  wf_ndarray a -> offset a p = Ok o -> (o < length (data a))%nat.
Proof.
  unfold wf_ndarray, offset. destruct p as [[x y] z].
  destruct (shape a) as [[d0 d1] d2]; simpl.
  intros (H0 & H1 & H2 & Hlen) H.
  inv_bind H. inv_bind H. inv_bind H. injection H as <-.
  apply norm_index_Ok in Ha, Ha0, Ha1. rewrite Hlen.
  assert (Hrow : a0 * d1 + a1 <= d0 * d1 - 1) by nia.
  assert (0 <= a0 * d1 + a1) by nia.
  assert ((a0 * d1 + a1) * d2 <= (d0 * d1 - 1) * d2) by nia.
  apply Z2Nat.inj_lt; nia.
Qed.

Lemma setitem_shape a p v a' : setitem a p v = Ok a' -> shape a' = shape a.
Proof.
  unfold setitem. intros H. inv_bind H.
  destruct (decide _); [| discriminate]. injection H as <-. reflexivity.
Qed.

Lemma setitem_offset a p v a' q :
  setitem a p v = Ok a' -> offset a' q = offset a q.
Proof.
  intros H. unfold offset. rewrite (setitem_shape _ _ _ _ H). reflexivity.
Qed.


Lemma setitem_defined a p v o :
  wf_ndarray a -> offset a p = Ok o ->
  setitem a p v = Ok {| shape := shape a; data := <[o := v]> (data a) |}.
Proof.
  intros Hwf Ho. unfold setitem. rewrite Ho. simpl.
  destruct (decide _) as [_ | Hn]; [reflexivity |].
  exfalso. apply Hn. eapply offset_lt; eauto.
Qed.

Lemma setitem_succeeds a p v :
  wf_ndarray a -> (exists o, offset a p = Ok o) ->
  exists a', setitem a p v = Ok a'.
Proof. intros Hwf [o Ho]. rewrite (setitem_defined _ _ _ _ Hwf Ho). eauto. Qed.

Lemma setitem_out a p v : out_of_range a p -> setitem a p v = Raise IndexError.
Proof. intros H. unfold setitem. rewrite (offset_out _ _ H). reflexivity. Qed.

Lemma getitem_out a p : out_of_range a p -> getitem a p = Raise IndexError.
Proof. intros H. unfold getitem. rewrite (offset_out _ _ H). reflexivity. Qed.

Lemma getitem_setitem_same a p v a' :
  setitem a p v = Ok a' -> getitem a' p = Ok v.
Proof.
  intros H. unfold getitem. rewrite (setitem_offset _ _ _ _ _ H).
  unfold setitem in H. inv_bind H. rewrite Ha. simpl.
  destruct (decide _) as [Hlt |]; [| discriminate]. injection H as <-. simpl.
  rewrite list_lookup_insert_eq by exact Hlt. reflexivity.
Qed.

Lemma getitem_setitem_other a p v a' q :
  setitem a p v = Ok a' -> offset a q <> offset a p ->
  getitem a' q = getitem a q.
Proof.
  intros H Hne. unfold getitem. rewrite (setitem_offset _ _ _ _ _ H).
  unfold setitem in H. inv_bind H. rewrite Ha in Hne.
  destruct (decide _) as [Hlt |]; [| discriminate]. injection H as <-. simpl.
  destruct (offset a q) as [o |]; simpl; [| reflexivity].
  rewrite list_lookup_insert_ne; [reflexivity | congruence].
Qed.

Lemma setitem_Raise a p v e : setitem a p v = Raise e -> e = IndexError.
Proof.
  unfold setitem. destruct (offset a p) as [o | e'] eqn:Ho; simpl.
  - destruct (decide _); [discriminate | intros [= <-]; reflexivity].
  - intros [= <-]. eapply offset_Raise; eauto.
Qed.

Lemma offset_wrap_z a x y z :
  - (shape a).2 <= z < 0 ->
  offset a (x, y, z) = offset a (x, y, (shape a).2 + z).
Proof.
  intros Hz. unfold offset. destruct (shape a) as [[d0 d1] d2]; simpl in *.
  rewrite (norm_index_wrap d2 z) by lia.
  rewrite (norm_index_plain d2 (d2 + z)) by lia. reflexivity.
Qed.

Lemma offset_wrap_y a x y z :
  - (shape a).1.2 <= y < 0 ->
  offset a (x, y, z) = offset a (x, (shape a).1.2 + y, z).
Proof.
  intros Hy. unfold offset. destruct (shape a) as [[d0 d1] d2]; simpl in *.
  rewrite (norm_index_wrap d1 y) by lia.
  rewrite (norm_index_plain d1 (d1 + y)) by lia. reflexivity.
Qed.

Lemma offset_wrap_x a x y z :
  - (shape a).1.1 <= x < 0 ->
  offset a (x, y, z) = offset a ((shape a).1.1 + x, y, z).
Proof.
  intros Hx. unfold offset. destruct (shape a) as [[d0 d1] d2]; simpl in *.
  rewrite (norm_index_wrap d0 x) by lia.
  rewrite (norm_index_plain d0 (d0 + x)) by lia. reflexivity.
Qed.

(** ** Agent methods *)

Lemma place_out self world :
  out_of_range (grid world) (pos self) -> place self world = Raise IndexError.
Proof. intros H. unfold place. rewrite (setitem_out _ _ _ H). reflexivity. Qed.

Lemma move_out_new self world new_pos :
  out_of_range (grid world) new_pos ->
  move self world new_pos = Raise IndexError.
Proof.
  intros H. unfold move.
  destruct (setitem (grid world) (pos self) 0) as [g | e] eqn:Hg; simpl.
  - apply place_out. simpl. unfold out_of_range in *.
    rewrite (setitem_shape _ _ _ _ Hg). exact H.
  - f_equal. eapply setitem_Raise; eauto.
Qed.

Lemma move_out_old self world new_pos :
  out_of_range (grid world) (pos self) ->
  move self world new_pos = Raise IndexError.
Proof. intros H. unfold move. rewrite (setitem_out _ _ _ H). reflexivity. Qed.

Lemma pickup_out self world :
  out_of_range (grid world) (pos self) -> pickup self world = Raise IndexError.
Proof.
  intros H. unfold pickup. destruct (pos self) as [[x y] z].
  destruct (setitem (grid world) (x, y, z - 1) 0) as [g | e] eqn:Hg; simpl.
  - rewrite setitem_out; [reflexivity |].
    unfold out_of_range in *. rewrite (setitem_shape _ _ _ _ Hg). exact H.
  - f_equal. eapply setitem_Raise; eauto.
Qed.

Lemma drop_out_old self world new_pos :
  out_of_range (grid world) (pos self) ->
  drop self world new_pos = Raise IndexError.
Proof. intros H. unfold drop. rewrite (setitem_out _ _ _ H). reflexivity. Qed.

Lemma drop_out_new self world new_pos :
  out_of_range (grid world) new_pos ->
  drop self world new_pos = Raise IndexError.
Proof.
  intros H. unfold drop.
  destruct (setitem (grid world) (pos self) 2) as [g | e] eqn:Hg; simpl.
  - apply place_out. simpl. unfold out_of_range in *.
    rewrite (setitem_shape _ _ _ _ Hg). exact H.
  - f_equal. eapply setitem_Raise; eauto.
Qed.




Lemma getitem_same_offset a p q :
  offset a p = offset a q -> getitem a p = getitem a q.
Proof. intros H. unfold getitem. rewrite H. reflexivity. Qed.

Lemma setitem_same_offset a p q v :
  offset a p = offset a q -> setitem a p v = setitem a q v.
Proof. intros H. unfold setitem. rewrite H. reflexivity. Qed.

Lemma pickup_algorithm_out lgd world x y z x_rand :
  out_of_range (grid world) (x, y, z - 1) ->
  pickup_algorithm lgd (x, y, z) world x_rand = Raise IndexError.
Proof.
  intros H. unfold pickup_algorithm. rewrite (getitem_out _ _ H). reflexivity.
Qed.

(** C7, as the code has it.  There is no bounds check of its own and no
    [BoundsError]: a grid access is a numpy subscript.  A coordinate with a
    component beyond its axis (at least the size, or below minus the size)
    makes the read, the write and the agent operations fail with
    [IndexError]; a negative component [c] with [- size <= c < 0] is not
    refused, it addresses the cell [size + c] of that axis. *)
Theorem grid_access_out_of_range (world : World) (self : Agent) :
  (forall p : coord,
     out_of_range (grid world) p ->
     getitem (grid world) p = Raise IndexError /\
     (forall v, setitem (grid world) p v = Raise IndexError) /\
     (pos self = p -> place self world = Raise IndexError) /\
     move self world p = Raise IndexError /\
     (pos self = p -> forall q, move self world q = Raise IndexError) /\
     (pos self = p -> pickup self world = Raise IndexError) /\
     drop self world p = Raise IndexError /\
     (pos self = p -> forall q, drop self world q = Raise IndexError) /\
     (forall lgd x_rand,
        pickup_algorithm lgd (p.1.1, p.1.2, p.2 + 1) world x_rand
        = Raise IndexError)) /\
  (forall x y z v,
     - (shape (grid world)).2 <= z < 0 ->
     getitem (grid world) (x, y, z)
       = getitem (grid world) (x, y, (shape (grid world)).2 + z) /\
     setitem (grid world) (x, y, z) v
       = setitem (grid world) (x, y, (shape (grid world)).2 + z) v) /\
  (forall x y z v,
     - (shape (grid world)).1.2 <= y < 0 ->
     getitem (grid world) (x, y, z)
       = getitem (grid world) (x, (shape (grid world)).1.2 + y, z) /\
     setitem (grid world) (x, y, z) v
       = setitem (grid world) (x, (shape (grid world)).1.2 + y, z) v) /\
  (forall x y z v,
     - (shape (grid world)).1.1 <= x < 0 ->
     getitem (grid world) (x, y, z)
       = getitem (grid world) ((shape (grid world)).1.1 + x, y, z) /\
     setitem (grid world) (x, y, z) v
       = setitem (grid world) ((shape (grid world)).1.1 + x, y, z) v).
Proof.
  split; [| split; [| split]].
  - intros p H. split; [apply getitem_out; exact H |].
    split; [intros v; apply setitem_out; exact H |].
    split; [intros <-; apply place_out; exact H |].
    split; [apply move_out_new; exact H |].
    split; [intros <- q; apply move_out_old; exact H |].
    split; [intros <-; apply pickup_out; exact H |].
    split; [apply drop_out_new; exact H |].
    split; [intros <- q; apply drop_out_old; exact H |].
    intros lgd x_rand. apply pickup_algorithm_out.
    destruct p as [[x y] z]. simpl.
    replace (z + 1 - 1) with z by lia. exact H.
  - intros x y z v Hz. pose proof (offset_wrap_z (grid world) x y z Hz).
    split; [apply getitem_same_offset | apply setitem_same_offset]; assumption.
  - intros x y z v Hy. pose proof (offset_wrap_y (grid world) x y z Hy).
    split; [apply getitem_same_offset | apply setitem_same_offset]; assumption.
  - intros x y z v Hx. pose proof (offset_wrap_x (grid world) x y z Hx).
    split; [apply getitem_same_offset | apply setitem_same_offset]; assumption.
Qed.

Lemma grid_access_out_of_range_witness :
  exists world,
    World_init 2 2 2 1 None = Ok world /\
    out_of_range (grid world) (0, 0, 2) /\
    move {| pos := (0, 0, 1); has_pellet := 0 |} world (0, 0, 2)
      = Raise IndexError /\
    getitem (grid world) (0, 0, -1) = getitem (grid world) (0, 0, 2 + -1).
Proof.
  eexists. split; [reflexivity |].
  match goal with
  | |- out_of_range (grid ?w) _ /\ move ?a _ _ = _ /\ _ =>
      pose proof (grid_access_out_of_range w a) as (Hout & Hz & _)
  end.
  assert (Hr : out_of_range
                 (full (2, 2, 2)
                    (fun '(_, _, z) =>
                       if z <? slice_stop 2 1 then Soil else Empty))
                 (0, 0, 2)).
  { unfold out_of_range; simpl. lia. }
  split; [exact Hr |]. split.
  - exact (proj1 (proj2 (proj2 (proj2 (Hout (0, 0, 2) Hr))))).
  - apply (Hz 0 0 (-1) 0). simpl. lia.
Defined.

(** C7, counterexample: on a 2 x 2 x 2 grid the coordinate [(-1, -1, -1)]
    is outside the bounds, yet moving an agent there raises nothing; the
    agent code lands in the cell [(1, 1, 1)]. *)
Lemma negative_coordinate_is_wrapped :
  exists world,
    World_init 2 2 2 1 None = Ok world /\
    ~ in_bounds (grid world) (-1, -1, -1) /\
    exists self' world',
      move {| pos := (0, 0, 1); has_pellet := 0 |} world (-1, -1, -1)
        = Ok (self', world') /\
      getitem (grid world') (1, 1, 1) = Ok AgentOccupied.
Proof.
  eexists. split; [reflexivity |]. split.
  - unfold in_bounds; simpl. lia.
  - eexists _, _. split; reflexivity.
Qed.

(** ** Ordered dictionaries *)

Lemma od_lookup_app {V : Type} (d d' : odict V) k :
  od_lookup (d ++ d') k =
    match od_lookup d k with
    | Some v => Some v
    | None => od_lookup d' k
    end.
Proof.
  induction d as [| [k' v'] d IH]; simpl; [reflexivity |].
  destruct (decide (k' = k)); [reflexivity | exact IH].
Qed.

Lemma od_lookup_update {V : Type} (d : odict V) k v k' :
  od_lookup (od_update d k v) k' =
    if decide (k = k') then (fun _ => v) <$> od_lookup d k
    else od_lookup d k'.
Proof.
  induction d as [| [k0 v0] d IH]; simpl.
  - destruct (decide (k = k')); reflexivity.
  - destruct (decide (k0 = k)) as [-> | Hne]; simpl.
    + destruct (decide (k = k')); reflexivity.
    + rewrite IH. destruct (decide (k = k')) as [<- | Hne'].
      * destruct (decide (k0 = k)); [contradiction | reflexivity].
      * destruct (decide (k0 = k')); reflexivity.
Qed.

Lemma od_lookup_set {V : Type} (d : odict V) k v k' :
  od_lookup (od_set d k v) k' =
    if decide (k = k') then Some v else od_lookup d k'.
Proof.
  unfold od_set. destruct (od_lookup d k) as [v0 |] eqn:Hk.
  - rewrite od_lookup_update, Hk. reflexivity.
  - rewrite od_lookup_app. simpl.
    destruct (decide (k = k')) as [<- | Hne].
    + rewrite Hk. reflexivity.
    + destruct (od_lookup d k'); reflexivity.
Qed.

Lemma od_get_None {V : Type} (d : odict V) k :
  od_lookup d k = None -> od_get d k = Raise KeyError.
Proof. unfold od_get. intros ->. reflexivity. Qed.

Lemma od_get_Some {V : Type} (d : odict V) k v :
  od_lookup d k = Some v -> od_get d k = Ok v.
Proof. unfold od_get. intros ->. reflexivity. Qed.

(** ** Surface: absent vertices *)

(** C6.  [remove_vertex] on a vertex that is not in the graph, and
    [add_edge] on a pair one of whose ends is not in the graph, do not
    return: the lookup of the missing key raises ([KeyError], the error the
    spec calls GraphConsistencyError), and nothing in the two methods
    catches it. *)
Theorem absent_vertex_raises (s : Surface) (v v1 v2 : vertex) :
  (absent s v -> remove_vertex s v = Raise KeyError) /\
  (absent s v1 \/ absent s v2 -> add_edge s (v1, v2) = Raise KeyError).
Proof.
  unfold absent. split.
  - intros H. unfold remove_vertex. rewrite (od_get_None _ _ H). reflexivity.
  - intros H. unfold add_edge.
    destruct (od_lookup (graph s) v1) as [l1 |] eqn:H1.
    + destruct H as [H | H]; [discriminate |].
      rewrite (od_get_Some _ _ _ H1). simpl.
      rewrite (od_get_None (od_set (graph s) v1 (l1 ++ [v2])) v2);
        [reflexivity |].
      rewrite od_lookup_set.
      destruct (decide (v1 = v2)) as [-> | Hne]; [congruence | exact H].
    + rewrite (od_get_None _ _ H1). reflexivity.
Qed.

Lemma absent_vertex_raises_witness :
  exists s,
    Surface_init [((0, 0, 0), [(0, 1, 0)]); ((0, 1, 0), [(0, 0, 0)])] = Ok s /\
    remove_vertex s (5, 5, 5) = Raise KeyError /\
    add_edge s ((0, 0, 0), (5, 5, 5)) = Raise KeyError.
Proof.
  eexists. split; [reflexivity |].
  match goal with
  | |- remove_vertex ?s _ = _ /\ _ =>
      pose proof (absent_vertex_raises s (5, 5, 5) (0, 0, 0) (5, 5, 5))
        as [Hr Ha]
  end.
  split.
  - apply Hr. reflexivity.
  - apply Ha. right. reflexivity.
Defined.

(** ** Surface: the stationary distribution *)

Lemma Qeq_bool_double_pos (q : Q) : (0 < q)%Q -> Qeq_bool (2 * q) 0 = false.
Proof.
  intros H. destruct (Qeq_bool (2 * q) 0) eqn:E; [| reflexivity].
  apply Qeq_bool_eq in E. exfalso.
  assert (0 < 2 * q)%Q by (apply Qmult_lt_0_compat; [reflexivity | exact H]).
  rewrite E in H0. revert H0. apply Qlt_irrefl.
Qed.

Lemma Qeq_bool_double_zero (q : Q) : (q == 0)%Q -> Qeq_bool (2 * q) 0 = true.
Proof.
  intros H. apply Qeq_eq_bool. rewrite H. reflexivity.
Qed.

(** C4, as the code has it.  With [num_edges > 0] the call returns, in the
    order of the degree dictionary, [degree(v) / (2 * num_edges)] for each
    vertex.  With [num_edges == 0] it does not fail: numpy divides by zero
    element by element, so the call returns [nan] for a vertex of degree
    0 and an infinity for any other. *)
Theorem stationary_distribution_value (s : Surface) :
  ((0 < num_edges s)%Q ->
   get_rw_stationary_distribution s =
     Ok (map (fun d => Finite (inject_Z d / (2 * num_edges s))%Q)
             (od_values (degrees s)))) /\
  ((num_edges s == 0)%Q ->
   get_rw_stationary_distribution s =
     Ok (map (fun d => if d =? 0 then NaN
                       else if 0 <? d then PosInf else NegInf)
             (od_values (degrees s)))).
Proof.
  unfold get_rw_stationary_distribution, np_true_divide. split; intros H.
  - rewrite (Qeq_bool_double_pos _ H). reflexivity.
  - rewrite (Qeq_bool_double_zero _ H). reflexivity.
Qed.

Lemma stationary_distribution_value_witness :
  exists s,
    Surface_init [((0, 0, 0), [(0, 1, 0)]); ((0, 1, 0), [(0, 0, 0)])] = Ok s /\
    get_rw_stationary_distribution s =
      Ok (map (fun d => Finite (inject_Z d / (2 * num_edges s))%Q)
              (od_values (degrees s))).
Proof.
  eexists. split; [reflexivity |].
  match goal with
  | |- get_rw_stationary_distribution ?s = _ =>
      apply (proj1 (stationary_distribution_value s))
  end.
  reflexivity.
Defined.

(** C4, counterexample: the graph with the single vertex [(0, 0, 0)] and no
    edge has [num_edges == 0], and the call returns the array [[nan]]
    instead of failing. *)
Lemma stationary_distribution_no_error :
  exists s,
    Surface_init [((0, 0, 0), [])] = Ok s /\
    (num_edges s == 0)%Q /\
    get_rw_stationary_distribution s = Ok [NaN] /\
    ~ raises (get_rw_stationary_distribution s).
Proof.
  eexists. split; [reflexivity |]. split; [reflexivity |].
  split; [reflexivity |]. intros [e He]. discriminate He.
Qed.

(** ** The drop probability *)

Section DropProbability.

Variable skewnorm_cdf : R -> R -> R -> R -> R.

Lemma range_lookup (n : Z) (k : nat) :
  (k < Z.to_nat n)%nat -> range n !! k = Some (Z.of_nat k).
Proof.
  intros H. unfold range. rewrite list_lookup_fmap.
  rewrite lookup_seq_lt by exact H. reflexivity.
Qed.

Lemma range_length (n : Z) : length (range n) = Z.to_nat n.
Proof. unfold range. rewrite length_map, length_seq. reflexivity. Qed.

Lemma mod_list_length : length (mod_list skewnorm_cdf) = 200%nat.
Proof. unfold mod_list. rewrite length_map, range_length. reflexivity. Qed.

Lemma mod_list_lookup (k : Z) :
  0 <= k <= 199 ->
  (mod_list skewnorm_cdf) !! Z.to_nat k = Some (skewnorm_cdf (IZR k / 2) 8.582 2.866 3.727)%R.
Proof.
  intros H. unfold mod_list. rewrite list_lookup_fmap.
  rewrite range_lookup by lia. simpl. rewrite Z2Nat.id by lia. reflexivity.
Qed.

Lemma getitem1_mod_list (h : Z) (f : R) :
  0 < h -> (mod_list skewnorm_cdf) !! Z.to_nat h = Some f -> getitem1 (mod_list skewnorm_cdf) h = Ok f.
Proof.
  intros Hh Hf. pose proof (lookup_lt_Some _ _ _ Hf) as Hlt.
  rewrite mod_list_length in Hlt.
  unfold getitem1. rewrite mod_list_length.
  rewrite norm_index_plain by lia. simpl. rewrite Hf. reflexivity.
Qed.

Lemma eta_d_pos (N : Z) : N <> 0 -> eta_d N = (0.025 + 0.11 * IZR N)%R.
Proof.
  intros H. unfold eta_d. destruct (Z.eqb_spec N 0); [contradiction | reflexivity].
Qed.

Lemma prob_drop_unfold (N t_now t_latest : Z) (decay_rate : R) (h : Z) :
  N <> 0 ->
  prob_drop skewnorm_cdf N t_now t_latest decay_rate h =
    let prob :=
      (1 - exp (- (0.025 + 0.11 * IZR N)
                * exp (- (IZR t_now - IZR t_latest) * decay_rate)))%R in
    if 0 <? h then f ← getitem1 (mod_list skewnorm_cdf) h; Ok (prob * f)%R else Ok prob.
Proof.
  intros H. unfold prob_drop.
  destruct (Z.eqb_spec N 0); [contradiction |].
  rewrite (eta_d_pos _ H), minus_IZR. reflexivity.
Qed.

(** C3.  [prob_drop] returns exactly 0.025 when [N = 0], whatever the other
    arguments are.  When [N > 0] it returns
    [1 - e^(-(0.025 + 0.11 N) e^(-(t_now - t_latest) decay_rate))]: as it is
    when [h = 0], and multiplied by the entry [f] of the height table at [h]
    when [h > 0].  (Floats are read as real numbers.) *)
Theorem prob_drop_value (N t_now t_latest : Z) (decay_rate : R) (h : Z) :
  prob_drop skewnorm_cdf 0 t_now t_latest decay_rate h = Ok 0.025%R /\
  (0 < N -> h = 0 ->
   prob_drop skewnorm_cdf N t_now t_latest decay_rate h =
     Ok (1 - exp (- (0.025 + 0.11 * IZR N)
                  * exp (- (IZR t_now - IZR t_latest) * decay_rate)))%R) /\
  (0 < N -> 0 < h ->
   forall f : R,
     (mod_list skewnorm_cdf) !! Z.to_nat h = Some f ->
     prob_drop skewnorm_cdf N t_now t_latest decay_rate h =
       Ok ((1 - exp (- (0.025 + 0.11 * IZR N)
                     * exp (- (IZR t_now - IZR t_latest) * decay_rate)))
           * f)%R).
Proof.
  split; [reflexivity |]. split.
  - intros HN ->. rewrite prob_drop_unfold by lia. reflexivity.
  - intros HN Hh f Hf. rewrite prob_drop_unfold by lia. simpl.
    destruct (Z.ltb_spec 0 h); [| lia].
    rewrite (getitem1_mod_list _ _ Hh Hf). reflexivity.
Qed.

(** C10.  The height table has exactly 200 entries, the one at [k] being
    the skew normal cdf at [k / 2]; with [N > 0], a height [1 <= h <= 199]
    multiplies the probability by the entry at [h], and a height
    [h >= 200] makes the call fail with [IndexError]: the index is not cut
    down to the last entry. *)
Theorem height_table_lookup (N t_now t_latest : Z) (decay_rate : R) (h : Z) :
  length (mod_list skewnorm_cdf) = 200%nat /\
  (forall k : Z,
     0 <= k <= 199 ->
     (mod_list skewnorm_cdf) !! Z.to_nat k
       = Some (skewnorm_cdf (IZR k / 2) 8.582 2.866 3.727)%R) /\
  (0 < N -> 1 <= h <= 199 ->
   prob_drop skewnorm_cdf N t_now t_latest decay_rate h =
     Ok ((1 - exp (- (0.025 + 0.11 * IZR N)
                   * exp (- (IZR t_now - IZR t_latest) * decay_rate)))
         * skewnorm_cdf (IZR h / 2) 8.582 2.866 3.727)%R) /\
  (0 < N -> 200 <= h ->
   prob_drop skewnorm_cdf N t_now t_latest decay_rate h = Raise IndexError).
Proof.
  split; [apply mod_list_length |]. split; [apply mod_list_lookup |]. split.
  - intros HN Hh. rewrite prob_drop_unfold by lia. simpl.
    destruct (Z.ltb_spec 0 h); [| lia].
    rewrite (getitem1_mod_list h _ ltac:(lia) (mod_list_lookup h ltac:(lia))).
    reflexivity.
  - intros HN Hh. rewrite prob_drop_unfold by lia. simpl.
    destruct (Z.ltb_spec 0 h); [| lia].
    unfold getitem1. rewrite mod_list_length.
    rewrite norm_index_out by lia. reflexivity.
Qed.

End DropProbability.

Lemma prob_drop_value_witness :
  prob_drop (fun x _ _ _ => x) 3 10 4 1%R 0 =
    Ok (1 - exp (- (0.025 + 0.11 * IZR 3) * exp (- (IZR 10 - IZR 4) * 1)))%R /\
  prob_drop (fun x _ _ _ => x) 3 10 4 1%R 2 =
    Ok ((1 - exp (- (0.025 + 0.11 * IZR 3) * exp (- (IZR 10 - IZR 4) * 1)))
        * (IZR 2 / 2))%R.
Proof.
  pose proof (prob_drop_value (fun x _ _ _ => x) 3 10 4 1%R 0) as (_ & H0 & _).
  pose proof (prob_drop_value (fun x _ _ _ => x) 3 10 4 1%R 2) as (_ & _ & H2).
  split.
  - apply H0; [lia | reflexivity].
  - apply H2; [lia | lia |]. reflexivity.
Defined.

Lemma height_table_lookup_witness :
  prob_drop (fun x _ _ _ => x) 3 10 4 1%R 199 =
    Ok ((1 - exp (- (0.025 + 0.11 * IZR 3) * exp (- (IZR 10 - IZR 4) * 1)))
        * (IZR 199 / 2))%R /\
  prob_drop (fun x _ _ _ => x) 3 10 4 1%R 200 = Raise IndexError.
Proof.
  pose proof (height_table_lookup (fun x _ _ _ => x) 3 10 4 1%R 199)
    as (_ & _ & H199 & _).
  pose proof (height_table_lookup (fun x _ _ _ => x) 3 10 4 1%R 200)
    as (_ & _ & _ & H200).
  split.
  - apply H199; lia.
  - apply H200; lia.
Defined.

(** ** Reads of the grid and of the time tensor *)

Lemma getitem_defined (a : ndarray) (p : coord) (o : nat) :
  wf_ndarray a -> offset a p = Ok o -> exists v, getitem a p = Ok v.
Proof.
  intros Hwf Ho. pose proof (offset_lt _ _ _ Hwf Ho) as Hlt.
  unfold getitem. rewrite Ho. simpl.
  destruct (lookup_lt_is_Some_2 (data a) o Hlt) as [v Hv].
  rewrite Hv. eauto.
Qed.

Lemma getitem_in_bounds (a : ndarray) (p : coord) :
  wf_ndarray a -> in_bounds a p -> exists v, getitem a p = Ok v.
Proof.
  intros Hwf Hin. destruct p as [[x y] z].
  apply (getitem_defined a _ _ Hwf (offset_plain a x y z Hin)).
Qed.

(** The cell that [pickup_algorithm] reads below an agent in bounds exists:
    for [z = 0] the index [-1] is the top layer. *)
Lemma below_readable (a : ndarray) (x y z : Z) :
  wf_ndarray a -> in_bounds a (x, y, z) ->
  exists below, getitem a (x, y, z - 1) = Ok below.
Proof.
  intros Hwf Hin. destruct (Z.eq_dec z 0) as [-> | Hz].
  - unfold in_bounds in Hin. simpl in Hin.
    assert (Hw : offset a (x, y, 0 - 1) = offset a (x, y, (shape a).2 + (0 - 1))).
    { apply offset_wrap_z. lia. }
    destruct (getitem_in_bounds a (x, y, (shape a).2 + (0 - 1)) Hwf)
      as [v Hv]; [unfold in_bounds; simpl; lia |].
    exists v. rewrite <- Hv. apply getitem_same_offset. exact Hw.
  - apply getitem_in_bounds; [exact Hwf |].
    unfold in_bounds in *. simpl in *. lia.
Qed.

Lemma mapM_getitem_defined (a : ndarray) (ps : list coord) :
  wf_ndarray a -> Forall (in_bounds a) ps ->
  exists vs, mapM (getitem a) ps = Ok vs /\ length vs = length ps.
Proof.
  intros Hwf. induction 1 as [| p ps Hp _ IH].
  - exists []. split; reflexivity.
  - destruct (getitem_in_bounds a p Hwf Hp) as [v Hv].
    destruct IH as (vs & Hvs & Hlen).
    exists (v :: vs). split; [| simpl; rewrite Hlen; reflexivity].
    simpl. rewrite Hv. simpl. rewrite Hvs. reflexivity.
Qed.

Lemma elem_of_range (n k : Z) : k ∈ range n <-> 0 <= k < n.
Proof.
  unfold range. rewrite list_elem_of_fmap. split.
  - intros (i & -> & Hi). apply elem_of_seq in Hi. lia.
  - intros Hk. exists (Z.to_nat k). split; [lia |]. apply elem_of_seq. lia.
Qed.

Lemma elem_of_slice (n start stop k : Z) :
  k ∈ slice n start stop <->
  slice_stop n start <= k < slice_stop n stop.
Proof.
  unfold slice. rewrite list_elem_of_fmap. split.
  - intros (i & -> & Hi). apply elem_of_range in Hi. lia.
  - intros Hk. exists (k - slice_stop n start). split; [lia |].
    apply elem_of_range. lia.
Qed.

Lemma slice_around (n c k : Z) :
  0 <= n ->
  (k ∈ slice n (Z.max 0 (c - 1)) (c + 2) -> 0 <= k < n) /\
  (0 <= c < n -> c ∈ slice n (Z.max 0 (c - 1)) (c + 2)).
Proof.
  intros Hn. rewrite !elem_of_slice. unfold slice_stop.
  destruct (Z.ltb_spec (Z.max 0 (c - 1)) 0), (Z.ltb_spec (c + 2) 0); lia.
Qed.

(** [t_latest] exists for a position in bounds: the block around it is cut
    at the border and holds the position itself. *)
Lemma latest_time_defined (pos : coord) (world : World) :
  wf_ndarray (times world) -> in_bounds (times world) pos ->
  exists t, latest_time pos world = Ok t.
Proof.
  intros Hwf Hin. destruct pos as [[x y] z]. unfold latest_time, getslice.
  pose proof Hwf as (H0 & H1 & H2 & _).
  unfold in_bounds in Hin. simpl in Hin.
  destruct (shape (times world)) as [[d0 d1] d2] eqn:Hsh. simpl in *.
  set (ps := x0 ← slice d0 (Z.max 0 (x - 1)) (x + 2);
             y0 ← slice d1 (Z.max 0 (y - 1)) (y + 2);
             z0 ← slice d2 (Z.max 0 (z - 1)) (z + 2); [(x0, y0, z0)]).
  assert (Hall : Forall (in_bounds (times world)) ps).
  { apply Forall_forall. intros p Hp. subst ps.
    apply list_elem_of_bind in Hp as (x0 & Hp & Hx0).
    apply list_elem_of_bind in Hp as (y0 & Hp & Hy0).
    apply list_elem_of_bind in Hp as (z0 & Hp & Hz0).
    apply list_elem_of_singleton in Hp as ->.
    unfold in_bounds. rewrite Hsh. simpl.
    pose proof (proj1 (slice_around d0 x x0 H0) Hx0).
    pose proof (proj1 (slice_around d1 y y0 H1) Hy0).
    pose proof (proj1 (slice_around d2 z z0 H2) Hz0). lia. }
  assert (Hmem : (x, y, z) ∈ ps).
  { subst ps. apply list_elem_of_bind. exists x.
    split; [| apply (slice_around d0 x x H0); lia].
    apply list_elem_of_bind. exists y.
    split; [| apply (slice_around d1 y y H1); lia].
    apply list_elem_of_bind. exists z.
    split; [| apply (slice_around d2 z z H2); lia].
    apply list_elem_of_singleton. reflexivity. }
  destruct (mapM_getitem_defined _ ps Hwf Hall) as (vs & Hvs & Hlen).
  rewrite Hvs. simpl. destruct vs as [| v vs].
  - destruct ps; [inversion Hmem | discriminate Hlen].
  - simpl. eauto.
Qed.

(** ** Rejected pickups and drops *)

Section Rejection.

Variable skewnorm_cdf : R -> R -> R -> R -> R.
Variable local_grid_data : coord -> World -> result (list Z).
Variable move_tag : Type.
Variable valid_moves : list Z -> list (move_tag * coord).
Variable compute_height : coord -> World -> result Z.

(** C5.  A pickup or a drop that does not take place returns [None] and the
    world it was given, grid and time tensor included, and raises nothing:
    for [pickup_algorithm] when the cell below holds no material
    ([below <= 0]) or when the draw is not below [prob_pickup]; for
    [drop_algorithm] when there is no candidate move or when the draw is
    not below [prob_drop].  For a position in bounds the reads these
    branches depend on (the cell below, the latest time around) return. *)
Theorem rejection_is_no_op (pos : coord) (world : World) (step : Z)
    (decay_rate x_rand : R) :
  (forall below : Z,
     getitem (grid world) (pos.1.1, pos.1.2, pos.2 - 1) = Ok below ->
     below <= 0 ->
     pickup_algorithm local_grid_data pos world x_rand = Ok (None, world)) /\
  (forall (below : Z) (v26 : list Z),
     getitem (grid world) (pos.1.1, pos.1.2, pos.2 - 1) = Ok below ->
     local_grid_data pos world = Ok v26 ->
     ~ (x_rand < prob_pickup (np_sum_eq v26 2))%R ->
     pickup_algorithm local_grid_data pos world x_rand = Ok (None, world)) /\
  (forall v26 : list Z,
     local_grid_data pos world = Ok v26 ->
     valid_moves v26 = [] ->
     drop_algorithm skewnorm_cdf local_grid_data move_tag valid_moves
       compute_height pos world step decay_rate x_rand
     = mret (None, world)) /\
  (forall (v26 : list Z) (t_latest h : Z) (prob : R),
     local_grid_data pos world = Ok v26 ->
     latest_time pos world = Ok t_latest ->
     compute_height pos world = Ok h ->
     prob_drop skewnorm_cdf (np_sum_eq v26 2) step t_latest decay_rate h
       = Ok prob ->
     ~ (x_rand < prob)%R ->
     drop_algorithm skewnorm_cdf local_grid_data move_tag valid_moves
       compute_height pos world step decay_rate x_rand
     = mret (None, world)) /\
  (wf_ndarray (grid world) -> in_bounds (grid world) pos ->
   exists below : Z,
     getitem (grid world) (pos.1.1, pos.1.2, pos.2 - 1) = Ok below) /\
  (wf_ndarray (times world) -> in_bounds (times world) pos ->
   exists t_latest : Z, latest_time pos world = Ok t_latest).
Proof.
  destruct pos as [[x y] z]. simpl.
  split; [| split; [| split; [| split; [| split]]]].
  - intros below Hb Hle. unfold pickup_algorithm. rewrite Hb. simpl.
    destruct (Z.ltb_spec 0 below); [lia | reflexivity].
  - intros below v26 Hb Hv Hx. unfold pickup_algorithm. rewrite Hb. simpl.
    destruct (Z.ltb_spec 0 below); [| reflexivity].
    rewrite Hv. simpl.
    destruct (Rlt_dec _ _); [contradiction | reflexivity].
  - intros v26 Hv Hm. unfold drop_algorithm. rewrite Hv.
    unfold mbind, rand_bind, lift. simpl. rewrite Hm. reflexivity.
  - intros v26 t_latest h prob Hv Ht Hh Hp Hx. unfold drop_algorithm.
    rewrite Hv, Hh, Ht.
    unfold mbind, rand_bind, lift. simpl.
    destruct (decide _); [| reflexivity]. simpl. rewrite Hp. simpl.
    destruct (Rlt_dec _ _); [contradiction | reflexivity].
  - apply below_readable.
  - apply latest_time_defined.
Qed.

End Rejection.

Lemma prob_pickup_lt_1 (N : Z) : (prob_pickup N < 1)%R.
Proof. unfold prob_pickup. pose proof (exp_pos (- eta_p N)). lra. Qed.

Lemma rejection_is_no_op_witness :
  exists world,
    World_init 2 2 3 1 None = Ok world /\
    pickup_algorithm (fun _ _ => Ok [0; 2]) (0, 0, 2) world 0%R
      = Ok (None, world) /\
    pickup_algorithm (fun _ _ => Ok [0; 2]) (0, 0, 1) world 1%R
      = Ok (None, world) /\
    drop_algorithm (fun x _ _ _ => x) (fun _ _ => Ok [0; 2]) Z (fun _ => [])
      (fun _ _ => Ok 0) (0, 0, 1) world 7 1%R 0%R
      = mret (None, world) /\
    drop_algorithm (fun x _ _ _ => x) (fun _ _ => Ok [0; 0])
      Z (fun _ => [(0, (1, 0, 0))])
      (fun _ _ => Ok 0) (0, 0, 1) world 7 1%R 1%R
      = mret (None, world).
Proof.
  eexists. split; [reflexivity |].
  match goal with
  | |- pickup_algorithm _ _ ?w _ = _ /\ _ =>
      pose proof (rejection_is_no_op (fun x _ _ _ => x) (fun _ _ => Ok [0; 2])
                    Z (fun _ => []) (fun _ _ => Ok 0) (0, 0, 2) w 7 1%R 0%R)
        as (H1 & _);
      pose proof (rejection_is_no_op (fun x _ _ _ => x) (fun _ _ => Ok [0; 2])
                    Z (fun _ => []) (fun _ _ => Ok 0) (0, 0, 1) w 7 1%R 1%R)
        as (_ & H2 & _);
      pose proof (rejection_is_no_op (fun x _ _ _ => x) (fun _ _ => Ok [0; 2])
                    Z (fun _ => []) (fun _ _ => Ok 0) (0, 0, 1) w 7 1%R 0%R)
        as (_ & _ & H3 & _);
      pose proof (rejection_is_no_op (fun x _ _ _ => x) (fun _ _ => Ok [0; 0])
                    Z (fun _ => [(0, (1, 0, 0))]) (fun _ _ => Ok 0)
                    (0, 0, 1) w 7 1%R 1%R)
        as (_ & _ & _ & H4 & _)
  end.
  split; [| split; [| split]].
  - apply (H1 0); [reflexivity | lia].
  - apply (H2 1 [0; 2]); [reflexivity | reflexivity |].
    pose proof (prob_pickup_lt_1 (np_sum_eq [0; 2] 2)). lra.
  - apply (H3 [0; 2]); reflexivity.
  - apply (H4 [0; 0] (-10 ^ 9) 0 0.025%R); try reflexivity. lra.
Defined.

(** ** Surface: the invariants under [add_edge] and [remove_vertex] *)

Lemma od_keys_update {V : Type} (d : odict V) k v :
  od_keys (od_update d k v) = od_keys d.
Proof.
  induction d as [| [k0 v0] d IH]; simpl; [reflexivity |].
  destruct (decide (k0 = k)); simpl; [reflexivity | f_equal; exact IH].
Qed.

Lemma od_keys_set_present {V : Type} (d : odict V) k v :
  is_Some (od_lookup d k) -> od_keys (od_set d k v) = od_keys d.
Proof.
  intros [v0 H]. unfold od_set. rewrite H. apply od_keys_update.
Qed.

Lemma od_lookup_None {V : Type} (d : odict V) k :
  od_lookup d k = None <-> k ∉ od_keys d.
Proof.
  induction d as [| [k0 v0] d IH]; simpl.
  - split; [intros _; apply not_elem_of_nil | reflexivity].
  - rewrite not_elem_of_cons. destruct (decide (k0 = k)) as [-> | Hne].
    + split; [discriminate | intros [H _]; contradiction].
    + rewrite IH. split; [intros H; split; [congruence | exact H] | tauto].
Qed.

Lemma od_lookup_Some_keys {V : Type} (d : odict V) k v :
  od_lookup d k = Some v -> k ∈ od_keys d.
Proof.
  intros H. destruct (decide (k ∈ od_keys d)) as [Hin | Hn]; [exact Hin |].
  apply od_lookup_None in Hn. congruence.
Qed.

Lemma od_lookup_remove {V : Type} (d : odict V) k k' :
  NoDup (od_keys d) ->
  od_lookup (od_remove d k) k' =
    if decide (k = k') then None else od_lookup d k'.
Proof.
  induction d as [| [k0 v0] d IH]; simpl; intros Hnd.
  - destruct (decide (k = k')); reflexivity.
  - apply NoDup_cons in Hnd as [Hk0 Hnd].
    destruct (decide (k0 = k)) as [-> | Hne].
    + destruct (decide (k = k')) as [<- | Hne'].
      * apply od_lookup_None. exact Hk0.
      * reflexivity.
    + simpl. rewrite (IH Hnd).
      destruct (decide (k0 = k')) as [<- | Hne'].
      * destruct (decide (k = k0)); [congruence | reflexivity].
      * reflexivity.
Qed.

Lemma od_keys_remove_sub {V : Type} (d : odict V) k x :
  x ∈ od_keys (od_remove d k) -> x ∈ od_keys d.
Proof.
  induction d as [| [k0 v0] d IH]; simpl; [tauto |].
  destruct (decide (k0 = k)); simpl.
  - intros H. apply elem_of_cons. right. exact H.
  - rewrite !elem_of_cons. intros [H | H]; [left; exact H | right; auto].
Qed.

Lemma od_remove_NoDup {V : Type} (d : odict V) k :
  NoDup (od_keys d) -> NoDup (od_keys (od_remove d k)).
Proof.
  induction d as [| [k0 v0] d IH]; simpl; intros Hnd; [exact Hnd |].
  apply NoDup_cons in Hnd as [Hk0 Hnd].
  destruct (decide (k0 = k)); simpl; [exact Hnd |].
  apply NoDup_cons. split; [| auto].
  intros H. apply Hk0. eapply od_keys_remove_sub; eauto.
Qed.

Lemma od_keys_remove_eq {V W : Type} (d1 : odict V) (d2 : odict W) k :
  od_keys d1 = od_keys d2 ->
  od_keys (od_remove d1 k) = od_keys (od_remove d2 k).
Proof.
  revert d2. induction d1 as [| [k1 v1] d1 IH]; intros [| [k2 v2] d2]; simpl;
    try discriminate; [reflexivity |].
  intros [= <- H]. destruct (decide (k1 = k)); simpl; [exact H |].
  f_equal. apply IH. exact H.
Qed.

Lemma od_sum_update (d : odict Z) k old v :
  od_lookup d k = Some old -> od_sum (od_update d k v) = od_sum d - old + v.
Proof.
  unfold od_sum. induction d as [| [k0 v0] d IH]; simpl; [discriminate |].
  destruct (decide (k0 = k)); simpl.
  - intros [= ->]. lia.
  - intros H. rewrite (IH H). lia.
Qed.

Lemma od_sum_set (d : odict Z) k old v :
  od_lookup d k = Some old -> od_sum (od_set d k v) = od_sum d - old + v.
Proof.
  intros H. unfold od_set. rewrite H. apply od_sum_update. exact H.
Qed.

Lemma od_sum_remove (d : odict Z) k old :
  od_lookup d k = Some old -> od_sum (od_remove d k) = od_sum d - old.
Proof.
  unfold od_sum. induction d as [| [k0 v0] d IH]; simpl; [discriminate |].
  destruct (decide (k0 = k)); simpl.
  - intros [= ->]. lia.
  - intros H. rewrite (IH H). lia.
Qed.

Lemma occurrences_app x l1 l2 :
  occurrences x (l1 ++ l2) = (occurrences x l1 + occurrences x l2)%nat.
Proof. induction l1 as [| y l1 IH]; simpl; [reflexivity | rewrite IH; lia]. Qed.

Lemma occurrences_zero x l : occurrences x l = 0%nat <-> x ∉ l.
Proof.
  induction l as [| y l IH]; simpl.
  - split; [intros _; apply not_elem_of_nil | reflexivity].
  - rewrite not_elem_of_cons. destruct (decide (y = x)) as [-> | Hne].
    + split; [discriminate | intros [H _]; contradiction].
    + simpl. rewrite IH. split; [intros H; split; [congruence | exact H] | tauto].
Qed.

Lemma occurrences_pos x l : (0 < occurrences x l)%nat <-> x ∈ l.
Proof.
  destruct (decide (x ∈ l)) as [Hin | Hn].
  - split; [intros _; exact Hin |]. intros _.
    destruct (occurrences x l) eqn:E; [| lia].
    apply occurrences_zero in E. contradiction.
  - pose proof (proj2 (occurrences_zero x l) Hn). split; [lia | contradiction].
Qed.

Lemma list_remove_split x l1 l2 :
  x ∉ l1 -> list_remove x (l1 ++ x :: l2) = Ok (l1 ++ l2).
Proof.
  induction l1 as [| y l1 IH]; simpl; intros Hn.
  - destruct (decide (x = x)); [reflexivity | contradiction].
  - apply not_elem_of_cons in Hn as [Hne Hn].
    destruct (decide (y = x)); [congruence |].
    rewrite (IH Hn). reflexivity.
Qed.

Lemma list_remove_Ok x l :
  x ∈ l -> exists l1 l2, l = l1 ++ x :: l2 /\ (x ∉ l1) /\
                         list_remove x l = Ok (l1 ++ l2).
Proof.
  induction l as [| y l IH]; intros Hin; [inversion Hin |].
  destruct (decide (y = x)) as [-> | Hne].
  - exists [], l. split; [reflexivity |]. split; [apply not_elem_of_nil |].
    simpl. destruct (decide (x = x)); [reflexivity | contradiction].
  - apply elem_of_cons in Hin as [-> | Hin]; [contradiction |].
    destruct (IH Hin) as (l1 & l2 & -> & Hn & Hr).
    exists (y :: l1), l2. split; [reflexivity |].
    split; [apply not_elem_of_cons; split; [congruence | exact Hn] |].
    apply (list_remove_split x (y :: l1) l2).
    apply not_elem_of_cons; split; [congruence | exact Hn].
Qed.

(** *** [Surface.__init__] *)

Lemma od_lookup_app_fresh {V : Type} (d1 d2 : odict V) k v :
  k ∉ od_keys d1 -> od_lookup (d1 ++ (k, v) :: d2) k = Some v.
Proof.
  intros H. rewrite od_lookup_app.
  rewrite (proj2 (od_lookup_None d1 k) H). simpl.
  destruct (decide (k = k)); [reflexivity | contradiction].
Qed.

Lemma Surface_init_fold (seed done rest : odict (list vertex)) (q0 : Q) :
  seed = done ++ rest ->
  NoDup (od_keys seed) ->
  fold_left (fun acc v => s ← acc; Surface_init_step s v) (od_keys rest)
    (Ok {| graph := seed;
           degrees := map (fun kv => (kv.1, Z.of_nat (length kv.2))) done;
           num_edges := q0 |})
  = Ok {| graph := seed;
          degrees := map (fun kv => (kv.1, Z.of_nat (length kv.2))) seed;
          num_edges :=
            fold_left (fun q l => (q + inject_Z (Z.of_nat (length l)) / 2)%Q)
                      (od_values rest) q0 |}.
Proof.
  revert done q0. induction rest as [| [k l] rest IH]; intros done q0 Hs Hnd.
  - simpl. rewrite app_nil_r in Hs. subst. reflexivity.
  - assert (Hk : k ∉ od_keys done).
    { subst seed. unfold od_keys in Hnd. rewrite map_app in Hnd. simpl in Hnd.
      apply NoDup_app in Hnd as (_ & Hd & _). intros Hin.
      apply (Hd k Hin). apply elem_of_cons. left. reflexivity. }
    simpl. unfold Surface_init_step at 2. simpl.
    assert (Hget : od_get seed k = Ok l).
    { apply od_get_Some. subst seed. apply od_lookup_app_fresh. exact Hk. }
    rewrite Hget. simpl.
    assert (Hset : od_set (map (fun kv : vertex * list vertex =>
                                  (kv.1, Z.of_nat (length kv.2))) done)
                     k (Z.of_nat (length l))
                   = map (fun kv : vertex * list vertex =>
                            (kv.1, Z.of_nat (length kv.2))) (done ++ [(k, l)])).
    { unfold od_set.
      assert (Hn : od_lookup (map (fun kv : vertex * list vertex =>
                                     (kv.1, Z.of_nat (length kv.2))) done) k
                   = None).
      { apply od_lookup_None. unfold od_keys. rewrite map_map. simpl.
        exact Hk. }
      rewrite Hn. rewrite map_app. reflexivity. }
    rewrite Hset. apply IH; [| exact Hnd].
    subst seed. rewrite <- app_assoc. reflexivity.
Qed.

Lemma fold_half_sum (ls : list (list vertex)) (q0 : Q) :
  (fold_left (fun q l => q + inject_Z (Z.of_nat (length l)) / 2) ls q0
   == q0 + inject_Z (fold_right Z.add 0%Z
                       (map (fun l => Z.of_nat (length l)) ls)) / 2)%Q.
Proof.
  revert q0. induction ls as [| l ls IH]; intros q0; simpl.
  - unfold inject_Z. field.
  - rewrite IH. rewrite inject_Z_plus. field.
Qed.

Lemma Surface_init_Ok (seed : odict (list vertex)) :
  NoDup (od_keys seed) ->
  exists q,
    Surface_init seed =
      Ok {| graph := seed;
            degrees := map (fun kv => (kv.1, Z.of_nat (length kv.2))) seed;
            num_edges := q |} /\
    (q == inject_Z (od_sum (map (fun kv => (kv.1, Z.of_nat (length kv.2)))
                                seed)) / 2)%Q.
Proof.
  intros Hnd. eexists. split.
  - unfold Surface_init. apply (Surface_init_fold seed [] seed 0%Q);
      [reflexivity | exact Hnd].
  - rewrite fold_half_sum. unfold od_sum, od_values. rewrite !map_map. simpl.
    field.
Qed.

Lemma od_lookup_map_degrees (seed : odict (list vertex)) v :
  od_lookup (map (fun kv => (kv.1, Z.of_nat (length kv.2))) seed) v
  = (fun l => Z.of_nat (length l)) <$> od_lookup seed v.
Proof.
  induction seed as [| [k l] seed IH]; simpl; [reflexivity |].
  destruct (decide (k = v)); [reflexivity | exact IH].
Qed.

Lemma NoDup_occurrences x l : NoDup l -> (occurrences x l <= 1)%nat.
Proof.
  induction 1 as [| y l Hy Hnd IH]; simpl; [lia |].
  destruct (decide (y = x)) as [-> | Hne]; [| simpl; exact IH].
  apply occurrences_zero in Hy. lia.
Qed.

Lemma Surface_init_inv (seed : odict (list vertex)) :
  symmetric_seed seed ->
  exists s, Surface_init seed = Ok s /\ surface_inv s.
Proof.
  intros (Hnd & Hlists & Hsym).
  destruct (Surface_init_Ok seed Hnd) as (q & Hinit & Hq).
  eexists. split; [exact Hinit |].
  unfold surface_inv; simpl. split; [exact Hnd |].
  split.
  { split; simpl.
    - unfold od_keys. rewrite map_map. reflexivity.
    - intros v l Hl. rewrite od_lookup_map_degrees, Hl. reflexivity. }
  split; [exact Hsym |].
  split.
  { intros v l u Hl _. apply NoDup_occurrences. apply (Hlists v l Hl). }
  split.
  { intros v l Hl. left. apply (Hlists v l Hl). }
  exact Hq.
Qed.

(** *** [Surface.add_edge] *)

Lemma add_edge_Ok (s : Surface) (v1 v2 : vertex) (l1 l2 : list vertex) :
  degrees_match s ->
  od_lookup (graph s) v1 = Some l1 ->
  od_lookup (graph s) v2 = Some l2 ->
  let l2' := if decide (v1 = v2) then l1 ++ [v2] else l2 in
  add_edge s (v1, v2) =
    Ok {| graph := od_set (od_set (graph s) v1 (l1 ++ [v2])) v2 (l2' ++ [v1]);
          degrees :=
            od_set (od_set (degrees s) v1 (Z.of_nat (length l1) + 1)) v2
                   (Z.of_nat (length l2') + 1);
          num_edges := (num_edges s + 1)%Q |}.
Proof.
  intros [_ Hdeg] H1 H2 l2'. unfold add_edge.
  rewrite (od_get_Some _ _ _ H1). simpl.
  assert (Hg2 : od_lookup (od_set (graph s) v1 (l1 ++ [v2])) v2 = Some l2').
  { rewrite od_lookup_set. subst l2'. destruct (decide (v1 = v2)); auto. }
  rewrite (od_get_Some _ _ _ Hg2). simpl.
  rewrite (od_get_Some _ _ _ (Hdeg _ _ H1)). simpl.
  assert (Hd2 : od_lookup (od_set (degrees s) v1 (Z.of_nat (length l1) + 1)) v2
                = Some (Z.of_nat (length l2'))).
  { rewrite od_lookup_set. subst l2'. destruct (decide (v1 = v2)) as [<- | Hne].
    - rewrite length_app. simpl. f_equal. lia.
    - apply Hdeg. exact H2. }
  rewrite (od_get_Some _ _ _ Hd2). reflexivity.
Qed.

Lemma loop_paired_snoc v u l : loop_paired v l -> u <> v -> loop_paired v (l ++ [u]).
Proof.
  intros [Hn | (l1 & l2 & -> & Hn1 & Hn2)] Hne.
  - left. rewrite not_elem_of_app, not_elem_of_cons. split; [exact Hn |].
    split; [congruence | apply not_elem_of_nil].
  - right. exists l1, (l2 ++ [u]). split.
    + rewrite <- app_assoc. reflexivity.
    + split; [exact Hn1 |]. rewrite not_elem_of_app, not_elem_of_cons.
      split; [exact Hn2 |]. split; [congruence | apply not_elem_of_nil].
Qed.

Lemma occurrences_snoc x l y :
  occurrences x (l ++ [y]) =
    (occurrences x l + if decide (y = x) then 1 else 0)%nat.
Proof. rewrite occurrences_app. simpl. lia. Qed.

Lemma add_edge_inv (s : Surface) (v1 v2 : vertex) :
  surface_inv s ->
  precondition s (AddEdge (v1, v2)) ->
  exists s', add_edge s (v1, v2) = Ok s' /\ surface_inv s'.
Proof.
  intros (Hnd & Hdm & Hsym & Hpar & Hloop & Hedges) ([l1 H1] & [l2 H2] & Hfresh).
  pose proof (add_edge_Ok s v1 v2 l1 l2 Hdm H1 H2) as Hadd. simpl in Hadd.
  eexists. split; [exact Hadd |].
  set (l2' := if decide (v1 = v2) then l1 ++ [v2] else l2) in *.
  assert (Hadj1 : adjacency s v1 = l1) by (unfold adjacency; rewrite H1; reflexivity).
  assert (Hadj2 : adjacency s v2 = l2) by (unfold adjacency; rewrite H2; reflexivity).
  rewrite Hadj1 in Hfresh.
  assert (Hfresh2 : v1 ∉ l2).
  { rewrite <- Hadj2. rewrite <- (Hsym v2 v1). rewrite Hadj1. exact Hfresh. }
  assert (Hlk : forall u,
             od_lookup (od_set (od_set (graph s) v1 (l1 ++ [v2])) v2 (l2' ++ [v1])) u
             = if decide (v2 = u) then Some (l2' ++ [v1])
               else if decide (v1 = u) then Some (l1 ++ [v2])
                    else od_lookup (graph s) u).
  { intros u. rewrite !od_lookup_set. reflexivity. }
  assert (Hp1 : is_Some (od_lookup (graph s) v1)) by eauto.
  assert (Hp2 : is_Some (od_lookup (od_set (graph s) v1 (l1 ++ [v2])) v2)).
  { rewrite od_lookup_set. destruct (decide (v1 = v2)); eauto. }
  destruct Hdm as [Hkeys Hdeg].
  unfold surface_inv; simpl.
  split.
  { rewrite (od_keys_set_present _ _ _ Hp2), (od_keys_set_present _ _ _ Hp1).
    exact Hnd. }
  split.
  { split; simpl.
    - rewrite (od_keys_set_present _ _ _ Hp2), (od_keys_set_present _ _ _ Hp1).
      rewrite !od_keys_set_present; [exact Hkeys | |].
      + rewrite (Hdeg _ _ H1). eauto.
      + rewrite od_lookup_set. destruct (decide (v1 = v2)); [eauto |].
        rewrite (Hdeg _ _ H2). eauto.
    - intros v l. rewrite Hlk, !od_lookup_set.
      destruct (decide (v2 = v)) as [<- | Hn2].
      + intros [= <-]. rewrite length_app. simpl. f_equal. lia.
      + destruct (decide (v1 = v)) as [<- | Hn1].
        * intros [= <-]. rewrite length_app. simpl. f_equal. lia.
        * apply Hdeg. }
  assert (Hmem : forall a b,
             a ∈ default [] (od_lookup
                               (od_set (od_set (graph s) v1 (l1 ++ [v2])) v2
                                       (l2' ++ [v1])) b)
             <-> a ∈ adjacency s b \/ (b = v1 /\ a = v2) \/ (b = v2 /\ a = v1)).
  { intros a b. rewrite Hlk. unfold adjacency.
    destruct (decide (v2 = b)) as [<- | Hn2]; simpl.
    - subst l2'. destruct (decide (v1 = v2)) as [<- | Hn1].
      + rewrite H1. simpl. rewrite !elem_of_app, !list_elem_of_singleton. tauto.
      + rewrite H2. simpl. rewrite !elem_of_app, !list_elem_of_singleton.
        split; [intros [H | H]; [tauto | right; right; tauto] |].
        intros [H | [[H _] | [_ H]]]; [tauto | congruence | tauto].
    - destruct (decide (v1 = b)) as [<- | Hn1]; simpl.
      + rewrite H1. simpl. rewrite !elem_of_app, !list_elem_of_singleton.
        split; [intros [H | H]; [tauto | right; left; tauto] |].
        intros [H | [[_ H] | [H _]]]; [tauto | tauto | congruence].
      + split; [tauto |]. intros [H | [[H _] | [H _]]]; [exact H | |]; congruence. }
  split.
  { intros u v. unfold adjacency; simpl. rewrite !Hmem.
    pose proof (Hsym u v). tauto. }
  split.
  { intros v l u. simpl. rewrite Hlk.
    destruct (decide (v2 = v)) as [<- | Hn2].
    - intros [= <-] Hne. rewrite occurrences_snoc. subst l2'.
      destruct (decide (v1 = v2)) as [<- | Hn1].
      + rewrite occurrences_snoc.
        destruct (decide (v1 = u)); [congruence |].
        pose proof (Hpar _ _ u H1 Hne). lia.
      + destruct (decide (v1 = u)) as [<- | Hnu].
        * apply occurrences_zero in Hfresh2. lia.
        * pose proof (Hpar _ _ u H2 Hne). lia.
    - destruct (decide (v1 = v)) as [<- | Hn1].
      + intros [= <-] Hne. rewrite occurrences_snoc.
        destruct (decide (v2 = u)) as [<- | Hnu].
        * apply occurrences_zero in Hfresh. lia.
        * pose proof (Hpar _ _ u H1 Hne). lia.
      + intros Hl Hne. exact (Hpar _ _ u Hl Hne). }
  split.
  { intros v l. simpl. rewrite Hlk.
    destruct (decide (v2 = v)) as [<- | Hn2].
    - intros [= <-]. subst l2'. destruct (decide (v1 = v2)) as [<- | Hn1].
      + right. exists l1, []. split; [rewrite <- app_assoc; reflexivity |].
        split; [exact Hfresh | apply not_elem_of_nil].
      + apply loop_paired_snoc; [apply (Hloop _ _ H2) | exact Hn1].
    - destruct (decide (v1 = v)) as [<- | Hn1].
      + intros [= <-]. apply loop_paired_snoc; [apply (Hloop _ _ H1) | exact Hn2].
      + apply Hloop. }
  unfold edges_match, sum_degrees in *; simpl.
  assert (Hsum : od_sum (od_set (od_set (degrees s) v1 (Z.of_nat (length l1) + 1))
                           v2 (Z.of_nat (length l2') + 1))
                 = od_sum (degrees s) + 2).
  { assert (Hd2 : od_lookup (od_set (degrees s) v1 (Z.of_nat (length l1) + 1)) v2
                  = Some (Z.of_nat (length l2'))).
    { rewrite od_lookup_set. subst l2'. destruct (decide (v1 = v2)) as [<- | Hne].
      - rewrite length_app. simpl. f_equal. lia.
      - apply Hdeg. exact H2. }
    rewrite (od_sum_set _ _ _ _ Hd2), (od_sum_set _ _ _ _ (Hdeg _ _ H1)). lia. }
  rewrite Hsum, Hedges, inject_Z_plus. field.
Qed.

(** *** [Surface.remove_vertex] *)

Lemma pair_split_remove (u v : vertex) (l1 l2 a b : list vertex) :
  v <> u ->
  l1 ++ u :: u :: l2 = a ++ v :: b ->
  (exists a', a = l1 ++ u :: u :: a' /\ l2 = a' ++ v :: b) \/
  (exists b', b = b' ++ u :: u :: l2 /\ l1 = a ++ v :: b').
Proof.
  intros Hne. revert a. induction l1 as [| x l1 IH]; intros a H.
  - destruct a as [| y a]; simpl in H; [congruence |].
    injection H as <- H. destruct a as [| y a]; simpl in H; [congruence |].
    injection H as <- H. left. exists a. split; [reflexivity | exact H].
  - destruct a as [| y a]; simpl in H.
    + injection H as -> H. right. exists l1. split; [auto | reflexivity].
    + injection H as <- H. destruct (IH a H) as [(a' & -> & ->) | (b' & -> & ->)].
      * left. exists a'. split; reflexivity.
      * right. exists b'. split; reflexivity.
Qed.

Lemma loop_paired_remove (u v : vertex) (a b : list vertex) :
  v <> u -> loop_paired u (a ++ v :: b) -> loop_paired u (a ++ b).
Proof.
  intros Hne [Hn | (l1 & l2 & Heq & Hn1 & Hn2)].
  - left. rewrite not_elem_of_app in *. rewrite not_elem_of_cons in Hn. tauto.
  - symmetry in Heq.
    destruct (pair_split_remove u v l1 l2 a b Hne Heq)
      as [(a' & -> & ->) | (b' & -> & ->)].
    + right. exists l1, (a' ++ b). split; [rewrite <- app_assoc; reflexivity |].
      split; [exact Hn1 |].
      rewrite not_elem_of_app in *. rewrite not_elem_of_cons in Hn2. tauto.
    + right. exists (a ++ b'), l2. split; [rewrite <- app_assoc; reflexivity |].
      split; [| exact Hn2].
      rewrite not_elem_of_app in *. rewrite not_elem_of_cons in Hn1. tauto.
Qed.

Lemma occurrences_remove_le x v a b :
  (occurrences x (a ++ b) <= occurrences x (a ++ v :: b))%nat.
Proof. rewrite !occurrences_app. simpl. lia. Qed.

Lemma occurrences_once_split v a b :
  (occurrences v (a ++ v :: b) <= 1)%nat -> (v ∉ a) /\ (v ∉ b).
Proof.
  rewrite occurrences_app. simpl.
  destruct (decide (v = v)); [| contradiction]. intros H.
  split; apply occurrences_zero; lia.
Qed.

Lemma remove_inv_start (s : Surface) (v : vertex) (l : list vertex) :
  surface_inv s -> od_lookup (graph s) v = Some l -> remove_inv v [] l s.
Proof.
  intros (Hnd & Hdm & Hsym & Hpar & Hloop & Hedges) Hl.
  unfold remove_inv. simpl.
  split; [exact Hl |]. split; [exact Hnd |]. split; [exact Hdm |].
  split; [exact Hpar |].
  split; [intros a b _ _; apply Hsym |].
  split.
  { intros u _. rewrite (Hsym v u). unfold adjacency. rewrite Hl. reflexivity. }
  split.
  { destruct (Hloop _ _ Hl) as [Hn | Hp]; [left; exact Hn |].
    right. split; [apply not_elem_of_nil | exact Hp]. }
  split; [intros u l' _; apply Hloop |].
  unfold edges_match in Hedges. rewrite Hedges. unfold inject_Z. field.
Qed.

Lemma count_step (ne : Q) (S L : Z) :
  (2 * ne == inject_Z S - inject_Z L)%Q ->
  (2 * (ne - 1) == inject_Z (S - 1) - inject_Z (L + 1))%Q.
Proof.
  intros H. unfold Z.sub. rewrite !inject_Z_plus, inject_Z_opp.
  change (inject_Z 1) with 1%Q.
  assert (E : (2 * (ne - 1) == 2 * ne - 2)%Q) by ring.
  rewrite E, H. ring.
Qed.

(** One round of the loop on a neighbour [u] other than [v]. *)
Lemma remove_step_other (v u : vertex) (done todo : list vertex) (s : Surface) :
  u <> v ->
  remove_inv v done (u :: todo) s ->
  exists l l' d,
    od_get (graph s) u = Ok l /\
    list_remove v l = Ok l' /\
    od_get (degrees s) u = Ok d /\
    remove_inv v (done ++ [u]) todo
      {| graph := od_set (graph s) u l';
         degrees := od_set (degrees s) u (d - 1);
         num_edges := (num_edges s - 1)%Q |}.
Proof.
  intros Hne (Hv & Hnd & [Hkeys Hdeg] & Hpar & Hsym & Hnbr & Hself & Hloop & Hcount).
  assert (Hvu : v ∈ adjacency s u).
  { apply (Hnbr u Hne). apply elem_of_cons. left. reflexivity. }
  unfold adjacency in Hvu.
  destruct (od_lookup (graph s) u) as [l |] eqn:Hl; simpl in Hvu;
    [| inversion Hvu].
  destruct (list_remove_Ok v l Hvu) as (a & b & -> & Hna & Hrem).
  assert (Hvab : (v ∉ a) /\ (v ∉ b)).
  { apply occurrences_once_split. apply (Hpar u _ v Hl). congruence. }
  destruct Hvab as [_ Hnb].
  exists (a ++ v :: b), (a ++ b), (Z.of_nat (length (a ++ v :: b))).
  split; [apply od_get_Some; exact Hl |]. split; [exact Hrem |].
  split; [apply od_get_Some; apply (Hdeg _ _ Hl) |].
  assert (Hlk : forall w,
             od_lookup (od_set (graph s) u (a ++ b)) w
             = if decide (u = w) then Some (a ++ b) else od_lookup (graph s) w).
  { intros w. apply od_lookup_set. }
  assert (Hadj : forall x w,
             x <> v ->
             (x ∈ default [] (od_lookup (od_set (graph s) u (a ++ b)) w)
              <-> x ∈ adjacency s w)).
  { intros x w Hx. rewrite Hlk. unfold adjacency.
    destruct (decide (u = w)) as [<- | Hnw]; [| reflexivity].
    rewrite Hl. simpl. rewrite !elem_of_app, elem_of_cons. split; [tauto |].
    intros [H | [H | H]]; [tauto | congruence | tauto]. }
  assert (Hu_once : (u ∉ done) /\ (u ∉ todo)).
  { apply occurrences_once_split. apply (Hpar v _ u Hv Hne). }
  unfold remove_inv; simpl.
  split.
  { rewrite Hlk. destruct (decide (u = v)); [contradiction |].
    rewrite Hv, <- app_assoc. reflexivity. }
  split.
  { rewrite od_keys_set_present; [exact Hnd | rewrite Hl; eauto]. }
  split.
  { split; simpl.
    - rewrite !od_keys_set_present; [exact Hkeys | rewrite Hl; eauto |].
      rewrite (Hdeg _ _ Hl). eauto.
    - intros w l0. rewrite Hlk, od_lookup_set.
      destruct (decide (u = w)) as [<- | Hnw]; [| apply Hdeg].
      intros [= <-]. f_equal. rewrite !length_app. simpl. lia. }
  split.
  { intros w l0 x. rewrite Hlk.
    destruct (decide (u = w)) as [<- | Hnw]; [| apply Hpar].
    intros [= <-] Hx. pose proof (Hpar u _ x Hl Hx).
    pose proof (occurrences_remove_le x v a b). lia. }
  split.
  { intros x w Hx Hw. unfold adjacency; simpl.
    rewrite (Hadj x w Hx), (Hadj w x Hw). apply Hsym; assumption. }
  split.
  { intros w Hw. unfold adjacency; simpl. rewrite Hlk.
    destruct (decide (u = w)) as [<- | Hnw]; simpl.
    - split; [| intros H; destruct Hu_once as [_ Hn]; contradiction].
      rewrite elem_of_app. intros [H | H]; contradiction.
    - fold (adjacency s w). rewrite (Hnbr w Hw), elem_of_cons.
      split; [intros [H | H]; [congruence | exact H] | tauto]. }
  split.
  { destruct Hself as [Hn | (Hnd' & l1 & l2 & Heq & Hn1 & Hn2)].
    - left. rewrite not_elem_of_cons in Hn. tauto.
    - right. destruct l1 as [| x l1]; simpl in Heq; [congruence |].
      injection Heq as <- ->.
      split.
      + rewrite not_elem_of_app, not_elem_of_cons. split; [exact Hnd' |].
        split; [congruence | apply not_elem_of_nil].
      + exists l1, l2. split; [reflexivity |].
        rewrite not_elem_of_cons in Hn1. tauto. }
  split.
  { intros w l0 Hw. rewrite Hlk.
    destruct (decide (u = w)) as [<- | Hnw]; [| apply Hloop; exact Hw].
    intros [= <-]. apply (loop_paired_remove u v a b); [congruence |].
    apply (Hloop u _ Hne Hl). }
  unfold sum_degrees in *; simpl.
  rewrite (od_sum_set _ _ _ _ (Hdeg _ _ Hl)).
  replace (od_sum (degrees s) - Z.of_nat (length (a ++ v :: b))
           + (Z.of_nat (length (a ++ v :: b)) - 1))
    with (od_sum (degrees s) - 1) by lia.
  replace (Z.of_nat (length (done ++ [u])))
    with (Z.of_nat (length done) + 1) by (rewrite length_app; simpl; lia).
  apply count_step. exact Hcount.
Qed.

(** One round of the loop on [v] itself: [v] has a loop edge, the body
    strikes the first [v] from the very list the iterator walks, and the
    iterator steps over the second. *)
Lemma remove_step_self (v : vertex) (done todo : list vertex) (s : Surface) :
  remove_inv v done (v :: todo) s ->
  exists l l' d todo',
    todo = v :: todo' /\
    od_get (graph s) v = Ok l /\
    list_remove v l = Ok l' /\
    od_get (degrees s) v = Ok d /\
    remove_inv v (done ++ [v]) todo'
      {| graph := od_set (graph s) v l';
         degrees := od_set (degrees s) v (d - 1);
         num_edges := (num_edges s - 1)%Q |}.
Proof.
  intros (Hv & Hnd & [Hkeys Hdeg] & Hpar & Hsym & Hnbr & Hself & Hloop & Hcount).
  destruct Hself as [Hn | (Hnd' & l1 & l2 & Heq & Hn1 & Hn2)].
  { exfalso. apply Hn. apply elem_of_cons. left. reflexivity. }
  destruct l1 as [| x l1]; simpl in Heq.
  2: { injection Heq as <- _. exfalso. apply Hn1. apply elem_of_cons.
       left. reflexivity. }
  injection Heq as ->.
  exists (done ++ v :: v :: l2), (done ++ v :: l2),
    (Z.of_nat (length (done ++ v :: v :: l2))), l2.
  split; [reflexivity |].
  split; [apply od_get_Some; exact Hv |].
  split; [apply list_remove_split; exact Hnd' |].
  split; [apply od_get_Some; apply (Hdeg _ _ Hv) |].
  assert (Hlk : forall w,
             od_lookup (od_set (graph s) v (done ++ v :: l2)) w
             = if decide (v = w) then Some (done ++ v :: l2)
               else od_lookup (graph s) w).
  { intros w. apply od_lookup_set. }
  unfold remove_inv; simpl.
  split.
  { rewrite Hlk. destruct (decide (v = v)); [| contradiction].
    rewrite <- app_assoc. reflexivity. }
  split.
  { rewrite od_keys_set_present; [exact Hnd | rewrite Hv; eauto]. }
  split.
  { split; simpl.
    - rewrite !od_keys_set_present; [exact Hkeys | rewrite Hv; eauto |].
      rewrite (Hdeg _ _ Hv). eauto.
    - intros w l0. rewrite Hlk, od_lookup_set.
      destruct (decide (v = w)) as [<- | Hnw]; [| apply Hdeg].
      intros [= <-]. f_equal. rewrite !length_app. simpl. lia. }
  split.
  { intros w l0 x. rewrite Hlk.
    destruct (decide (v = w)) as [<- | Hnw]; [| apply Hpar].
    intros [= <-] Hx. pose proof (Hpar v _ x Hv Hx) as Hle.
    rewrite occurrences_app in *. simpl in *. lia. }
  split.
  { intros x w Hx Hw. unfold adjacency; simpl. rewrite !Hlk.
    destruct (decide (v = w)); [congruence |].
    destruct (decide (v = x)); [congruence |]. apply Hsym; assumption. }
  split.
  { intros w Hw. unfold adjacency; simpl. rewrite Hlk.
    destruct (decide (v = w)); [congruence |].
    fold (adjacency s w). rewrite (Hnbr w Hw), !elem_of_cons.
    split; [intros [H | [H | H]]; [congruence | congruence | exact H] | tauto]. }
  split; [left; exact Hn2 |].
  split.
  { intros w l0 Hw. rewrite Hlk.
    destruct (decide (v = w)); [congruence | apply Hloop; exact Hw]. }
  unfold sum_degrees in *; simpl.
  rewrite (od_sum_set _ _ _ _ (Hdeg _ _ Hv)).
  replace (od_sum (degrees s) - Z.of_nat (length (done ++ v :: v :: l2))
           + (Z.of_nat (length (done ++ v :: v :: l2)) - 1))
    with (od_sum (degrees s) - 1) by lia.
  replace (Z.of_nat (length (done ++ [v])))
    with (Z.of_nat (length done) + 1) by (rewrite length_app; simpl; lia).
  apply count_step. exact Hcount.
Qed.

Lemma lookup_at_done (done todo : list vertex) :
  (done ++ todo) !! length done = todo !! 0%nat.
Proof.
  rewrite lookup_app_r by lia. rewrite Nat.sub_diag. reflexivity.
Qed.

(** The loop runs to the end of the list and keeps its invariant. *)
Lemma remove_vertex_loop_inv (v : vertex) (fuel : nat) :
  forall (done todo : list vertex) (s : Surface),
    remove_inv v done todo s ->
    (length todo <= fuel)%nat ->
    exists s' done',
      remove_vertex_loop fuel (length done) v s = Ok s' /\
      remove_inv v done' [] s'.
Proof.
  induction fuel as [| fuel IH]; intros done todo s Hinv Hlen.
  - destruct todo; [| simpl in Hlen; lia]. exists s, done. split; [reflexivity | exact Hinv].
  - simpl. pose proof Hinv as (Hv & _). rewrite (od_get_Some _ _ _ Hv). simpl.
    rewrite lookup_at_done. destruct todo as [| u todo]; simpl.
    + exists s, done. split; [reflexivity | exact Hinv].
    + destruct (decide (u = v)) as [-> | Hne].
      * destruct (remove_step_self v done todo s Hinv)
          as (l & l' & d & todo' & -> & Hl & Hrem & Hd & Hinv').
        rewrite Hl. simpl. rewrite Hrem. simpl. rewrite Hd. simpl.
        replace (S (length done)) with (length (done ++ [v]))
          by (rewrite length_app; simpl; lia).
        apply (IH _ todo' _ Hinv'). simpl in Hlen. lia.
      * destruct (remove_step_other v u done todo s Hne Hinv)
          as (l & l' & d & Hl & Hrem & Hd & Hinv').
        rewrite Hl. simpl. rewrite Hrem. simpl. rewrite Hd. simpl.
        replace (S (length done)) with (length (done ++ [u]))
          by (rewrite length_app; simpl; lia).
        apply (IH _ todo _ Hinv'). simpl in Hlen. lia.
Qed.

(** More fuel than the length of the list changes nothing: the bound on
    the rounds cuts no run short. *)
Lemma remove_vertex_loop_fuel (v : vertex) (fuel extra : nat) :
  forall (done todo : list vertex) (s : Surface),
    remove_inv v done todo s ->
    (length todo <= fuel)%nat ->
    remove_vertex_loop (fuel + extra) (length done) v s
    = remove_vertex_loop fuel (length done) v s.
Proof.
  induction fuel as [| fuel IH]; intros done todo s Hinv Hlen.
  - destruct todo; [| simpl in Hlen; lia]. simpl.
    destruct extra; [reflexivity |]. simpl.
    pose proof Hinv as (Hv & _). rewrite (od_get_Some _ _ _ Hv). simpl.
    rewrite lookup_at_done. reflexivity.
  - simpl. pose proof Hinv as (Hv & _). rewrite (od_get_Some _ _ _ Hv). simpl.
    rewrite lookup_at_done. destruct todo as [| u todo]; simpl; [reflexivity |].
    destruct (decide (u = v)) as [-> | Hne].
    + destruct (remove_step_self v done todo s Hinv)
        as (l & l' & d & todo' & -> & Hl & Hrem & Hd & Hinv').
      rewrite Hl. simpl. rewrite Hrem. simpl. rewrite Hd. simpl.
      replace (S (length done)) with (length (done ++ [v]))
        by (rewrite length_app; simpl; lia).
      apply (IH _ todo' _ Hinv'). simpl in Hlen. lia.
    + destruct (remove_step_other v u done todo s Hne Hinv)
        as (l & l' & d & Hl & Hrem & Hd & Hinv').
      rewrite Hl. simpl. rewrite Hrem. simpl. rewrite Hd. simpl.
      replace (S (length done)) with (length (done ++ [u]))
        by (rewrite length_app; simpl; lia).
      apply (IH _ todo _ Hinv'). simpl in Hlen. lia.
Qed.

(** Deleting [v] once no list mentions it gives back the invariant. *)
Lemma remove_inv_finish (v : vertex) (done : list vertex) (s : Surface) :
  remove_inv v done [] s ->
  exists g dg,
    od_del (graph s) v = Ok g /\
    od_del (degrees s) v = Ok dg /\
    surface_inv {| graph := g; degrees := dg; num_edges := num_edges s |}.
Proof.
  intros (Hv & Hnd & [Hkeys Hdeg] & Hpar & Hsym & Hnbr & Hself & Hloop & Hcount).
  rewrite app_nil_r in Hv.
  exists (od_remove (graph s) v), (od_remove (degrees s) v).
  split; [unfold od_del; rewrite Hv; reflexivity |].
  split; [unfold od_del; rewrite (Hdeg _ _ Hv); reflexivity |].
  assert (Hnd' : NoDup (od_keys (degrees s))) by (rewrite Hkeys; exact Hnd).
  assert (Hadj : forall w,
             default [] (od_lookup (od_remove (graph s) v) w)
             = if decide (v = w) then [] else adjacency s w).
  { intros w. rewrite (od_lookup_remove _ _ _ Hnd). unfold adjacency.
    destruct (decide (v = w)); reflexivity. }
  assert (Hnov : forall w, v ∉ adjacency s w \/ w = v).
  { intros w. destruct (decide (w = v)) as [-> | Hw]; [right; reflexivity |].
    left. rewrite (Hnbr w Hw). apply not_elem_of_nil. }
  unfold surface_inv; simpl.
  split; [apply od_remove_NoDup; exact Hnd |].
  split.
  { split; simpl.
    - apply od_keys_remove_eq. exact Hkeys.
    - intros w l. rewrite (od_lookup_remove _ _ _ Hnd),
        (od_lookup_remove _ _ _ Hnd').
      destruct (decide (v = w)); [discriminate | apply Hdeg]. }
  split.
  { intros a b. unfold adjacency; simpl. rewrite !Hadj.
    destruct (decide (v = b)) as [<- | Hb], (decide (v = a)) as [<- | Ha].
    - reflexivity.
    - split; [intros H; inversion H |]. intros H.
      destruct (Hnov a) as [Hn | ->]; [contradiction | congruence].
    - split; [| intros H; inversion H]. intros H.
      destruct (Hnov b) as [Hn | ->]; [contradiction | congruence].
    - apply Hsym; congruence. }
  split.
  { intros w l u. rewrite (od_lookup_remove _ _ _ Hnd).
    destruct (decide (v = w)); [discriminate | apply Hpar]. }
  split.
  { intros w l. rewrite (od_lookup_remove _ _ _ Hnd).
    destruct (decide (v = w)); [discriminate |]. apply Hloop. congruence. }
  unfold edges_match, sum_degrees in *; simpl.
  rewrite (od_sum_remove _ _ _ (Hdeg _ _ Hv)).
  unfold Z.sub. rewrite inject_Z_plus, inject_Z_opp.
  assert (E : (num_edges s == (2 * num_edges s) / 2)%Q) by field.
  rewrite E, Hcount. field.
Qed.

Lemma remove_vertex_inv (s : Surface) (v : vertex) :
  surface_inv s ->
  precondition s (RemoveVertex v) ->
  exists s', remove_vertex s v = Ok s' /\ surface_inv s'.
Proof.
  intros Hinv [l Hl].
  pose proof (remove_inv_start s v l Hinv Hl) as Hstart.
  destruct (remove_vertex_loop_inv v (length l) [] l s Hstart ltac:(lia))
    as (s1 & done & Hloop & Hend).
  destruct (remove_inv_finish v done s1 Hend) as (g & dg & Hg & Hdg & Hfin).
  eexists. split; [| exact Hfin].
  unfold remove_vertex. rewrite (od_get_Some _ _ _ Hl). simpl.
  simpl in Hloop. rewrite Hloop. simpl. rewrite Hg. simpl. rewrite Hdg.
  reflexivity.
Qed.

Lemma run_inv (ops : list graph_op) :
  forall s, surface_inv s -> respects s ops ->
            exists s', run s ops = Ok s' /\ surface_inv s'.
Proof.
  induction ops as [| o ops IH]; intros s Hinv Hres.
  - exists s. split; [reflexivity | exact Hinv].
  - destruct Hres as [Hpre Hnext].
    assert (Hstep : exists s1, apply_op s o = Ok s1 /\ surface_inv s1).
    { destruct o as [[v1 v2] | v]; simpl.
      - apply add_edge_inv; assumption.
      - apply remove_vertex_inv; assumption. }
    destruct Hstep as (s1 & Hs1 & Hinv1).
    destruct (IH s1 Hinv1 (Hnext s1 Hs1)) as (s' & Hrun & Hinv').
    exists s'. split; [| exact Hinv']. simpl. rewrite Hs1. exact Hrun.
Qed.

(** C2.  A Surface built from a symmetric seed adjacency comes into being,
    and every sequence of [add_edge] and [remove_vertex] calls that respects
    the preconditions runs through and ends in a state whose adjacency
    lists are symmetric, whose [degrees] has the keys of [graph] with
    [degrees[v] == len(graph[v])], and whose [num_edges] is exactly half
    the sum of the degrees.  Both methods adjust [degrees] and [num_edges]
    step by step; neither recomputes them from [graph]. *)
Theorem surface_invariants (seed : odict (list vertex)) (ops : list graph_op) :
  symmetric_seed seed ->
  exists s0,
    Surface_init seed = Ok s0 /\
    (respects s0 ops ->
     exists s,
       run s0 ops = Ok s /\
       symmetric s /\ degrees_match s /\ edges_match s).
Proof.
  intros Hseed. destruct (Surface_init_inv seed Hseed) as (s0 & Hinit & Hinv0).
  exists s0. split; [exact Hinit |]. intros Hres.
  destruct (run_inv ops s0 Hinv0 Hres) as (s & Hrun & Hinv).
  exists s. split; [exact Hrun |].
  destruct Hinv as (_ & Hdm & Hsym & _ & _ & Hedges). auto.
Qed.

Lemma surface_invariants_witness :
  symmetric_seed small_seed /\
  exists s0,
    Surface_init small_seed = Ok s0 /\
    respects s0 small_ops /\
    exists s,
      run s0 small_ops = Ok s /\
      symmetric s /\ degrees_match s /\ edges_match s.
Proof.
  assert (Hseed : symmetric_seed small_seed).
  { unfold symmetric_seed, small_seed. split; [| split].
    - simpl. repeat (apply NoDup_cons; split;
        [rewrite ?not_elem_of_cons; repeat split;
         try congruence; apply not_elem_of_nil |]).
      apply NoDup_nil. trivial.
    - intros v l. simpl.
      repeat (destruct (decide _) as [<- | ?]; [intros [= <-] |]);
        try discriminate.
      + split; [apply NoDup_singleton |].
        rewrite list_elem_of_singleton. congruence.
      + split; [apply NoDup_singleton |].
        rewrite list_elem_of_singleton. congruence.
      + split; [apply NoDup_nil; trivial | apply not_elem_of_nil].
    - intros u v. unfold adj_of. simpl.
      repeat (destruct (decide _) as [<- | ?]); simpl;
        rewrite ?list_elem_of_singleton;
        split; intros H; try congruence; try (inversion H; fail). }
  split; [exact Hseed |].
  destruct (surface_invariants small_seed small_ops Hseed)
    as (s0 & Hinit & Hrun).
  exists s0. split; [exact Hinit |].
  assert (Hres : respects s0 small_ops).
  { vm_compute in Hinit. injection Hinit as <-. unfold small_ops.
    split.
    { split; [eexists; reflexivity |]. split; [eexists; reflexivity |].
      apply not_elem_of_nil. }
    intros s1 H1. vm_compute in H1. injection H1 as <-.
    split.
    { split; [eexists; reflexivity |]. split; [eexists; reflexivity |].
      unfold adjacency. simpl.
      rewrite !not_elem_of_cons. repeat split; try congruence.
      apply not_elem_of_nil. }
    intros s2 H2. vm_compute in H2. injection H2 as <-.
    split; [eexists; reflexivity |].
    intros s3 _. exact I. }
  split; [exact Hres |]. exact (Hrun Hres).
Defined.

(** ** The two local walks *)

Lemma bind_lift_Ok {A B : Type} (a : A) (k : A -> rand B) :
  (lift (Ok a) ≫= k) = Rand (map (scale 1) (outcomes (k a))).
Proof. unfold mbind, rand_bind, lift. simpl. rewrite app_nil_r. reflexivity. Qed.

Lemma bind_lift_Raise {A B : Type} (e : exception) (k : A -> rand B) :
  (lift (Raise e) ≫= k) = lift (Raise e).
Proof. reflexivity. Qed.

Lemma flat_map_map {A B C : Type} (f : B -> list C) (g : A -> B) (l : list A) :
  flat_map f (map g l) = flat_map (fun a => f (g a)) l.
Proof. induction l as [| a l IH]; simpl; [reflexivity | rewrite IH; reflexivity]. Qed.

Lemma bind_weighted {A A' B : Type} (w : Q) (g : A' -> A) (l : list A')
    (k : A -> rand B) :
  (Rand (map (fun a => (w, Ok (g a))) l) ≫= k)
  = Rand (flat_map (fun a => map (scale w) (outcomes (k (g a)))) l).
Proof.
  unfold mbind, rand_bind. simpl. rewrite flat_map_map. reflexivity.
Qed.

Lemma random_choices_cons {A : Type} (a : A) (l : list A) :
  random_choices (a :: l)
  = Rand (map (fun x => ((1 # Pos.of_nat (length (a :: l)))%Q, Ok ((fun y : A => y) x)))
              (a :: l)).
Proof. reflexivity. Qed.

Lemma random_move_direction_cons {T : Type}
    (valid_moves : list Z -> list (T * coord)) (ld : list Z) mv moves :
  valid_moves ld = mv :: moves ->
  random_move_direction valid_moves ld
  = Rand (map (fun x : T * coord =>
                 ((1 # Pos.of_nat (length (mv :: moves)))%Q, Ok (Some x.2)))
              (mv :: moves)).
Proof.
  intros H. unfold random_move_direction. rewrite H. simpl.
  rewrite length_map, map_map. reflexivity.
Qed.

Section LocalWalk.

Variable local_grid_data : coord -> World -> result (list Z).
Variable move_tag : Type.
Variable valid_moves : list Z -> list (move_tag * coord).

Lemma move_loop_S (world : World) (j : nat) (pos : coord) :
  move_loop local_grid_data move_tag valid_moves world (S j) pos =
    (local_data ← lift (local_grid_data pos world);
     let moves := valid_moves local_data in
     if decide (0 < length moves)%nat then
       chosen_move ← random_choices moves;
       move_loop local_grid_data move_tag valid_moves world j
         (vadd pos chosen_move.2)
     else move_loop local_grid_data move_tag valid_moves world j pos).
Proof. reflexivity. Qed.

Lemma move_loop_new_S (rmd : list Z -> rand (option coord)) (world : World)
    (j : nat) (pos : coord) :
  move_loop_new local_grid_data rmd world (S j) pos =
    (local_data ← lift (local_grid_data pos world);
     dir ← rmd local_data;
     match dir with
     | Some dir => move_loop_new local_grid_data rmd world j (vadd pos dir)
     | None => mret pos
     end).
Proof. destruct pos as [[x y] z]. reflexivity. Qed.

(** Without a candidate move the reference walk stays where it is for all
    the rounds that are left. *)
Lemma move_loop_stay (world : World) (pos : coord) (ld : list Z) (j : nat) :
  local_grid_data pos world = Ok ld ->
  valid_moves ld = [] ->
  move_loop local_grid_data move_tag valid_moves world j pos = mret pos.
Proof.
  intros Hld Hm. induction j as [| j IH]; [reflexivity |].
  rewrite move_loop_S, Hld, bind_lift_Ok. simpl. rewrite Hm. simpl.
  rewrite IH. reflexivity.
Qed.

(** Without a candidate move the optimized walk leaves its loop at once. *)
Lemma move_loop_new_stay (world : World) (pos : coord) (ld : list Z) (j : nat) :
  local_grid_data pos world = Ok ld ->
  valid_moves ld = [] ->
  move_loop_new local_grid_data (random_move_direction valid_moves) world j pos
  = mret pos.
Proof.
  intros Hld Hm. destruct j as [| j]; [reflexivity |].
  rewrite move_loop_new_S, Hld, bind_lift_Ok.
  unfold random_move_direction. rewrite Hm. reflexivity.
Qed.

Lemma move_loop_same (world : World) (j : nat) :
  forall pos : coord,
    move_loop local_grid_data move_tag valid_moves world j pos
    = move_loop_new local_grid_data (random_move_direction valid_moves)
        world j pos.
Proof.
  induction j as [| j IH]; intros pos; [reflexivity |].
  destruct (local_grid_data pos world) as [ld | e] eqn:Hld.
  - destruct (valid_moves ld) as [| mv moves] eqn:Hm.
    + rewrite (move_loop_stay world pos ld (S j) Hld Hm).
      rewrite (move_loop_new_stay world pos ld (S j) Hld Hm). reflexivity.
    + rewrite move_loop_S, move_loop_new_S, Hld, !bind_lift_Ok.
      cbv zeta.
      rewrite (random_move_direction_cons valid_moves ld mv moves Hm).
      rewrite Hm.
      destruct (decide (0 < length (mv :: moves))%nat) as [_ | Hn];
        [| simpl in Hn; lia].
      rewrite random_choices_cons.
      rewrite (bind_weighted _ (fun y => y)), (bind_weighted _ (fun x => Some x.2)).
      do 4 f_equal. apply flat_map_ext. intros a.
      rewrite IH. reflexivity.
  - rewrite move_loop_S, move_loop_new_S, Hld. reflexivity.
Qed.

End LocalWalk.

Lemma move_algorithm_same
    (local_grid_data : coord -> World -> result (list Z)) (move_tag : Type)
    (valid_moves : list Z -> list (move_tag * coord))
    (pos : coord) (world : World) (m : Z) :
  move_algorithm local_grid_data move_tag valid_moves pos world m
  = move_algorithm_new local_grid_data (random_move_direction valid_moves)
      pos world m.
Proof.
  unfold move_algorithm, move_algorithm_new.
  destruct (setitem (grid world) pos 0) as [g | e]; [| reflexivity].
  rewrite !bind_lift_Ok. cbv zeta. rewrite move_loop_same. reflexivity.
Qed.

(** C8.  With the direction helper of the optimized walk sampling as the spec
    has it (uniformly among the candidate directions, [None] when there is
    none), [move_algorithm] and [move_algorithm_new] give every outcome (an
    end position with the world it leaves, or an error) the same
    probability, for every start position, world and number of moves, and
    whatever the neighbourhood query and the candidate filter are.  Where
    there is no candidate move both loops end on the position they are at:
    the optimized one breaks, the reference one idles through the rounds
    that are left. *)
Theorem local_walks_equivalent
    (local_grid_data : coord -> World -> result (list Z)) (move_tag : Type)
    (valid_moves : list Z -> list (move_tag * coord))
    (pos : coord) (world : World) (m : Z) :
  (forall r : result (coord * World),
     (prob (move_algorithm local_grid_data move_tag valid_moves pos world m) r
      == prob (move_algorithm_new local_grid_data
                 (random_move_direction valid_moves) pos world m) r)%Q) /\
  (forall (ld : list Z) (j : nat),
     local_grid_data pos world = Ok ld ->
     valid_moves ld = [] ->
     move_loop local_grid_data move_tag valid_moves world j pos = mret pos /\
     move_loop_new local_grid_data (random_move_direction valid_moves)
       world j pos = mret pos).
Proof.
  split.
  - intros r. rewrite move_algorithm_same. reflexivity.
  - intros ld j Hld Hm. split.
    + apply (move_loop_stay _ _ _ world pos ld j Hld Hm).
    + apply (move_loop_new_stay _ _ _ world pos ld j Hld Hm).
Qed.

Lemma local_walks_equivalent_witness :
  exists world,
    World_init 2 2 2 1 None = Ok world /\
    move_loop (fun _ _ => Ok [1; 1]) Z (fun _ => []) world 3 (0, 0, 1)
      = mret (0, 0, 1) /\
    move_loop_new (fun _ _ => Ok [1; 1])
      (random_move_direction (fun _ : list Z => @nil (Z * coord)))
      world 3 (0, 0, 1) = mret (0, 0, 1).
Proof.
  eexists. split; [reflexivity |].
  match goal with
  | |- move_loop _ _ _ ?w _ _ = _ /\ _ =>
      pose proof (local_walks_equivalent (fun _ _ => Ok [1; 1]) Z
                    (fun _ => []) (0, 0, 1) w 3) as [_ H]
  end.
  apply (H [1; 1] 3%nat); reflexivity.
Defined.

(** ** Outcomes of random calls *)

Lemma possible_listed {A : Type} (m : rand A) (a : A) :
  possible m a -> listed m a.
Proof. intros (q & _ & H). exists q. exact H. Qed.

Lemma listed_mret {A : Type} (a b : A) : listed (mret a) b -> b = a.
Proof.
  intros (q & [H | []]). injection H as _ H. symmetry. exact H.
Qed.

Lemma listed_lift {A : Type} (r : result A) (a : A) : listed (lift r) a -> r = Ok a.
Proof. intros (q & [H | []]). injection H as _ H. exact H. Qed.

Lemma listed_bind {A B : Type} (m : rand A) (k : A -> rand B) (b : B) :
  listed (m ≫= k) b -> exists a, listed m a /\ listed (k a) b.
Proof.
  intros (q & H). unfold mbind, rand_bind in H. simpl in H.
  apply in_flat_map in H as ([q0 r] & Hin & H). simpl in H.
  destruct r as [a | e].
  - apply in_map_iff in H as ([q1 r1] & Heq & H1).
    unfold scale in Heq. simpl in Heq. injection Heq as _ ->.
    exists a. split; [exists q0; exact Hin | exists q1; exact H1].
  - destruct H as [H | []]. discriminate.
Qed.

Ltac inv_listed H :=
  let a := fresh "a" in
  let Ha := fresh "Ha" in
  apply listed_bind in H; destruct H as (a & Ha & H).

(** ** What the agent methods and the policies write *)

Lemma Agent_init_listed (world : World) (agent : Agent) (world' : World) :
  listed (Agent_init world) (agent, world') ->
  exists p g,
    setitem (grid world) p AgentOccupied = Ok g /\
    pos agent = p /\ world' = with_grid world g.
Proof.
  intros H. unfold Agent_init in H.
  inv_listed H. inv_listed H. inv_listed H. inv_listed H.
  apply listed_lift in Ha2. apply listed_mret in H. injection H as -> ->.
  eexists _, _. split; [exact Ha2 |]. split; reflexivity.
Qed.

Lemma place_Ok (self : Agent) (world : World) (self' : Agent) (world' : World) :
  place self world = Ok (self', world') ->
  exists g, setitem (grid world) (pos self) AgentOccupied = Ok g /\
            self' = self /\ world' = with_grid world g.
Proof.
  unfold place. intros H. inv_bind H. injection H as <- <-. eauto.
Qed.

Lemma pickup_Ok (self : Agent) (world : World) (self' : Agent) (world' : World) :
  pickup self world = Ok (self', world') ->
  exists g1 g2 g3,
    setitem (grid world) ((pos self).1.1, (pos self).1.2, (pos self).2 - 1) 0
      = Ok g1 /\
    setitem g1 (pos self) 0 = Ok g2 /\
    setitem g2 (pos self') AgentOccupied = Ok g3 /\
    pos self' = ((pos self).1.1, (pos self).1.2, (pos self).2 - 1) /\
    world' = with_grid world g3.
Proof.
  unfold pickup. destruct (pos self) as [[x y] z]. simpl. intros H.
  inv_bind H. inv_bind H. apply place_Ok in H as (g & Hg & -> & ->).
  simpl in *. exists a, a0, g. repeat split; assumption.
Qed.

Lemma drop_Ok (self : Agent) (world : World) (new_pos : coord)
    (self' : Agent) (world' : World) :
  drop self world new_pos = Ok (self', world') ->
  exists g1 g2,
    setitem (grid world) (pos self) 2 = Ok g1 /\
    setitem g1 new_pos AgentOccupied = Ok g2 /\
    pos self' = new_pos /\
    world' = with_grid world g2.
Proof.
  unfold drop. intros H. inv_bind H.
  apply place_Ok in H as (g & Hg & -> & ->).
  simpl in *. exists a, g. repeat split; assumption.
Qed.

Section PolicyWrites.

Variable skewnorm_cdf : R -> R -> R -> R -> R.
Variable local_grid_data : coord -> World -> result (list Z).
Variable random_move_direction : list Z -> rand (option coord).
Variable compute_height : coord -> World -> result Z.

Lemma move_algorithm_new_listed (p : coord) (world : World) (m : Z)
    (p' : coord) (world' : World) :
  listed (move_algorithm_new local_grid_data random_move_direction p world m)
         (p', world') ->
  exists g0 g1,
    setitem (grid world) p 0 = Ok g0 /\
    setitem g0 p' AgentOccupied = Ok g1 /\
    world' = with_grid world g1.
Proof.
  unfold move_algorithm_new. intros H.
  inv_listed H. inv_listed H. inv_listed H.
  apply listed_lift in Ha, Ha1. apply listed_mret in H. injection H as -> ->.
  exists a, a1. repeat split; assumption.
Qed.

Lemma pickup_algorithm_Ok (p : coord) (world : World) (x_rand : R)
    (material : option Z) (world' : World) :
  pickup_algorithm local_grid_data p world x_rand = Ok (material, world') ->
  world' = world \/
  exists g,
    setitem (grid world) (p.1.1, p.1.2, p.2 - 1) 0 = Ok g /\
    world' = with_grid world g.
Proof.
  unfold pickup_algorithm. destruct p as [[x y] z]. simpl. intros H.
  inv_bind H. destruct (0 <? a); [| injection H as _ <-; left; reflexivity].
  inv_bind H. destruct (Rlt_dec _ _); [| injection H as _ <-; left; reflexivity].
  inv_bind H. inv_bind H. injection H as _ <-. right. eauto.
Qed.

Lemma drop_algorithm_new_listed (p : coord) (world : World) (step : Z)
    (decay_rate x_rand : R) (new_pos : option coord) (world' : World) :
  listed (drop_algorithm_new skewnorm_cdf local_grid_data
            random_move_direction compute_height p world step decay_rate
            x_rand) (new_pos, world') ->
  world' = world \/
  exists g t,
    setitem (grid world) p 2 = Ok g /\
    world' = with_times (with_grid world g) t.
Proof.
  unfold drop_algorithm_new. destruct p as [[x y] z]. intros H.
  inv_listed H. inv_listed H. inv_listed H. inv_listed H.
  destruct (Rlt_dec _ _).
  2: { apply listed_mret in H. injection H as _ ->. left. reflexivity. }
  inv_listed H. destruct a3 as [dir |].
  2: { apply listed_mret in H. injection H as _ ->. left. reflexivity. }
  inv_listed H. inv_listed H. apply listed_lift in Ha4.
  apply listed_mret in H. injection H as _ ->. right. eauto.
Qed.

Lemma drop_algorithm_graph_listed (p : coord) (world : World)
    (graph : odict (list vertex)) (step : Z)
    (decay_rate x_rand : R) (new_pos : option coord) (world' : World) :
  listed (drop_algorithm_graph skewnorm_cdf local_grid_data compute_height
            p world graph step decay_rate x_rand) (new_pos, world') ->
  world' = world \/
  exists g t,
    setitem (grid world) p 2 = Ok g /\
    world' = with_times (with_grid world g) t.
Proof.
  unfold drop_algorithm_graph. intros H. inv_listed H.
  destruct (decide _).
  2: { apply listed_mret in H. injection H as _ ->. left. reflexivity. }
  destruct p as [[x y] z].
  inv_listed H. inv_listed H. inv_listed H. inv_listed H.
  destruct (Rlt_dec _ _).
  2: { apply listed_mret in H. injection H as _ ->. left. reflexivity. }
  inv_listed H. inv_listed H. inv_listed H. apply listed_lift in Ha5.
  apply listed_mret in H. injection H as _ ->. right. eauto.
Qed.

End PolicyWrites.

(** ** The grid under the drivers *)

Lemma is_initial_is_code c : is_initial_code c -> is_code c.
Proof. unfold is_initial_code, is_code. tauto. Qed.

Lemma full_Forall (P : Z -> Prop) (sh : coord) (f : coord -> Z) :
  (forall p, P (f p)) -> Forall P (data (full sh f)).
Proof.
  intros H. destruct sh as [[d0 d1] d2]. simpl.
  apply Forall_forall. intros c Hc.
  apply list_elem_of_bind in Hc as (x & Hc & _).
  apply list_elem_of_bind in Hc as (y & Hc & _).
  apply list_elem_of_bind in Hc as (z & Hc & _).
  apply list_elem_of_singleton in Hc as ->. apply H.
Qed.

Lemma zip_with_Forall (P : Z -> Prop) (f : Z -> Z -> Z) (l k : list Z) :
  Forall P l -> (forall c o, P c -> P (f c o)) -> Forall P (zip_with f l k).
Proof.
  intros Hl Hf. revert k. induction Hl as [| c l Hc Hl IH]; intros k.
  - constructor.
  - destruct k as [| o k]; simpl; [constructor |].
    constructor; [apply Hf; exact Hc | apply IH].
Qed.

Lemma insert_object_initial (g obj : ndarray) :
  Forall is_initial_code (data g) ->
  Forall is_initial_code (data (insert_object g obj)).
Proof.
  intros H. unfold insert_object. destruct (decide _); [| exact H]. simpl.
  apply zip_with_Forall; [exact H |].
  intros c o Hc. destruct (o =? 1); [| exact Hc].
  unfold is_initial_code. tauto.
Qed.

Lemma fold_insert_object_initial (objs : list ndarray) (g : ndarray) :
  Forall is_initial_code (data g) ->
  Forall is_initial_code (data (fold_left insert_object objs g)).
Proof.
  revert g. induction objs as [| obj objs IH]; intros g Hg; simpl; [exact Hg |].
  apply IH. apply insert_object_initial. exact Hg.
Qed.

Lemma World_init_initial width wlength height soil_height objects world :
  World_init width wlength height soil_height objects = Ok world ->
  Forall is_initial_code (data (grid world)).
Proof.
  unfold World_init. destruct (_ || _); [discriminate |].
  intros [= <-]. cbv zeta. cbn [grid].
  assert (H0 : Forall is_initial_code
                 (data (full (width, wlength, height)
                          (fun '(_, _, z) =>
                             if z <? slice_stop height soil_height
                             then Soil else Empty)))).
  { apply full_Forall. intros [[x y] z]. unfold is_initial_code.
    destruct (z <? _); tauto. }
  destruct objects as [objs |]; [| exact H0].
  apply fold_insert_object_initial. exact H0.
Qed.

Lemma setitem_data (g : ndarray) (p : coord) (c : Z) (g' : ndarray) :
  setitem g p c = Ok g' ->
  exists o, offset g p = Ok o /\ (o < length (data g))%nat /\
            data g' = <[o := c]> (data g) /\ shape g' = shape g.
Proof.
  unfold setitem. intros H. inv_bind H.
  destruct (decide _) as [Hlt |]; [| discriminate]. injection H as <-.
  exists a. repeat split; assumption.
Qed.

Lemma setitem_is_code (g : ndarray) (p : coord) (c : Z) (g' : ndarray) :
  setitem g p c = Ok g' -> is_code c ->
  Forall is_code (data g) -> Forall is_code (data g').
Proof.
  intros H Hc Hg. apply setitem_data in H as (o & _ & _ & -> & _).
  apply Forall_insert; assumption.
Qed.

Lemma filter_insert_length (f : Z -> bool) (l : list Z) (i : nat) (v : Z) :
  (length (List.filter f (<[i := v]> l))
   <= length (List.filter f l) + (if f v then 1 else 0))%nat.
Proof.
  revert i. induction l as [| x l IH]; intros i; simpl; [lia |].
  destruct i as [| i]; simpl.
  - destruct (f v), (f x); simpl; lia.
  - specialize (IH i). destruct (f x); simpl; lia.
Qed.

Lemma setitem_count_other (g : ndarray) (p : coord) (c : Z) (g' : ndarray) :
  setitem g p c = Ok g' -> c <> AgentOccupied ->
  (count_code AgentOccupied g' <= count_code AgentOccupied g)%nat.
Proof.
  intros H Hc. apply setitem_data in H as (o & _ & _ & Hd & _).
  unfold count_code. rewrite Hd.
  pose proof (filter_insert_length (fun v => v =? AgentOccupied) (data g) o c)
    as Hle.
  cbv beta in Hle.
  destruct (Z.eqb_spec c AgentOccupied); [contradiction | lia].
Qed.

Lemma setitem_count_agent (g : ndarray) (p : coord) (c : Z) (g' : ndarray) :
  setitem g p c = Ok g' ->
  (count_code AgentOccupied g' <= S (count_code AgentOccupied g))%nat.
Proof.
  intros H. apply setitem_data in H as (o & _ & _ & Hd & _).
  unfold count_code. rewrite Hd.
  pose proof (filter_insert_length (fun v => v =? AgentOccupied) (data g) o c)
    as Hle.
  cbv beta in Hle.
  destruct (c =? AgentOccupied); lia.
Qed.

(** The cells that hold [AgentOccupied], counted by value or by offset. *)
Lemma filter_seq_snoc (c : Z) (l : list Z) (x : Z) (n : nat) :
  (n <= length l)%nat ->
  filter (fun o => (l ++ [x]) !! o = Some c) (seq 0 n)
  = filter (fun o => l !! o = Some c) (seq 0 n).
Proof.
  induction n as [| n IH]; intros Hn; [reflexivity |].
  rewrite seq_S, !filter_app, IH by lia. f_equal. simpl.
  rewrite !filter_cons, !filter_nil. rewrite lookup_app_l by lia.
  destruct (decide (l !! n = Some c)); reflexivity.
Qed.

Lemma count_by_offset (c : Z) (l : list Z) :
  length (List.filter (fun v => v =? c) l)
  = length (filter (fun o => l !! o = Some c) (seq 0 (length l))).
Proof.
  induction l as [| x l IH] using rev_ind; [reflexivity |].
  rewrite List.filter_app, !length_app. simpl length.
  rewrite Nat.add_1_r, seq_S, filter_app, length_app.
  rewrite filter_seq_snoc by lia. rewrite <- IH. f_equal. simpl.
  rewrite filter_cons, filter_nil.
  rewrite lookup_app_r by lia. rewrite Nat.sub_diag. simpl.
  destruct (Z.eqb_spec x c) as [-> | Hne].
  - destruct (decide (Some c = Some c)); [reflexivity | contradiction].
  - destruct (decide (Some x = Some c)); [congruence | reflexivity].
Qed.

Lemma count_agent_cells (g : ndarray) :
  count_code AgentOccupied g = length (agent_cells g).
Proof. apply count_by_offset. Qed.

Lemma agent_offsets_length (g : ndarray) (agents : list Agent) :
  (length (agent_offsets g agents) <= length agents)%nat.
Proof.
  unfold agent_offsets, omap.
  induction agents as [| a agents IH]; simpl; [lia |].
  destruct (offset g (pos a)); simpl; lia.
Qed.

(** No more marked cells than agents, once every marked cell is the cell
    of an agent. *)
Lemma agents_cover_count (g : ndarray) (agents : list Agent) :
  agents_cover g agents ->
  (count_code AgentOccupied g <= length agents)%nat.
Proof.
  intros Hcov. rewrite count_agent_cells.
  etransitivity; [| apply (agent_offsets_length g agents)].
  apply submseteq_length. apply NoDup_submseteq.
  - apply NoDup_filter, NoDup_seq.
  - intros o Ho. apply list_elem_of_filter in Ho as [Ho _].
    destruct (Hcov o Ho) as (a & Ha & Hoff).
    apply list_elem_of_omap. exists a. split; [exact Ha |].
    rewrite Hoff. reflexivity.
Qed.

Lemma setitem_lookup_agent (g : ndarray) (p : coord) (c : Z) (g' : ndarray)
    (o o' : nat) :
  setitem g p c = Ok g' -> offset g p = Ok o ->
  data g' !! o' = Some AgentOccupied ->
  (o' = o /\ c = AgentOccupied) \/
  (o' <> o /\ data g !! o' = Some AgentOccupied).
Proof.
  intros H Ho Hl. apply setitem_data in H as (o0 & Ho0 & Hlt & Hd & _).
  rewrite Ho in Ho0. injection Ho0 as <-. rewrite Hd in Hl.
  destruct (decide (o' = o)) as [-> | Hne].
  - rewrite list_lookup_insert_eq in Hl by exact Hlt. injection Hl as ->.
    left. split; reflexivity.
  - rewrite list_lookup_insert_ne in Hl by congruence. right. split; assumption.
Qed.

Lemma cover_but_write (g g' : ndarray) (agents : list Agent) (i : nat)
    (c : option nat) (p : coord) (v : Z) :
  agents_cover_but g agents i c ->
  setitem g p v = Ok g' -> v <> AgentOccupied ->
  agents_cover_but g' agents i c.
Proof.
  intros Hcov H Hv o' Hl.
  destruct (setitem_data _ _ _ _ H) as (o & Ho & _).
  destruct (setitem_lookup_agent _ _ _ _ _ _ H Ho Hl) as [[_ ->] | [_ Hold]];
    [contradiction |].
  destruct (Hcov o' Hold) as [-> | (j & a & Hj & Ha & Hoff)];
    [left; reflexivity |].
  right. exists j, a. split; [exact Hj |]. split; [exact Ha |].
  rewrite (setitem_offset _ _ _ _ _ H). exact Hoff.
Qed.

Lemma cover_but_clear (g g' : ndarray) (agents : list Agent) (i : nat)
    (o : nat) (p : coord) (v : Z) :
  agents_cover_but g agents i (Some o) ->
  setitem g p v = Ok g' -> offset g p = Ok o -> v <> AgentOccupied ->
  agents_cover_but g' agents i None.
Proof.
  intros Hcov H Ho Hv o' Hl.
  destruct (setitem_lookup_agent _ _ _ _ _ _ H Ho Hl) as [[_ ->] | [Hne Hold]];
    [contradiction |].
  destruct (Hcov o' Hold) as [[= ->] | (j & a & Hj & Ha & Hoff)];
    [contradiction |].
  right. exists j, a. split; [exact Hj |]. split; [exact Ha |].
  rewrite (setitem_offset _ _ _ _ _ H). exact Hoff.
Qed.

Lemma cover_but_mark (g g' : ndarray) (agents : list Agent) (i : nat)
    (o : nat) (p : coord) (v : Z) :
  agents_cover_but g agents i None ->
  setitem g p v = Ok g' -> offset g p = Ok o ->
  agents_cover_but g' agents i (Some o).
Proof.
  intros Hcov H Ho o' Hl.
  destruct (setitem_lookup_agent _ _ _ _ _ _ H Ho Hl) as [[-> _] | [Hne Hold]];
    [left; reflexivity |].
  destruct (Hcov o' Hold) as [[=] | (j & a & Hj & Ha & Hoff)].
  right. exists j, a. split; [exact Hj |]. split; [exact Ha |].
  rewrite (setitem_offset _ _ _ _ _ H). exact Hoff.
Qed.

Lemma cover_to_but (g : ndarray) (agents : list Agent) (i : nat) (a : Agent)
    (o : nat) :
  agents_cover g agents -> agents !! i = Some a -> offset g (pos a) = Ok o ->
  agents_cover_but g agents i (Some o).
Proof.
  intros Hcov Hi Ho o' Hl. destruct (Hcov o' Hl) as (a' & Hin & Hoff).
  apply list_elem_of_lookup in Hin as [j Hj].
  destruct (decide (j = i)) as [-> | Hne].
  - left. rewrite Hi in Hj. injection Hj as <-. congruence.
  - right. exists j, a'. repeat split; assumption.
Qed.

Lemma but_to_cover (g : ndarray) (agents : list Agent) (i : nat) (a' : Agent)
    (o : nat) :
  agents_cover_but g agents i (Some o) -> offset g (pos a') = Ok o ->
  (i < length agents)%nat ->
  agents_cover g (<[i := a']> agents).
Proof.
  intros Hcov Ho Hi o' Hl.
  destruct (Hcov o' Hl) as [[= <-] | (j & a & Hj & Ha & Hoff)].
  - exists a'. split; [| exact Ho].
    apply list_elem_of_lookup. exists i. apply list_lookup_insert_eq. exact Hi.
  - exists a. split; [| exact Hoff].
    apply list_elem_of_lookup. exists j.
    rewrite list_lookup_insert_ne by congruence. exact Ha.
Qed.

Lemma cover_new_agent (g g' : ndarray) (agents : list Agent) (a : Agent) :
  agents_cover g agents ->
  setitem g (pos a) AgentOccupied = Ok g' ->
  agents_cover g' (agents ++ [a]).
Proof.
  intros Hcov H o' Hl.
  destruct (setitem_data _ _ _ _ H) as (o & Ho & _).
  destruct (setitem_lookup_agent _ _ _ _ _ _ H Ho Hl) as [[-> _] | [_ Hold]].
  - exists a. split; [apply elem_of_app; right; apply list_elem_of_singleton;
                      reflexivity |].
    rewrite (setitem_offset _ _ _ _ _ H). exact Ho.
  - destruct (Hcov o' Hold) as (a0 & Hin & Hoff). exists a0.
    split; [apply elem_of_app; left; exact Hin |].
    rewrite (setitem_offset _ _ _ _ _ H). exact Hoff.
Qed.

Lemma initial_no_agent (l : list Z) (o : nat) :
  Forall is_initial_code l -> l !! o <> Some AgentOccupied.
Proof.
  intros Hl Ho. rewrite Forall_forall in Hl.
  assert (Hin : AgentOccupied ∈ l) by (apply list_elem_of_lookup; eauto).
  destruct (Hl _ Hin) as [H | [H | H]]; discriminate H.
Qed.

Lemma initial_count_zero (g : ndarray) :
  Forall is_initial_code (data g) -> count_code AgentOccupied g = 0%nat.
Proof.
  unfold count_code. induction 1 as [| c l Hc Hl IH]; simpl; [reflexivity |].
  destruct (Z.eqb_spec c AgentOccupied) as [-> | _]; [| exact IH].
  destruct Hc as [H | [H | H]]; discriminate H.
Qed.

Lemma code_Empty : is_code 0.
Proof. unfold is_code, Empty. tauto. Qed.

Lemma code_Built : is_code 2.
Proof. unfold is_code, Built. tauto. Qed.

Lemma code_AgentOccupied : is_code AgentOccupied.
Proof. unfold is_code. tauto. Qed.

Lemma pickup_cover (agents : list Agent) (i o : nat) (self : Agent)
    (world : World) (self' : Agent) (world' : World) :
  Forall is_code (data (grid world)) ->
  agents_cover_but (grid world) agents i (Some o) ->
  offset (grid world) (pos self) = Ok o ->
  (i < length agents)%nat ->
  pickup self world = Ok (self', world') ->
  Forall is_code (data (grid world')) /\
  agents_cover (grid world') (<[i := self']> agents).
Proof.
  intros Hcode Hcov Ho Hi H.
  apply pickup_Ok in H as (g1 & g2 & g3 & H1 & H2 & H3 & _ & ->). simpl.
  split.
  { eapply setitem_is_code; [exact H3 | apply code_AgentOccupied |].
    eapply setitem_is_code; [exact H2 | apply code_Empty |].
    eapply setitem_is_code; [exact H1 | apply code_Empty | exact Hcode]. }
  pose proof (cover_but_write _ _ _ _ _ _ _ Hcov H1 ltac:(discriminate)) as K1.
  assert (Ho1 : offset g1 (pos self) = Ok o)
    by (rewrite (setitem_offset _ _ _ _ _ H1); exact Ho).
  pose proof (cover_but_clear _ _ _ _ _ _ _ K1 H2 Ho1 ltac:(discriminate))
    as K2.
  destruct (setitem_data _ _ _ _ H3) as (o3 & Ho3 & _).
  pose proof (cover_but_mark _ _ _ _ _ _ _ K2 H3 Ho3) as K3.
  apply (but_to_cover _ _ _ _ o3 K3); [| exact Hi].
  rewrite (setitem_offset _ _ _ _ _ H3). exact Ho3.
Qed.

Lemma drop_cover (agents : list Agent) (i o : nat) (self : Agent)
    (world : World) (new_pos : coord) (self' : Agent) (world' : World) :
  Forall is_code (data (grid world)) ->
  agents_cover_but (grid world) agents i (Some o) ->
  offset (grid world) (pos self) = Ok o ->
  (i < length agents)%nat ->
  drop self world new_pos = Ok (self', world') ->
  Forall is_code (data (grid world')) /\
  agents_cover (grid world') (<[i := self']> agents).
Proof.
  intros Hcode Hcov Ho Hi H.
  apply drop_Ok in H as (g1 & g2 & H1 & H2 & Hpos & ->). simpl.
  split.
  { eapply setitem_is_code; [exact H2 | apply code_AgentOccupied |].
    eapply setitem_is_code; [exact H1 | apply code_Built | exact Hcode]. }
  pose proof (cover_but_clear _ _ _ _ _ _ _ Hcov H1 Ho ltac:(discriminate))
    as K1.
  destruct (setitem_data _ _ _ _ H2) as (o2 & Ho2 & _).
  pose proof (cover_but_mark _ _ _ _ _ _ _ K1 H2 Ho2) as K2.
  apply (but_to_cover _ _ _ _ o2 K2); [| exact Hi].
  rewrite Hpos, (setitem_offset _ _ _ _ _ H2). exact Ho2.
Qed.

Section Drivers.

Variable skewnorm_cdf : R -> R -> R -> R -> R.
Variable local_grid_data : coord -> World -> result (list Z).
Variable random_move_direction : list Z -> rand (option coord).
Variable compute_height : coord -> World -> result Z.

Lemma agent_based_update_cover (agents : list Agent) (i : nat) (agent : Agent)
    (world : World) (m step : Z) (decay_rate x_rand : R)
    (agent' : Agent) (world' : World) :
  Forall is_code (data (grid world)) ->
  agents_cover (grid world) agents ->
  agents !! i = Some agent ->
  listed (agent_based_update skewnorm_cdf local_grid_data
            random_move_direction compute_height agent world m step
            decay_rate x_rand) (agent', world') ->
  Forall is_code (data (grid world')) /\
  agents_cover (grid world') (<[i := agent']> agents).
Proof.
  intros Hcode Hcov Hi H.
  pose proof (lookup_lt_Some _ _ _ Hi) as Hlt.
  unfold agent_based_update in H. inv_listed H. destruct a as [last_pos w1].
  apply move_algorithm_new_listed in Ha as (g0 & g1 & H0 & H1 & ->).
  destruct (setitem_data _ _ _ _ H0) as (o0 & Ho0 & _).
  destruct (setitem_data _ _ _ _ H1) as (o1 & Ho1 & _).
  pose proof (cover_to_but _ _ _ _ _ Hcov Hi Ho0) as K.
  pose proof (cover_but_clear _ _ _ _ _ _ _ K H0 Ho0 ltac:(discriminate)) as K0.
  pose proof (cover_but_mark _ _ _ _ _ _ _ K0 H1 Ho1) as K1.
  assert (Hc1 : Forall is_code (data g1)).
  { eapply setitem_is_code; [exact H1 | apply code_AgentOccupied |].
    eapply setitem_is_code; [exact H0 | apply code_Empty | exact Hcode]. }
  assert (Hp1 : offset g1 last_pos = Ok o1)
    by (rewrite (setitem_offset _ _ _ _ _ H1); exact Ho1).
  simpl in H. destruct (has_pellet agent =? 0).
  - inv_listed H. destruct a as [material w2]. apply listed_lift in Ha.
    assert (Hw2 : Forall is_code (data (grid w2)) /\
                  agents_cover_but (grid w2) agents i (Some o1) /\
                  offset (grid w2) last_pos = Ok o1).
    { apply pickup_algorithm_Ok in Ha as [-> | (g2 & H2 & ->)]; simpl.
      - auto.
      - split; [eapply setitem_is_code; [exact H2 | apply code_Empty | exact Hc1] |].
        split; [apply (cover_but_write _ _ _ _ _ _ _ K1 H2); discriminate |].
        rewrite (setitem_offset _ _ _ _ _ H2). exact Hp1. }
    destruct Hw2 as (Hc2 & K2 & Hp2).
    destruct material as [mat |].
    + apply listed_lift in H.
      apply (pickup_cover agents i o1
               {| pos := last_pos; has_pellet := has_pellet agent |}
               w2 _ _ Hc2 K2 Hp2 Hlt H).
    + apply listed_mret in H. injection H as -> ->.
      split; [exact Hc2 |].
      apply (but_to_cover _ _ _
               {| pos := last_pos; has_pellet := has_pellet agent |}
               o1 K2 Hp2 Hlt).
  - inv_listed H. destruct a as [new_pos w2].
    assert (Hw2 : Forall is_code (data (grid w2)) /\
                  agents_cover_but (grid w2) agents i (Some o1) /\
                  offset (grid w2) last_pos = Ok o1).
    { apply drop_algorithm_new_listed in Ha as [-> | (g2 & t & H2 & ->)]; simpl.
      - auto.
      - split; [eapply setitem_is_code; [exact H2 | apply code_Built | exact Hc1] |].
        split; [apply (cover_but_write _ _ _ _ _ _ _ K1 H2); discriminate |].
        rewrite (setitem_offset _ _ _ _ _ H2). exact Hp1. }
    destruct Hw2 as (Hc2 & K2 & Hp2).
    destruct new_pos as [new_pos |].
    + apply listed_lift in H.
      apply (drop_cover agents i o1
               {| pos := last_pos; has_pellet := has_pellet agent |}
               w2 new_pos _ _ Hc2 K2 Hp2 Hlt H).
    + apply listed_mret in H. injection H as -> ->.
      split; [exact Hc2 |].
      apply (but_to_cover _ _ _
               {| pos := last_pos; has_pellet := has_pellet agent |}
               o1 K2 Hp2 Hlt).
Qed.

Lemma agent_based_reachable_cover (st : World * list Agent) :
  agent_based_reachable skewnorm_cdf local_grid_data random_move_direction
    compute_height st ->
  Forall is_code (data (grid st.1)) /\ agents_cover (grid st.1) st.2.
Proof.
  induction 1 as [width wlength height soil_height objects world Hinit
                 | world agents agent world' _ IH Hagent
                 | world agents i agent m step decay_rate x_rand agent' world'
                     _ IH Hi Hupd]; simpl in *.
  - pose proof (World_init_initial _ _ _ _ _ _ Hinit) as H0. split.
    + eapply Forall_impl; [exact H0 | apply is_initial_is_code].
    + intros o Ho. exfalso. exact (initial_no_agent _ o H0 Ho).
  - destruct IH as [Hcode Hcov].
    apply possible_listed, Agent_init_listed in Hagent
      as (p & g & Hg & <- & ->). simpl. split.
    + eapply setitem_is_code; [exact Hg | apply code_AgentOccupied | exact Hcode].
    + apply (cover_new_agent _ _ _ _ Hcov Hg).
  - destruct IH as [Hcode Hcov].
    apply possible_listed in Hupd.
    apply (agent_based_update_cover _ _ _ _ _ _ _ _ _ _ Hcode Hcov Hi Hupd).
Qed.

Lemma markov_update_count (agent : Agent) (world : World)
    (graph : odict (list vertex)) (random_pos : coord) (step : Z)
    (decay_rate x_rand : R) (agent' : Agent) (world' : World) :
  listed (markov_update skewnorm_cdf local_grid_data compute_height agent
            world graph random_pos step decay_rate x_rand) (agent', world') ->
  Forall is_code (data (grid world)) ->
  Forall is_code (data (grid world')) /\
  (count_code AgentOccupied (grid world')
   <= count_code AgentOccupied (grid world))%nat.
Proof.
  intros H Hcode. unfold markov_update in H. simpl in H.
  destruct (has_pellet agent =? 0).
  - inv_listed H. destruct a as [material w2]. apply listed_lift in Ha.
    assert (world' = w2) as ->.
    { destruct material; apply listed_mret in H; injection H as _ ->;
        reflexivity. }
    apply pickup_algorithm_Ok in Ha as [-> | (g2 & H2 & ->)]; simpl.
    + split; [exact Hcode | lia].
    + split; [eapply setitem_is_code; [exact H2 | apply code_Empty | exact Hcode] |].
      apply (setitem_count_other _ _ _ _ H2). discriminate.
  - inv_listed H. destruct a as [new_pos w2].
    assert (world' = w2) as ->.
    { destruct new_pos; apply listed_mret in H; injection H as _ ->;
        reflexivity. }
    apply drop_algorithm_graph_listed in Ha as [-> | (g2 & t & H2 & ->)]; simpl.
    + split; [exact Hcode | lia].
    + split; [eapply setitem_is_code; [exact H2 | apply code_Built | exact Hcode] |].
      apply (setitem_count_other _ _ _ _ H2). discriminate.
Qed.

Lemma markov_reachable_inv (st : World * list Agent) :
  markov_reachable skewnorm_cdf local_grid_data compute_height st ->
  grid_inv st.
Proof.
  unfold grid_inv.
  induction 1 as [width wlength height soil_height objects world Hinit
                 | world agents agent world' _ IH Hagent
                 | world agents i agent graph random_pos step decay_rate
                     x_rand agent' world' _ IH Hi Hupd]; simpl in *.
  - pose proof (World_init_initial _ _ _ _ _ _ Hinit) as H0. split.
    + eapply Forall_impl; [exact H0 | apply is_initial_is_code].
    + rewrite (initial_count_zero _ H0). lia.
  - destruct IH as [Hcode Hcount].
    apply possible_listed, Agent_init_listed in Hagent
      as (p & g & Hg & _ & ->). simpl. split.
    + eapply setitem_is_code; [exact Hg | apply code_AgentOccupied | exact Hcode].
    + pose proof (setitem_count_agent _ _ _ _ Hg). rewrite length_app. simpl. lia.
  - destruct IH as [Hcode Hcount].
    apply possible_listed in Hupd.
    destruct (markov_update_count _ _ _ _ _ _ _ _ _ Hupd Hcode) as [Hc' Hle].
    split; [exact Hc' |]. rewrite length_insert. lia.
Qed.

(** C1, as the code has it.  In every state a driver reaches (the world
    built, agents created, and then any number of per-agent updates of the
    agent-based or of the Markov driver) every grid cell holds one of the
    five material codes, and the number of cells that hold [AgentOccupied]
    is at most the number of agents. *)
Theorem grid_codes_and_agent_cells (st : World * list Agent) :
  agent_based_reachable skewnorm_cdf local_grid_data random_move_direction
    compute_height st \/
  markov_reachable skewnorm_cdf local_grid_data compute_height st ->
  Forall is_code (data (grid st.1)) /\
  (count_code AgentOccupied (grid st.1) <= length st.2)%nat.
Proof.
  intros [H | H].
  - destruct (agent_based_reachable_cover st H) as [Hcode Hcov].
    split; [exact Hcode | apply agents_cover_count; exact Hcov].
  - apply (markov_reachable_inv st H).
Qed.

End Drivers.

(** Two agents created one after the other in a 2 x 2 x 2 world can both
    land on the cell [(0, 0, 1)]: the second constructor draws its x from
    [[0; 1; 1]] and its y from [[1; 0; 1]], the coordinates of the three
    cells that are still empty, and the two draws are independent. *)
Lemma two_agents_on_one_cell :
  exists world,
    agent_based_reachable (fun x _ _ _ => x) (fun _ _ => Ok [])
      (fun _ => mret None) (fun _ _ => Ok 0)
      (world, [ {| pos := (0, 0, 1); has_pellet := 0 |};
                {| pos := (0, 0, 1); has_pellet := 0 |} ]) /\
    count_code AgentOccupied (grid world) = 1%nat.
Proof.
  destruct (World_init 2 2 2 1 None) as [w0 | e] eqn:Hw0; [| discriminate].
  pose proof (ab_world (fun x _ _ _ => x) (fun _ _ => Ok [])
                (fun _ => mret None) (fun _ _ => Ok 0) _ _ _ _ _ _ Hw0) as R0.
  injection Hw0 as <-.
  eexists. split.
  - eapply (ab_agent _ _ _ _ _ [ {| pos := (0, 0, 1); has_pellet := 0 |} ]
                     {| pos := (0, 0, 1); has_pellet := 0 |} _).
    + eapply (ab_agent _ _ _ _ _ [] {| pos := (0, 0, 1); has_pellet := 0 |} _);
        [exact R0 |].
      eexists. split; [| vm_compute; left; reflexivity]. reflexivity.
    + eexists. split; [| vm_compute; right; left; reflexivity]. reflexivity.
  - reflexivity.
Qed.

Lemma grid_codes_and_agent_cells_witness :
  exists world,
    agent_based_reachable (fun x _ _ _ => x) (fun _ _ => Ok [])
      (fun _ => mret None) (fun _ _ => Ok 0)
      (world, [ {| pos := (0, 0, 1); has_pellet := 0 |};
                {| pos := (0, 0, 1); has_pellet := 0 |} ]) /\
    Forall is_code (data (grid world)) /\
    (count_code AgentOccupied (grid world) <= 2)%nat.
Proof.
  destruct two_agents_on_one_cell as (world & Hreach & _).
  exists world. split; [exact Hreach |].
  apply (grid_codes_and_agent_cells (fun x _ _ _ => x) (fun _ _ => Ok [])
           (fun _ => mret None) (fun _ _ => Ok 0)
           (world, [ {| pos := (0, 0, 1); has_pellet := 0 |};
                     {| pos := (0, 0, 1); has_pellet := 0 |} ])).
  left. exact Hreach.
Defined.

Lemma prob_pickup_pos (N : Z) : (0 <= N)%Z -> (0 < prob_pickup N)%R.
Proof.
  intros HN. unfold prob_pickup.
  assert (H : (0 < eta_p N)%R).
  { unfold eta_p. destruct (Z.eqb_spec N 0) as [-> | Hne]; [lra |].
    apply Rdiv_lt_0_compat; [lra |]. apply IZR_lt. lia. }
  pose proof (exp_increasing (- eta_p N) 0 ltac:(lra)) as Hexp.
  rewrite exp_0 in Hexp. lra.
Qed.

(** The Markov driver on one agent in a 2 x 2 x 2 world: the agent is
    created on [(0, 0, 1)], is then sent to the vertex [(1, 1, 1)] where it
    picks up (draw [0]), and is at last sent back to the vertex
    [(0, 0, 1)], where its drop (draw [0]) overwrites the mark that the
    constructor left there. *)
Lemma markov_run :
  markov_reachable (fun x _ _ _ => x) (fun _ _ => Ok []) (fun _ _ => Ok 0)
    (small_world [1; 2; 1; 0; 1; 0; 0; 0] 1,
     [ {| pos := (1, 0, 1); has_pellet := 0 |} ]).
Proof.
  assert (R0 : markov_reachable (fun x _ _ _ => x) (fun _ _ => Ok [])
                 (fun _ _ => Ok 0)
                 (small_world [1; 0; 1; 0; 1; 0; 1; 0] (- 10 ^ 9), [])).
  { apply (mk_world _ _ _ 2 2 2 1 None). reflexivity. }
  assert (R1 : markov_reachable (fun x _ _ _ => x) (fun _ _ => Ok [])
                 (fun _ _ => Ok 0)
                 (small_world [1; -2; 1; 0; 1; 0; 1; 0] (- 10 ^ 9),
                  [ {| pos := (0, 0, 1); has_pellet := 0 |} ])).
  { apply (mk_agent _ _ _ _ [] {| pos := (0, 0, 1); has_pellet := 0 |} _ R0).
    eexists. split; [| vm_compute; left; reflexivity]. reflexivity. }
  assert (R2 : markov_reachable (fun x _ _ _ => x) (fun _ _ => Ok [])
                 (fun _ _ => Ok 0)
                 (small_world [1; -2; 1; 0; 1; 0; 0; 0] (- 10 ^ 9),
                  [ {| pos := (1, 1, 0); has_pellet := 1 |} ])).
  { apply (mk_update _ _ _ _ _ 0%nat {| pos := (0, 0, 1); has_pellet := 0 |}
             [((0, 0, 1), [(1, 0, 1)])] (1, 1, 1) 0 1%R 0%R
             {| pos := (1, 1, 0); has_pellet := 1 |} _ R1 eq_refl).
    exists 1%Q. split; [reflexivity |].
    unfold markov_update, pickup_algorithm. simpl.
    destruct (Rlt_dec 0 (prob_pickup (np_sum_eq [] 2))) as [_ | Hn].
    - left. reflexivity.
    - exfalso. apply Hn. apply prob_pickup_pos. discriminate. }
  apply (mk_update _ _ _ _ _ 0%nat {| pos := (1, 1, 0); has_pellet := 1 |}
           [((0, 0, 1), [(1, 0, 1)])] (0, 0, 1) 1 1%R 0%R
           {| pos := (1, 0, 1); has_pellet := 0 |} _ R2 eq_refl).
  exists 1%Q. split; [reflexivity |].
  unfold markov_update, drop_algorithm_graph. simpl.
  destruct (Rlt_dec 0 0.025) as [_ | Hn].
  - left. reflexivity.
  - exfalso. apply Hn. lra.
Qed.

(** C1, counterexample: a state the Markov driver reaches with one agent
    and no cell that holds [AgentOccupied].  That driver moves its agents
    by assigning [agent.pos] and never marks the grid, so the mark of the
    constructor stays behind and the drop on that vertex overwrites it. *)
Lemma markov_drop_erases_agent_mark :
  exists world agents,
    markov_reachable (fun x _ _ _ => x) (fun _ _ => Ok []) (fun _ _ => Ok 0)
      (world, agents) /\
    count_code AgentOccupied (grid world) = 0%nat /\
    length agents = 1%nat /\
    count_code AgentOccupied (grid world) <> length agents.
Proof.
  exists (small_world [1; 2; 1; 0; 1; 0; 0; 0] 1),
    [ {| pos := (1, 0, 1); has_pellet := 0 |} ].
  split; [exact markov_run |]. split; [reflexivity |].
  split; [reflexivity |]. simpl. discriminate.
Qed.

(** * Further properties *)

(** ** The layout of a new world *)

Lemma bind_lookup_block {A B : Type} (h : A -> list B) (n : nat) (l : list A)
    (i j : nat) (a : A) :
  (forall a, length (h a) = n) -> l !! i = Some a -> (j < n)%nat ->
  (l ≫= h) !! (i * n + j)%nat = h a !! j.
Proof.
  intros Hlen. revert i. induction l as [|b l IH]; intros i Hi Hj; [done|].
  destruct i as [|i]; simpl in *.
  - injection Hi as ->. rewrite lookup_app_l by (rewrite Hlen; lia). done.
  - rewrite lookup_app_r by (rewrite Hlen; lia).
    rewrite Hlen. replace (n + i * n + j - n)%nat with (i * n + j)%nat by lia.
    by apply IH.
Qed.

Lemma bind_length_block {A B : Type} (h : A -> list B) (n : nat) (l : list A) :
  (forall a, length (h a) = n) -> length (l ≫= h) = (length l * n)%nat.
Proof.
  intros Hlen. induction l as [|b l IH]; [done|].
  change ((b :: l) ≫= h) with (h b ++ (l ≫= h)).
  rewrite length_app, Hlen, IH. simpl. lia.
Qed.

Lemma full_length (d0 d1 d2 : Z) (f : coord -> Z) :
  length (data (full (d0, d1, d2) f))
  = (Z.to_nat d0 * (Z.to_nat d1 * Z.to_nat d2))%nat.
Proof.
  simpl.
  rewrite (bind_length_block _ (Z.to_nat d1 * Z.to_nat d2)), range_length;
    [done|].
  intros x. rewrite (bind_length_block _ (Z.to_nat d2)), range_length; [done|].
  intros y. rewrite (bind_length_block _ 1%nat), range_length; [lia|done].
Qed.

Lemma full_wf (d0 d1 d2 : Z) (f : coord -> Z) :
  0 <= d0 -> 0 <= d1 -> 0 <= d2 -> wf_ndarray (full (d0, d1, d2) f).
Proof.
  intros H0 H1 H2. unfold wf_ndarray. rewrite full_length.
  simpl. repeat split; lia.
Qed.

Lemma getitem_full (d0 d1 d2 : Z) (f : coord -> Z) (x y z : Z) :
  0 <= x < d0 -> 0 <= y < d1 -> 0 <= z < d2 ->
  getitem (full (d0, d1, d2) f) (x, y, z) = Ok (f (x, y, z)).
Proof.
  intros Hx Hy Hz. unfold getitem.
  rewrite offset_plain by (unfold in_bounds; simpl; lia).
  simpl.
  replace (Z.to_nat ((x * d1 + y) * d2 + z))
    with (Z.to_nat x * (Z.to_nat d1 * Z.to_nat d2)
          + (Z.to_nat y * Z.to_nat d2 + (Z.to_nat z * 1 + 0)))%nat.
  2:{ assert (0 <= x * d1) by (apply Z.mul_nonneg_nonneg; lia).
      assert (0 <= (x * d1 + y) * d2) by (apply Z.mul_nonneg_nonneg; lia).
      rewrite Z2Nat.inj_add, Z2Nat.inj_mul, Z2Nat.inj_add, Z2Nat.inj_mul
        by lia.
      ring. }
  rewrite (bind_lookup_block _ (Z.to_nat d1 * Z.to_nat d2) _ _ _ x).
  - rewrite (bind_lookup_block _ (Z.to_nat d2) _ _ _ y).
    + rewrite (bind_lookup_block _ 1%nat _ _ _ z); [done|done| |lia].
      rewrite range_lookup by lia. f_equal. lia.
    + intros b. rewrite (bind_length_block _ 1%nat), range_length; [lia|done].
    + rewrite range_lookup by lia. f_equal. lia.
    + lia.
  - intros a. rewrite (bind_length_block _ (Z.to_nat d2)), range_length; [done|].
    intros b. rewrite (bind_length_block _ 1%nat), range_length; [lia|done].
  - rewrite range_lookup by lia. f_equal. lia.
  - nia.
Qed.

Lemma World_init_fields (w l h s : Z) (objects : option (list ndarray))
    (world : World) :
  World_init w l h s objects = Ok world ->
  0 <= w /\ 0 <= l /\ 0 <= h /\
  grid world
  = (let g0 := full (w, l, h)
                 (fun '(_, _, z) =>
                    if z <? slice_stop h s then Soil else Empty)
     in match objects with
        | None => g0
        | Some objs => fold_left insert_object objs g0
        end) /\
  times world = full (w, l, h) (fun _ => - 10 ^ 9) /\
  width world = w /\ wlength world = l /\ height world = h /\
  soil_height world = s.
Proof.
  unfold World_init.
  destruct (w <? 0) eqn:E0, (l <? 0) eqn:E1, (h <? 0) eqn:E2;
    try discriminate.
  intros [= <-]. repeat split; lia.
Qed.

(** X1.  A world built without objects: the cell (x, y, z) of the grid is
    soil exactly in the layers that the slice [:soil_height] selects, which
    for a negative soil height are all but the top [- soil_height] ones; it
    is empty elsewhere, and every cell of the time tensor holds -10^9. *)
Theorem World_init_layout (width wlength height soil_height : Z)
    (world : World) (x y z : Z) :
  World_init width wlength height soil_height None = Ok world ->
  0 <= x < width -> 0 <= y < wlength -> 0 <= z < height ->
  (0 <= soil_height ->
   getitem (grid world) (x, y, z)
   = Ok (if z <? soil_height then Soil else Empty)) /\
  (soil_height < 0 ->
   getitem (grid world) (x, y, z)
   = Ok (if z <? height + soil_height then Soil else Empty)) /\
  getitem (times world) (x, y, z) = Ok (- 10 ^ 9).
Proof.
  intros H Hx Hy Hz.
  apply World_init_fields in H as (_ & _ & _ & -> & -> & _). cbv zeta.
  rewrite !getitem_full by assumption.
  unfold slice_stop. repeat split.
  - intros Hs. destruct (soil_height <? 0) eqn:E; [lia|].
    do 2 f_equal. destruct (z <? Z.min _ _) eqn:E1, (z <? soil_height) eqn:E2;
      try reflexivity; lia.
  - intros Hs. destruct (soil_height <? 0) eqn:E; [|lia].
    destruct (z <? Z.max _ _) eqn:E1, (z <? height + soil_height) eqn:E2;
      try reflexivity; lia.
Qed.

Lemma World_init_layout_witness :
  getitem (grid (small_world [1; 0; 1; 0; 1; 0; 1; 0] (- 10 ^ 9))) (1, 0, 1)
  = Ok Empty.
Proof.
  assert (H : World_init 2 2 2 1 None
              = Ok (small_world [1; 0; 1; 0; 1; 0; 1; 0] (- 10 ^ 9)))
    by reflexivity.
  destruct (World_init_layout 2 2 2 1 _ 1 0 1 H) as (H1 & _ & _);
    [lia | lia | lia |].
  apply H1. lia.
Defined.

(** ** Objects of a new world *)

Lemma insert_object_shape (g obj : ndarray) :
  shape (insert_object g obj) = shape g.
Proof. unfold insert_object. destruct (decide _); reflexivity. Qed.

Lemma insert_object_wf (g obj : ndarray) :
  wf_ndarray g -> wf_ndarray obj -> wf_ndarray (insert_object g obj).
Proof.
  intros Hg Ho. unfold insert_object. destruct (decide _) as [E|]; [|exact Hg].
  destruct Hg as (H0 & H1 & H2 & Hl), Ho as (_ & _ & _ & Hl').
  unfold wf_ndarray. simpl. rewrite length_zip_with, Hl, Hl', E.
  repeat split; try assumption. lia.
Qed.

Lemma insert_object_getitem (g obj : ndarray) (p : coord) (c : Z) :
  wf_ndarray g -> wf_ndarray obj -> getitem g p = Ok c ->
  getitem (insert_object g obj) p
  = Ok (if decide (shape obj = shape g /\ getitem obj p = Ok 1)
        then Obstacle else c).
Proof.
  intros Hg Ho Hc. unfold insert_object.
  destruct (decide (shape obj = shape g)) as [E|E].
  2:{ rewrite Hc. destruct (decide _) as [[? _]|]; [contradiction|done]. }
  unfold getitem in *.
  assert (Eo : offset obj p = offset g p).
  { unfold offset. rewrite E. reflexivity. }
  assert (Eo' : offset {| shape := shape g;
                          data := zip_with (fun c o => if o =? 1 then Obstacle else c)
                                    (data g) (data obj) |} p = offset g p)
    by reflexivity.
  rewrite Eo', Eo. destruct (offset g p) as [o|e] eqn:Hoff; [|discriminate].
  simpl in *. rewrite lookup_zip_with.
  destruct (data g !! o) as [c'|] eqn:Hgo; [|discriminate].
  injection Hc as ->.
  assert (Hlt : (o < length (data obj))%nat).
  { apply lookup_lt_Some in Hgo.
    destruct Hg as (_ & _ & _ & Hl), Ho as (_ & _ & _ & Hl').
    rewrite Hl', E, <- Hl. exact Hgo. }
  apply lookup_lt_is_Some in Hlt as [v Hv]. rewrite Hv. simpl.
  destruct (v =? 1) eqn:Ev.
  - apply Z.eqb_eq in Ev as ->. rewrite decide_True; [done|]. done.
  - rewrite decide_False; [done|]. intros [_ [= ->]]. discriminate.
Qed.

Lemma fold_insert_object_shape (objs : list ndarray) (g : ndarray) :
  shape (fold_left insert_object objs g) = shape g.
Proof.
  revert g. induction objs as [|obj objs IH]; intros g; simpl; [done|].
  rewrite IH. apply insert_object_shape.
Qed.

Lemma fold_insert_object_getitem (objs : list ndarray) (g : ndarray)
    (p : coord) (c : Z) :
  wf_ndarray g -> Forall wf_ndarray objs -> getitem g p = Ok c ->
  ((exists obj, obj ∈ objs /\ shape obj = shape g /\ getitem obj p = Ok 1) ->
   getitem (fold_left insert_object objs g) p = Ok Obstacle) /\
  ((forall obj, obj ∈ objs -> shape obj = shape g -> getitem obj p <> Ok 1) ->
   getitem (fold_left insert_object objs g) p = Ok c) /\
  (c = Obstacle -> getitem (fold_left insert_object objs g) p = Ok Obstacle).
Proof.
  intros Hg Hobjs. revert g c Hg.
  induction Hobjs as [|obj objs Ho Hobjs IH]; intros g c Hg Hc; simpl.
  { repeat split; [intros (obj & Hin & _); inversion Hin | done
                  | intros ->; done]. }
  pose proof (insert_object_getitem g obj p c Hg Ho Hc) as Hstep.
  pose proof (insert_object_wf g obj Hg Ho) as Hwf.
  destruct (IH _ _ Hwf Hstep) as (IH1 & IH2 & IH3).
  rewrite insert_object_shape in IH1, IH2.
  repeat split.
  - intros (o' & Hin & Hsh & H1).
    apply elem_of_cons in Hin as [->|Hin].
    + apply IH3. rewrite decide_True; done.
    + apply IH1. eauto.
  - intros Hnone. rewrite IH2.
    + rewrite decide_False; [done|]. intros [Hsh H1].
      apply (Hnone obj); [left|done|done].
    + intros o' Hin. apply Hnone. by right.
  - intros ->. apply IH3. destruct (decide _); done.
Qed.

(** X2.  Objects of a new world: a cell is an obstacle as soon as one of
    the objects has the shape of the grid and holds 1 there, whatever comes
    after it in the list; objects of another shape are passed over, and a
    cell that no object of the right shape marks keeps its soil or empty
    code. *)
Theorem World_init_objects (width wlength height soil_height : Z)
    (objs : list ndarray) (world : World) (x y z : Z) :
  World_init width wlength height soil_height (Some objs) = Ok world ->
  Forall wf_ndarray objs ->
  0 <= x < width -> 0 <= y < wlength -> 0 <= z < height ->
  ((exists obj, obj ∈ objs /\ shape obj = (width, wlength, height) /\
                getitem obj (x, y, z) = Ok 1) ->
   getitem (grid world) (x, y, z) = Ok Obstacle) /\
  ((forall obj, obj ∈ objs -> shape obj = (width, wlength, height) ->
                getitem obj (x, y, z) <> Ok 1) ->
   getitem (grid world) (x, y, z)
   = Ok (if z <? slice_stop height soil_height then Soil else Empty)).
Proof.
  intros H Hobjs Hx Hy Hz.
  apply World_init_fields in H as (H0 & H1 & H2 & -> & _). cbv zeta.
  pose (f := (fun '(_, _, z0) =>
                if z0 <? slice_stop height soil_height then Soil else Empty)
             : coord -> Z).
  pose proof (full_wf width wlength height f H0 H1 H2) as Hwf.
  pose proof (getitem_full width wlength height f x y z Hx Hy Hz) as Hget.
  destruct (fold_insert_object_getitem objs _ (x, y, z) _ Hwf Hobjs Hget)
    as (G1 & G2 & _).
  split; [exact G1 | exact G2].
Qed.

Lemma World_init_objects_witness :
  getitem (grid (small_world [1; -1; 1; 0; 1; 0; 1; 0] (- 10 ^ 9))) (0, 0, 1)
  = Ok Obstacle.
Proof.
  pose (obj := {| shape := (2, 2, 2); data := [0; 1; 0; 0; 0; 0; 0; 0] |}).
  pose (other := {| shape := (1, 1, 1); data := [1] |}).
  assert (H : World_init 2 2 2 1 (Some [other; obj])
              = Ok (small_world [1; -1; 1; 0; 1; 0; 1; 0] (- 10 ^ 9)))
    by reflexivity.
  assert (Hwf : Forall wf_ndarray [other; obj]).
  { repeat constructor; simpl; lia. }
  destruct (World_init_objects 2 2 2 1 _ _ 0 0 1 H Hwf) as (H1 & _);
    [lia | lia | lia |].
  apply H1. exists obj. split; [right; left | split; reflexivity].
Defined.

(** ** Creating an agent *)

Lemma possible_mret {A : Type} (a : A) : possible (mret a) a.
Proof. exists 1%Q. split; [reflexivity | left; reflexivity]. Qed.

Lemma possible_lift {A : Type} (a : A) : possible (lift (Ok a)) a.
Proof. exists 1%Q. split; [reflexivity | left; reflexivity]. Qed.

Lemma possible_bind {A B : Type} (m : rand A) (k : A -> rand B) (a : A) (b : B) :
  possible m a -> possible (k a) b -> possible (m ≫= k) b.
Proof.
  intros (q & Hq & Hin) (q' & Hq' & Hin').
  exists (q * q')%Q. split; [apply Qmult_lt_0_compat; assumption|].
  unfold mbind, rand_bind. simpl. apply in_flat_map.
  exists (q, Ok a). split; [exact Hin|]. simpl.
  apply in_map_iff. exists (q', Ok b). split; [reflexivity | exact Hin'].
Qed.

Lemma possible_np_random_choice {A : Type} (l : list A) (a : A) :
  a ∈ l -> possible (np_random_choice l) a.
Proof.
  intros Hin. destruct l as [|b l]; [inversion Hin|].
  unfold np_random_choice, uniform.
  exists (1 # Pos.of_nat (length (b :: l)))%Q. split; [reflexivity|].
  cbn [outcomes]. apply in_map_iff. exists a. split; [reflexivity|].
  apply list_elem_of_In. exact Hin.
Qed.

Lemma listed_np_random_choice {A : Type} (l : list A) (a : A) :
  listed (np_random_choice l) a -> a ∈ l.
Proof.
  intros (q & Hin). destruct l as [|b l].
  - destruct Hin as [[=]|[]].
  - unfold np_random_choice, uniform in Hin. cbn [outcomes] in Hin.
    apply in_map_iff in Hin as (a' & [= _ ->] & Hin).
    apply list_elem_of_In. exact Hin.
Qed.

Lemma offset_norm_z (a : ndarray) (x y k k' : Z) :
  norm_index (shape a).2 k = Ok k' -> offset a (x, y, k') = offset a (x, y, k).
Proof.
  intros Hk. unfold offset. destruct (shape a) as [[d0 d1] d2]. simpl in Hk.
  rewrite Hk. apply norm_index_Ok in Hk.
  rewrite (norm_index_plain d2 k') by exact Hk. reflexivity.
Qed.

Lemma where_layer_Ok (a : ndarray) (k v : Z) (xs ys : list Z) :
  where_layer a k v = Ok (xs, ys) ->
  exists hits : list (Z * Z),
    xs = map fst hits /\ ys = map snd hits /\
    forall x y, (x, y) ∈ hits <->
                (0 <= x < (shape a).1.1 /\ 0 <= y < (shape a).1.2 /\
                 getitem a (x, y, k) = Ok v).
Proof.
  unfold where_layer.
  destruct (shape a) as [[d0 d1] d2] eqn:Hsh. intros H. inv_bind H.
  injection H as <- <-. eexists. split; [reflexivity|]. split; [reflexivity|].
  intros x y. rewrite list_elem_of_In, filter_In, <- list_elem_of_In. simpl.
  assert (Hoff : getitem a (x, y, a0) = getitem a (x, y, k)).
  { apply getitem_same_offset. apply offset_norm_z. rewrite Hsh. exact Ha. }
  rewrite Hoff. split.
  - intros [Hin Hc].
    apply list_elem_of_bind in Hin as (x' & Hin & Hx).
    apply list_elem_of_bind in Hin as (y' & Hin & Hy).
    apply list_elem_of_singleton in Hin as [= -> ->].
    apply elem_of_range in Hx, Hy.
    destruct (getitem a (x', y', k)) as [c|]; [|discriminate].
    apply Z.eqb_eq in Hc as ->. done.
  - intros (Hx & Hy & ->). split; [|apply Z.eqb_refl].
    apply list_elem_of_bind. exists x. split; [|by apply elem_of_range].
    apply list_elem_of_bind. exists y. split; [|by apply elem_of_range].
    by apply list_elem_of_singleton.
Qed.

Lemma where_layer_Raise (a : ndarray) (k v : Z) :
  k < - (shape a).2 \/ (shape a).2 <= k ->
  where_layer a k v = Raise IndexError.
Proof.
  intros H. unfold where_layer. destruct (shape a) as [[d0 d1] d2].
  simpl in H. rewrite (norm_index_out d2 k H). reflexivity.
Qed.

Lemma where_layer_defined (a : ndarray) (k v : Z) :
  - (shape a).2 <= k < (shape a).2 ->
  exists xs ys, where_layer a k v = Ok (xs, ys).
Proof.
  intros H. unfold where_layer. destruct (shape a) as [[d0 d1] d2].
  simpl in H. destruct (Z_lt_ge_dec k 0).
  - rewrite norm_index_wrap by lia. simpl. eauto.
  - rewrite norm_index_plain by lia. simpl. eauto.
Qed.

(** X3.  What [Agent.__init__] yields: an agent without pellet on the
    layer [soil_height], whose cell is now marked; its x is the x of some
    empty cell of that layer and its y the y of some empty cell of that
    layer, the two cells being drawn apart; the time tensor is as before. *)
Theorem Agent_init_outcome (world : World) (agent : Agent) (world' : World) :
  possible (Agent_init world) (agent, world') ->
  has_pellet agent = 0 /\
  (pos agent).2 = soil_height world /\
  (exists y, getitem (grid world) ((pos agent).1.1, y, soil_height world)
             = Ok Empty) /\
  (exists x, getitem (grid world) (x, (pos agent).1.2, soil_height world)
             = Ok Empty) /\
  setitem (grid world) (pos agent) AgentOccupied = Ok (grid world') /\
  getitem (grid world') (pos agent) = Ok AgentOccupied /\
  times world' = times world.
Proof.
  intros H. apply possible_listed in H. unfold Agent_init in H.
  apply listed_bind in H as ([xs ys] & Hw & H). apply listed_lift in Hw.
  apply listed_bind in H as (x & Hx & H). apply listed_np_random_choice in Hx.
  apply listed_bind in H as (y & Hy & H). apply listed_np_random_choice in Hy.
  apply listed_bind in H as (g & Hg & H). apply listed_lift in Hg.
  apply listed_mret in H. injection H as -> ->. simpl in *.
  apply where_layer_Ok in Hw as (hits & -> & -> & Hhits).
  apply list_elem_of_fmap in Hx as ([x1 y1] & -> & Hxy).
  apply list_elem_of_fmap in Hy as ([x2 y2] & -> & Hxy').
  apply Hhits in Hxy as (_ & _ & Hxy). apply Hhits in Hxy' as (_ & _ & Hxy').
  simpl. repeat split; eauto.
  eapply getitem_setitem_same. exact Hg.
Qed.

Lemma Agent_init_outcome_witness :
  has_pellet {| pos := (1, 0, 1); has_pellet := 0 |} = 0 /\
  getitem (grid (small_world [1; 0; 1; 0; 1; -2; 1; 0] (- 10 ^ 9))) (1, 0, 1)
  = Ok AgentOccupied.
Proof.
  assert (H : possible
                (Agent_init (small_world [1; 0; 1; 0; 1; 0; 1; 0] (- 10 ^ 9)))
                ({| pos := (1, 0, 1); has_pellet := 0 |},
                 small_world [1; 0; 1; 0; 1; -2; 1; 0] (- 10 ^ 9))).
  { exists (1 # 16)%Q. split; [reflexivity|].
    vm_compute. do 8 right. left. reflexivity. }
  destruct (Agent_init_outcome _ _ _ H) as (H1 & _ & _ & _ & _ & H2 & _).
  split; [exact H1 | exact H2].
Defined.

(** X4.  The two coordinates are drawn apart, so the new agent can land on
    a cell that is not empty: from two empty cells [(x1, y1)] and [(x2, y2)]
    of the layer the constructor may put the agent on [(x1, y2)], whatever
    that cell holds. *)
Theorem Agent_init_mixes_coordinates (world : World) (x1 y1 x2 y2 : Z) :
  wf_ndarray (grid world) ->
  in_bounds (grid world) (x1, y1, soil_height world) ->
  in_bounds (grid world) (x2, y2, soil_height world) ->
  getitem (grid world) (x1, y1, soil_height world) = Ok Empty ->
  getitem (grid world) (x2, y2, soil_height world) = Ok Empty ->
  exists g,
    setitem (grid world) (x1, y2, soil_height world) AgentOccupied = Ok g /\
    possible (Agent_init world)
      ({| pos := (x1, y2, soil_height world); has_pellet := 0 |},
       with_grid world g).
Proof.
  intros Hwf (Hx1 & Hy1 & Hz) (Hx2 & Hy2 & _) H1 H2. simpl in *.
  destruct (where_layer_defined (grid world) (soil_height world) 0)
    as (xs & ys & Hw); [lia|].
  pose proof Hw as Hw'.
  apply where_layer_Ok in Hw' as (hits & -> & -> & Hhits).
  assert (Hin1 : (x1, y1) ∈ hits) by (apply Hhits; done).
  assert (Hin2 : (x2, y2) ∈ hits) by (apply Hhits; done).
  destruct (setitem_succeeds (grid world) (x1, y2, soil_height world)
              AgentOccupied Hwf) as (g & Hg).
  { eexists. apply offset_plain. unfold in_bounds. simpl. lia. }
  exists g. split; [exact Hg|].
  unfold Agent_init. rewrite Hw.
  eapply possible_bind; [apply possible_lift|]. simpl.
  eapply possible_bind.
  { apply possible_np_random_choice.
    apply list_elem_of_fmap. exists (x1, y1). split; [reflexivity|exact Hin1]. }
  eapply possible_bind.
  { apply possible_np_random_choice.
    apply list_elem_of_fmap. exists (x2, y2). split; [reflexivity|exact Hin2]. }
  simpl. rewrite Hg.
  eapply possible_bind; [apply possible_lift|]. apply possible_mret.
Qed.

Lemma Agent_init_mixes_coordinates_witness :
  exists g,
    setitem (grid (small_world [1; -2; 1; 0; 1; 0; 1; -1] (- 10 ^ 9)))
      (0, 0, 1) AgentOccupied = Ok g /\
    possible (Agent_init (small_world [1; -2; 1; 0; 1; 0; 1; -1] (- 10 ^ 9)))
      ({| pos := (0, 0, 1); has_pellet := 0 |},
       with_grid (small_world [1; -2; 1; 0; 1; 0; 1; -1] (- 10 ^ 9)) g).
Proof.
  apply (Agent_init_mixes_coordinates
           (small_world [1; -2; 1; 0; 1; 0; 1; -1] (- 10 ^ 9)) 0 1 1 0).
  - unfold wf_ndarray. simpl. repeat split; lia.
  - unfold in_bounds. simpl. lia.
  - unfold in_bounds. simpl. lia.
  - reflexivity.
  - reflexivity.
Defined.

(** X5.  The two ways in which [Agent.__init__] fails: an IndexError when
    [soil_height] is no index of the third axis, as in a world that is soil
    up to the top, and a ValueError, from the draw out of an empty array,
    when the layer [soil_height] has no empty cell. *)
Theorem Agent_init_errors (world : World) :
  ((soil_height world < - (shape (grid world)).2 \/
    (shape (grid world)).2 <= soil_height world) ->
   Agent_init world = lift (Raise IndexError)) /\
  (- (shape (grid world)).2 <= soil_height world < (shape (grid world)).2 ->
   (forall x y, getitem (grid world) (x, y, soil_height world) <> Ok Empty) ->
   Agent_init world = lift (Raise ValueError)).
Proof.
  split.
  - intros H. unfold Agent_init. rewrite where_layer_Raise by exact H.
    reflexivity.
  - intros Hs Hnone. unfold Agent_init.
    destruct (where_layer_defined (grid world) (soil_height world) 0 Hs)
      as (xs & ys & Hw).
    rewrite Hw. apply where_layer_Ok in Hw as (hits & -> & -> & Hhits).
    destruct hits as [|[x y] hits]; [reflexivity|].
    exfalso. apply (Hnone x y). apply Hhits. left.
Qed.

Lemma Agent_init_errors_witness :
  Agent_init (small_world [1; 1; 1; 1; 1; 1; 1; 1] (- 10 ^ 9))
  = lift (Raise ValueError) /\
  Agent_init {| width := 1; wlength := 1; height := 1; soil_height := 1;
                grid := {| shape := (1, 1, 1); data := [1] |};
                times := {| shape := (1, 1, 1); data := [- 10 ^ 9] |} |}
  = lift (Raise IndexError).
Proof.
  split.
  - apply (Agent_init_errors (small_world [1; 1; 1; 1; 1; 1; 1; 1] (- 10 ^ 9))).
    + simpl. lia.
    + intros x y.
      destruct (getitem _ _) as [c|] eqn:E; [|discriminate].
      intros [= ->]. unfold getitem in E.
      destruct (offset _ _) as [o|]; [|discriminate]. simpl in E.
      do 8 (destruct o as [|o]; [discriminate|]). discriminate.
  - apply (Agent_init_errors
             {| width := 1; wlength := 1; height := 1; soil_height := 1;
                grid := {| shape := (1, 1, 1); data := [1] |};
                times := {| shape := (1, 1, 1); data := [- 10 ^ 9] |} |}).
    simpl. lia.
Defined.

(** ** Moves, pickups and drops of an agent *)

Lemma getitem_Ok (a : ndarray) (p : coord) (v : Z) :
  getitem a p = Ok v ->
  exists o, offset a p = Ok o /\ data a !! o = Some v.
Proof.
  unfold getitem. intros H. inv_bind H.
  destruct (data a !! a0) eqn:E; [|discriminate].
  injection H as ->. eauto.
Qed.

Lemma setitem_at (a : ndarray) (p : coord) (v : Z) (o : nat) :
  offset a p = Ok o -> (o < length (data a))%nat ->
  setitem a p v = Ok {| shape := shape a; data := <[o := v]> (data a) |}.
Proof.
  intros Ho Hlt. unfold setitem. rewrite Ho. simpl.
  rewrite decide_True by exact Hlt. reflexivity.
Qed.

Lemma offset_shape (a b : ndarray) (p : coord) :
  shape a = shape b -> offset a p = offset b p.
Proof. intros H. unfold offset. rewrite H. reflexivity. Qed.

(** X6.  A move to an empty cell and the move back undo each other: the
    old cell is empty and the new one marked in between, and in the end the
    agent and the world are what they were. *)
Theorem move_there_and_back (self : Agent) (world : World) (new_pos : coord) :
  getitem (grid world) (pos self) = Ok AgentOccupied ->
  getitem (grid world) new_pos = Ok Empty ->
  exists self' world',
    move self world new_pos = Ok (self', world') /\
    pos self' = new_pos /\
    getitem (grid world') (pos self) = Ok Empty /\
    getitem (grid world') new_pos = Ok AgentOccupied /\
    move self' world' (pos self) = Ok (self, world).
Proof.
  intros Hp Hq.
  apply getitem_Ok in Hp as (op & Hop & Hdp).
  apply getitem_Ok in Hq as (oq & Hoq & Hdq).
  assert (Hne : op <> oq) by (intros ->; rewrite Hdp in Hdq; discriminate).
  pose proof (lookup_lt_Some _ _ _ Hdp) as Hlp.
  pose proof (lookup_lt_Some _ _ _ Hdq) as Hlq.
  destruct self as [p hp], world as [w l h s [sh d] t].
  cbn [pos grid data shape] in *.
  set (g1 := {| shape := sh; data := <[op := 0]> d |}).
  set (g2 := {| shape := sh; data := <[oq := AgentOccupied]> (<[op := 0]> d) |}).
  assert (E1 : setitem {| shape := sh; data := d |} p 0 = Ok g1)
    by (apply setitem_at; assumption).
  assert (E2 : setitem g1 new_pos AgentOccupied = Ok g2).
  { apply (setitem_at g1); [exact Hoq|]. simpl. rewrite length_insert. exact Hlq. }
  exists {| pos := new_pos; has_pellet := hp |},
         {| width := w; wlength := l; height := h; soil_height := s;
            grid := g2; times := t |}.
  split; [|split; [reflexivity|split; [|split]]].
  - unfold move, place. simpl. rewrite E1. simpl. rewrite E2. reflexivity.
  - unfold getitem. cbn [grid].
    change (offset g2 p) with (offset {| shape := sh; data := d |} p).
    rewrite Hop. simpl.
    rewrite list_lookup_insert_ne by (intros ->; congruence).
    rewrite list_lookup_insert_eq by exact Hlp. reflexivity.
  - eapply getitem_setitem_same. exact E2.
  - unfold move, place. simpl.
    set (g3 := {| shape := sh; data := <[oq := 0]> (data g2) |}).
    assert (E3 : setitem g2 new_pos 0 = Ok g3).
    { apply (setitem_at g2); [exact Hoq|].
      simpl. rewrite !length_insert. exact Hlq. }
    assert (E4 : setitem g3 p AgentOccupied
                 = Ok {| shape := sh;
                         data := <[op := AgentOccupied]> (data g3) |}).
    { apply (setitem_at g3); [exact Hop|].
      simpl. rewrite !length_insert. exact Hlp. }
    rewrite E3. simpl. rewrite E4. simpl. unfold with_grid. simpl.
    do 3 f_equal.
    rewrite list_insert_insert_eq.
    rewrite (list_insert_insert_ne _ oq op) by congruence.
    rewrite list_insert_insert_eq.
    rewrite (list_insert_id _ oq) by exact Hdq.
    f_equal. apply list_insert_id. exact Hdp.
Qed.

Lemma move_there_and_back_witness :
  exists self' world',
    move {| pos := (0, 0, 1); has_pellet := 0 |}
         (small_world [1; -2; 1; 0; 1; 0; 1; 0] (- 10 ^ 9)) (0, 1, 1)
    = Ok (self', world') /\
    move self' world' (0, 0, 1)
    = Ok ({| pos := (0, 0, 1); has_pellet := 0 |},
          small_world [1; -2; 1; 0; 1; 0; 1; 0] (- 10 ^ 9)).
Proof.
  destruct (move_there_and_back {| pos := (0, 0, 1); has_pellet := 0 |}
              (small_world [1; -2; 1; 0; 1; 0; 1; 0] (- 10 ^ 9)) (0, 1, 1))
    as (self' & world' & H1 & _ & _ & _ & H2); [reflexivity|reflexivity|].
  exists self', world'. split; [exact H1 | exact H2].
Defined.

Lemma setitem_twice (a : ndarray) (p : coord) (v v' : Z) :
  (a' ← setitem a p v; setitem a' p v') = setitem a p v'.
Proof.
  unfold setitem. destruct (offset a p) as [o|e] eqn:Ho; [|reflexivity].
  simpl. destruct (decide (o < length (data a))%nat) as [Hlt|Hge];
    [|reflexivity].
  simpl.
  change (offset {| shape := shape a; data := <[o := v]> (data a) |} p)
    with (offset a p).
  rewrite Ho. simpl. rewrite length_insert.
  rewrite decide_True by exact Hlt. rewrite list_insert_insert_eq. reflexivity.
Qed.

(** X7.  A move or a drop onto the cell the agent stands on: the move is a
    plain [place], and the drop is a [place] with the pellet flag cleared,
    so that the pellet leaves no built voxel behind. *)
Theorem move_and_drop_on_own_cell (self : Agent) (world : World) :
  move self world (pos self) = place self world /\
  drop self world (pos self)
  = place {| pos := pos self; has_pellet := 0 |} world.
Proof.
  destruct self as [p hp], world as [w l h s g t]. unfold move, drop, place.
  cbn [pos has_pellet grid with_grid width wlength height soil_height times].
  split.
  - rewrite <- (setitem_twice g p 0 AgentOccupied).
    destruct (setitem g p 0) as [g1|]; [|reflexivity]. simpl.
    destruct (setitem g1 p AgentOccupied); reflexivity.
  - rewrite <- (setitem_twice g p 2 AgentOccupied).
    destruct (setitem g p 2) as [g1|]; [|reflexivity]. simpl.
    destruct (setitem g1 p AgentOccupied); reflexivity.
Qed.

(** X8.  The agent methods write cells of the grid only: the time tensor,
    the shape and the size of the grid and the dimensions recorded in the
    world stay as they are. *)
Theorem agent_methods_keep_times (self : Agent) (world : World)
    (new_pos : coord) (self' : Agent) (world' : World) :
  place self world = Ok (self', world') \/
  move self world new_pos = Ok (self', world') \/
  pickup self world = Ok (self', world') \/
  drop self world new_pos = Ok (self', world') ->
  times world' = times world /\
  shape (grid world') = shape (grid world) /\
  length (data (grid world')) = length (data (grid world)) /\
  (width world', wlength world', height world', soil_height world')
  = (width world, wlength world, height world, soil_height world).
Proof.
  intros [H|[H|[H|H]]].
  - apply place_Ok in H as (g & Hg & _ & ->).
    apply setitem_data in Hg as (o & _ & _ & Hd & Hs).
    simpl. rewrite Hd, length_insert. done.
  - unfold move in H. inv_bind H.
    apply place_Ok in H as (g & Hg & _ & ->).
    apply setitem_data in Ha as (o & _ & _ & Hd & Hs).
    apply setitem_data in Hg as (o' & _ & _ & Hd' & Hs').
    simpl in *. rewrite Hd', Hs', Hd, !length_insert. done.
  - apply pickup_Ok in H as (g1 & g2 & g3 & H1 & H2 & H3 & _ & ->).
    apply setitem_data in H1 as (o1 & _ & _ & Hd1 & Hs1).
    apply setitem_data in H2 as (o2 & _ & _ & Hd2 & Hs2).
    apply setitem_data in H3 as (o3 & _ & _ & Hd3 & Hs3).
    simpl. rewrite Hd3, Hs3, Hd2, Hs2, Hd1, !length_insert. done.
  - apply drop_Ok in H as (g1 & g2 & H1 & H2 & _ & ->).
    apply setitem_data in H1 as (o1 & _ & _ & Hd1 & Hs1).
    apply setitem_data in H2 as (o2 & _ & _ & Hd2 & Hs2).
    simpl. rewrite Hd2, Hs2, Hd1, !length_insert. done.
Qed.

Lemma agent_methods_keep_times_witness :
  pickup {| pos := (0, 0, 1); has_pellet := 0 |}
         (small_world [1; -2; 1; 0; 1; 0; 1; 0] 7)
  = Ok ({| pos := (0, 0, 0); has_pellet := 1 |},
        small_world [-2; 0; 1; 0; 1; 0; 1; 0] 7) /\
  times (small_world [-2; 0; 1; 0; 1; 0; 1; 0] 7)
  = times (small_world [1; -2; 1; 0; 1; 0; 1; 0] 7).
Proof.
  assert (H : pickup {| pos := (0, 0, 1); has_pellet := 0 |}
                     (small_world [1; -2; 1; 0; 1; 0; 1; 0] 7)
              = Ok ({| pos := (0, 0, 0); has_pellet := 1 |},
                    small_world [-2; 0; 1; 0; 1; 0; 1; 0] 7))
    by reflexivity.
  split; [exact H|].
  apply (agent_methods_keep_times {| pos := (0, 0, 1); has_pellet := 0 |}
           (small_world [1; -2; 1; 0; 1; 0; 1; 0] 7) (0, 0, 0)
           {| pos := (0, 0, 0); has_pellet := 1 |}
           (small_world [-2; 0; 1; 0; 1; 0; 1; 0] 7)).
  right. right. left. exact H.
Defined.

Lemma getitem_at (a : ndarray) (p : coord) (o : nat) (v : Z) :
  offset a p = Ok o -> data a !! o = Some v -> getitem a p = Ok v.
Proof. intros Ho Hv. unfold getitem. rewrite Ho. simpl. rewrite Hv. done. Qed.

Lemma getitem_same_data (a b : ndarray) (p : coord) :
  shape a = shape b ->
  (forall o, offset a p = Ok o -> data b !! o = data a !! o) ->
  getitem b p = getitem a p.
Proof.
  intros Hs Hd. unfold getitem. rewrite <- (offset_shape a b p Hs).
  destruct (offset a p) as [o|e] eqn:Ho; [|reflexivity].
  simpl. rewrite (Hd o eq_refl). reflexivity.
Qed.

(** X9.  A pickup followed by a drop back onto the cell the agent came
    from: the agent is where it was, without pellet, the voxel below it is
    a built one whatever it was before, and no other cell and no time stamp
    has changed. *)
Theorem pickup_then_drop_builds (self : Agent) (world : World) (x y z : Z) :
  pos self = (x, y, z) ->
  wf_ndarray (grid world) ->
  in_bounds (grid world) (x, y, z) ->
  1 <= z ->
  exists self1 world1 self2 world2,
    pickup self world = Ok (self1, world1) /\
    drop self1 world1 (x, y, z) = Ok (self2, world2) /\
    self2 = {| pos := (x, y, z); has_pellet := 0 |} /\
    getitem (grid world2) (x, y, z - 1) = Ok Built /\
    getitem (grid world2) (x, y, z) = Ok AgentOccupied /\
    (forall q, offset (grid world) q <> offset (grid world) (x, y, z) ->
               offset (grid world) q <> offset (grid world) (x, y, z - 1) ->
               getitem (grid world2) q = getitem (grid world) q) /\
    times world2 = times world.
Proof.
  intros Hpos Hwf Hin Hz.
  destruct self as [p hp], world as [w l h s g t].
  cbn [pos grid] in *. subst p.
  assert (Hin' : in_bounds g (x, y, z - 1)).
  { destruct Hin as (? & ? & ?). unfold in_bounds in *. simpl in *. lia. }
  pose proof (offset_plain g x y z Hin) as Ho2.
  pose proof (offset_plain g x y (z - 1) Hin') as Ho1.
  set (o2 := Z.to_nat ((x * (shape g).1.2 + y) * (shape g).2 + z)) in *.
  set (o1 := Z.to_nat ((x * (shape g).1.2 + y) * (shape g).2 + (z - 1))) in *.
  pose proof (offset_lt g _ _ Hwf Ho1) as Hl1.
  pose proof (offset_lt g _ _ Hwf Ho2) as Hl2.
  assert (Hne : o1 <> o2).
  { destruct Hin as (Hx & Hy & Hz'). simpl in Hx, Hy, Hz'.
    assert (0 <= x * (shape g).1.2) by (apply Z.mul_nonneg_nonneg; lia).
    assert (0 <= (x * (shape g).1.2 + y) * (shape g).2)
      by (apply Z.mul_nonneg_nonneg; lia).
    unfold o1, o2. lia. }
  set (g1 := {| shape := shape g; data := <[o1 := 0]> (data g) |}).
  set (g2 := {| shape := shape g; data := <[o2 := 0]> (data g1) |}).
  set (g3 := {| shape := shape g;
                data := <[o1 := AgentOccupied]> (data g2) |}).
  set (g4 := {| shape := shape g; data := <[o1 := 2]> (data g3) |}).
  set (g5 := {| shape := shape g;
                data := <[o2 := AgentOccupied]> (data g4) |}).
  assert (E1 : setitem g (x, y, z - 1) 0 = Ok g1)
    by (apply (setitem_at g); assumption).
  assert (E2 : setitem g1 (x, y, z) 0 = Ok g2).
  { apply (setitem_at g1); [exact Ho2|]. simpl. rewrite !length_insert. done. }
  assert (E3 : setitem g2 (x, y, z - 1) AgentOccupied = Ok g3).
  { apply (setitem_at g2); [exact Ho1|]. simpl. rewrite !length_insert. done. }
  assert (E4 : setitem g3 (x, y, z - 1) 2 = Ok g4).
  { apply (setitem_at g3); [exact Ho1|]. simpl. rewrite !length_insert. done. }
  assert (E5 : setitem g4 (x, y, z) AgentOccupied = Ok g5).
  { apply (setitem_at g4); [exact Ho2|]. simpl. rewrite !length_insert. done. }
  exists {| pos := (x, y, z - 1); has_pellet := 1 |},
         {| width := w; wlength := l; height := h; soil_height := s;
            grid := g3; times := t |},
         {| pos := (x, y, z); has_pellet := 0 |},
         {| width := w; wlength := l; height := h; soil_height := s;
            grid := g5; times := t |}.
  repeat split.
  - unfold pickup, place. cbn [pos grid with_grid has_pellet].
    rewrite E1. simpl. rewrite E2. simpl. rewrite E3. reflexivity.
  - unfold drop, place. cbn [pos grid with_grid has_pellet].
    rewrite E4. simpl. rewrite E5. reflexivity.
  - cbn [grid]. apply (getitem_at g5 _ o1); [exact Ho1|]. simpl.
    rewrite list_lookup_insert_ne by congruence.
    apply list_lookup_insert_eq. rewrite !length_insert. exact Hl1.
  - cbn [grid]. apply (getitem_at g5 _ o2); [exact Ho2|]. simpl.
    apply list_lookup_insert_eq. rewrite !length_insert. exact Hl2.
  - intros q Hq2 Hq1. cbn [grid]. apply getitem_same_data; [reflexivity|].
    intros o Ho. rewrite Ho, Ho2 in Hq2. rewrite Ho, Ho1 in Hq1. simpl.
    rewrite !list_lookup_insert_ne by congruence. reflexivity.
Qed.

Lemma pickup_then_drop_builds_witness :
  exists self1 world1 self2 world2,
    pickup {| pos := (0, 0, 1); has_pellet := 0 |}
           (small_world [1; -2; 1; 0; 1; 0; 1; 0] 7) = Ok (self1, world1) /\
    drop self1 world1 (0, 0, 1) = Ok (self2, world2) /\
    getitem (grid world2) (0, 0, 0) = Ok Built.
Proof.
  destruct (pickup_then_drop_builds {| pos := (0, 0, 1); has_pellet := 0 |}
              (small_world [1; -2; 1; 0; 1; 0; 1; 0] 7) 0 0 1)
    as (self1 & world1 & self2 & world2 & H1 & H2 & _ & H3 & _).
  - reflexivity.
  - unfold wf_ndarray. simpl. repeat split; lia.
  - unfold in_bounds. simpl. lia.
  - lia.
  - exists self1, world1, self2, world2. repeat split; assumption.
Defined.

(** ** Surface: the recount of the edges and the stationary distribution *)

Lemma od_lookup_first {V : Type} (d : odict V) (k : vertex) (v : V) :
  NoDup (od_keys d) -> (k, v) ∈ d -> od_lookup d k = Some v.
Proof.
  induction d as [|[k' v'] d IH]; intros Hnd Hin; [inversion Hin|].
  simpl in *. apply NoDup_cons in Hnd as [Hk' Hnd].
  apply elem_of_cons in Hin as [[= -> ->]|Hin].
  - rewrite decide_True by reflexivity. reflexivity.
  - destruct (decide (k' = k)) as [->|Hne]; [|auto].
    exfalso. apply Hk'. apply list_elem_of_fmap. exists (k, v). done.
Qed.

Lemma mapM_lengths (g0 g : odict (list vertex)) :
  (forall k l, (k, l) ∈ g -> od_lookup g0 k = Some l) ->
  mapM (fun v => l ← od_get g0 v; Ok (Z.of_nat (length l))) (od_keys g)
  = Ok (map (fun l => Z.of_nat (length l)) (od_values g)).
Proof.
  induction g as [|[k l] g IH]; intros H; [reflexivity|].
  simpl. rewrite (od_get_Some g0 k l) by (apply H; left). simpl.
  rewrite IH by (intros k' l' Hin; apply H; right; exact Hin).
  reflexivity.
Qed.

Lemma degree_values (g : odict (list vertex)) (dg : odict Z) :
  NoDup (od_keys g) ->
  od_keys dg = od_keys g ->
  (forall v l, od_lookup g v = Some l ->
               od_lookup dg v = Some (Z.of_nat (length l))) ->
  od_values dg = map (fun l => Z.of_nat (length l)) (od_values g).
Proof.
  revert dg. induction g as [|[k l] g IH]; intros dg Hnd Hk Hl.
  - destruct dg; [reflexivity|discriminate].
  - destruct dg as [|[k' d] dg]; [discriminate|].
    simpl in Hk. injection Hk as -> Hk.
    simpl in Hnd. apply NoDup_cons in Hnd as [Hk' Hnd].
    pose proof (Hl k l) as H0. simpl in H0.
    rewrite !decide_True in H0 by reflexivity.
    specialize (H0 eq_refl). injection H0 as ->.
    simpl. f_equal. apply IH; [exact Hnd|exact Hk|].
    intros v l' Hv.
    assert (Hne : k <> v).
    { intros ->. apply Hk'. eapply od_lookup_Some_keys. exact Hv. }
    specialize (Hl v l'). simpl in Hl.
    rewrite !decide_False in Hl by exact Hne. auto.
Qed.

(** X10.  The count of [get_num_edges], taken anew from the adjacency
    lists, is the number that [num_edges] has been carrying along. *)
Theorem get_num_edges_is_num_edges (s : Surface) :
  surface_inv s ->
  exists q, get_num_edges s = Ok q /\ (q == num_edges s)%Q.
Proof.
  intros (Hnd & (Hk & Hl) & _ & _ & _ & He).
  unfold get_num_edges.
  rewrite mapM_lengths by (intros k l; apply od_lookup_first; exact Hnd).
  simpl. eexists. split; [reflexivity|].
  unfold edges_match, sum_degrees, od_sum in He.
  rewrite (degree_values _ _ Hnd Hk Hl) in He. symmetry. exact He.
Qed.

Lemma small_seed_symmetric : symmetric_seed small_seed.
Proof.
  unfold symmetric_seed, small_seed. split; [| split].
  - simpl. repeat (apply NoDup_cons; split;
      [rewrite ?not_elem_of_cons; repeat split;
       try congruence; apply not_elem_of_nil |]).
    apply NoDup_nil. trivial.
  - intros v l. simpl.
    repeat (destruct (decide _) as [<- | ?]; [intros [= <-] |]);
      try discriminate.
    + split; [apply NoDup_singleton |].
      rewrite list_elem_of_singleton. congruence.
    + split; [apply NoDup_singleton |].
      rewrite list_elem_of_singleton. congruence.
    + split; [apply NoDup_nil; trivial | apply not_elem_of_nil].
  - intros u v. unfold adj_of. simpl.
    repeat (destruct (decide _) as [<- | ?]); simpl;
      rewrite ?list_elem_of_singleton;
      split; intros H; try congruence; try (inversion H; fail).
Qed.

Lemma get_num_edges_is_num_edges_witness :
  exists s, Surface_init small_seed = Ok s /\
            exists q, get_num_edges s = Ok q /\ (q == num_edges s)%Q.
Proof.
  destruct (Surface_init_inv small_seed small_seed_symmetric)
    as (s & Hs & Hinv).
  exists s. split; [exact Hs|].
  exact (get_num_edges_is_num_edges s Hinv).
Defined.

Lemma elem_le_sum (l : list Z) (d : Z) :
  Forall (fun x => 0 <= x) l -> d ∈ l -> 0 <= d <= fold_right Z.add 0 l.
Proof.
  intros H. induction H as [|x l Hx Hl IH]; intros Hin; [inversion Hin|].
  assert (Hs : 0 <= fold_right Z.add 0 l).
  { clear IH Hin. induction Hl as [|y l Hy _ IH]; simpl; lia. }
  simpl. apply elem_of_cons in Hin as [->|Hin]; [lia|].
  specialize (IH Hin). lia.
Qed.

(** X11.  With at least one edge, every entry of the stationary
    distribution of a surface that satisfies the invariant is a finite
    number between 0 and 1, one entry for each vertex: no degree exceeds
    the sum of the degrees, which is twice [num_edges]. *)
Theorem stationary_distribution_entries (s : Surface) :
  surface_inv s -> (0 < num_edges s)%Q ->
  exists p,
    get_rw_stationary_distribution s = Ok p /\
    length p = length (od_keys (graph s)) /\
    Forall (fun e => exists q, e = Finite q /\ (0 <= q <= 1)%Q) p.
Proof.
  intros (Hnd & (Hk & Hl) & _ & _ & _ & He) Hpos.
  unfold get_rw_stationary_distribution.
  eexists. split; [reflexivity|]. split.
  { rewrite length_map, <- Hk. unfold od_values, od_keys.
    rewrite !length_map. reflexivity. }
  unfold edges_match, sum_degrees, od_sum in He.
  assert (Hs : (inject_Z (fold_right Z.add 0%Z (od_values (degrees s)))
                == 2 * num_edges s)%Q).
  { rewrite He. field. }
  assert (H2 : (0 < 2 * num_edges s)%Q).
  { apply Qmult_lt_0_compat; [reflexivity | exact Hpos]. }
  assert (Hnn : Forall (fun x => 0 <= x) (od_values (degrees s))).
  { rewrite (degree_values _ _ Hnd Hk Hl). apply Forall_forall.
    intros x Hx. apply list_elem_of_In, in_map_iff in Hx as (l & <- & _). lia. }
  apply Forall_forall. intros e Hin.
  apply list_elem_of_In, in_map_iff in Hin as (d & <- & Hd).
  apply list_elem_of_In in Hd.
  destruct (elem_le_sum _ d Hnn Hd) as [Hd0 Hds].
  unfold np_true_divide. rewrite (Qeq_bool_double_pos _ Hpos).
  eexists. split; [reflexivity|]. split.
  - apply Qle_shift_div_l; [exact H2|]. rewrite Qmult_0_l.
    rewrite (Zle_Qle 0 d) in Hd0. exact Hd0.
  - apply Qle_shift_div_r; [exact H2|]. rewrite Qmult_1_l, <- Hs.
    rewrite Zle_Qle in Hds. exact Hds.
Qed.

Lemma stationary_distribution_entries_witness :
  exists s, Surface_init small_seed = Ok s /\
            exists p, get_rw_stationary_distribution s = Ok p /\
                      length p = length (od_keys (graph s)) /\
                      Forall (fun e => exists q, e = Finite q /\
                                                 (0 <= q <= 1)%Q) p.
Proof.
  destruct (Surface_init_inv small_seed small_seed_symmetric)
    as (s & Hs & Hinv).
  exists s. split; [exact Hs|].
  apply (stationary_distribution_entries s).
  - exact Hinv.
  - vm_compute in Hs. injection Hs as <-. reflexivity.
Defined.

(** ** Surface: what [add_edge] and [remove_vertex] leave behind *)

(** X12.  The graph after [add_edge((v1, v2))]: each end is appended to
    the list of the other, a loop edge appends the vertex twice to its own
    list, the other lists and the order of the keys stay, and [num_edges]
    is one more. *)
Theorem add_edge_effect (s : Surface) (v1 v2 : vertex) (s' : Surface) :
  add_edge s (v1, v2) = Ok s' ->
  (v1 <> v2 ->
   adjacency s' v1 = adjacency s v1 ++ [v2] /\
   adjacency s' v2 = adjacency s v2 ++ [v1]) /\
  (v1 = v2 -> adjacency s' v1 = adjacency s v1 ++ [v1; v1]) /\
  (forall u, u <> v1 -> u <> v2 -> adjacency s' u = adjacency s u) /\
  od_keys (graph s') = od_keys (graph s) /\
  num_edges s' = (num_edges s + 1)%Q.
Proof.
  unfold add_edge. intros H.
  apply bind_Ok in H as (l1 & H1 & H).
  apply bind_Ok in H as (l2 & H2 & H).
  apply bind_Ok in H as (d1 & _ & H).
  apply bind_Ok in H as (d2 & _ & H).
  injection H as <-. unfold adjacency. cbn [graph num_edges].
  unfold od_get in H1, H2.
  destruct (od_lookup (graph s) v1) as [l1'|] eqn:E1; [|discriminate].
  injection H1 as ->.
  destruct (od_lookup (od_set (graph s) v1 (l1 ++ [v2])) v2) as [l2'|] eqn:E2;
    [|discriminate].
  injection H2 as ->.
  rewrite od_lookup_set in E2.
  split; [intros Hne; split
         |split; [intros ->
                 |split; [intros u Hu1 Hu2 | split; [|reflexivity]]]].
  - rewrite !od_lookup_set. rewrite decide_False by congruence.
    rewrite decide_True by reflexivity. reflexivity.
  - rewrite !od_lookup_set. rewrite decide_True by reflexivity.
    rewrite decide_False in E2 by assumption. rewrite E2. reflexivity.
  - rewrite !od_lookup_set. rewrite decide_True by reflexivity.
    rewrite decide_True in E2 by reflexivity. injection E2 as <-.
    simpl. rewrite <- app_assoc. reflexivity.
  - rewrite !od_lookup_set.
    rewrite !decide_False by congruence. reflexivity.
  - rewrite !od_keys_set_present; [reflexivity| |].
    + rewrite E1. eauto.
    + rewrite od_lookup_set. destruct (decide (v1 = v2)); [eauto|].
      rewrite E2. eauto.
Qed.

Lemma add_edge_effect_witness :
  exists s s',
    Surface_init small_seed = Ok s /\
    add_edge s ((1, 1, 0), (1, 1, 0)) = Ok s' /\
    adjacency s' (1, 1, 0) = adjacency s (1, 1, 0) ++ [(1, 1, 0); (1, 1, 0)].
Proof.
  destruct (Surface_init small_seed) as [s|] eqn:Hs; [|discriminate].
  destruct (add_edge s ((1, 1, 0), (1, 1, 0))) as [s'|] eqn:Hs'.
  - exists s, s'. split; [reflexivity|]. split; [exact Hs'|].
    apply (add_edge_effect s (1, 1, 0) (1, 1, 0) s' Hs'). reflexivity.
  - vm_compute in Hs. injection Hs as <-. discriminate.
Defined.

Lemma list_remove_filter (v : vertex) (l l' : list vertex) :
  list_remove v l = Ok l' ->
  filter (fun w => w <> v) l' = filter (fun w => w <> v) l.
Proof.
  revert l'. induction l as [|y l IH]; intros l' H; [discriminate|].
  simpl in H. destruct (decide (y = v)) as [->|Hne].
  - injection H as ->. rewrite filter_cons_False; [reflexivity|]. auto.
  - apply bind_Ok in H as (l'' & Hl & [= <-]).
    rewrite !filter_cons_True by exact Hne. f_equal. auto.
Qed.

Lemma remove_vertex_loop_graph (v : vertex) (fuel : nat) :
  forall (i : nat) (s s' : Surface),
    remove_vertex_loop fuel i v s = Ok s' ->
    od_keys (graph s') = od_keys (graph s) /\
    forall u, filter (fun w => w <> v) (adjacency s' u)
              = filter (fun w => w <> v) (adjacency s u).
Proof.
  induction fuel as [|fuel IH]; intros i s s' H; simpl in H.
  { injection H as <-. done. }
  apply bind_Ok in H as (nbrs & _ & H).
  destruct (nbrs !! i) as [nbr|]; [|injection H as <-; done].
  apply bind_Ok in H as (l & Hl & H).
  apply bind_Ok in H as (l' & Hl' & H).
  apply bind_Ok in H as (d & _ & H).
  apply IH in H as (Hk & Hf). cbn [graph] in Hk.
  unfold od_get in Hl.
  destruct (od_lookup (graph s) nbr) as [l0|] eqn:E; [|discriminate].
  injection Hl as ->.
  split.
  - rewrite Hk. apply od_keys_set_present. rewrite E. eauto.
  - intros u. rewrite Hf. unfold adjacency. cbn [graph].
    rewrite od_lookup_set. destruct (decide (nbr = u)) as [<-|]; [|reflexivity].
    rewrite E. simpl. apply list_remove_filter. exact Hl'.
Qed.

Lemma filter_absent (v : vertex) (l : list vertex) :
  v ∉ l -> filter (fun w => w <> v) l = l.
Proof.
  induction l as [|y l IH]; intros H; [reflexivity|].
  apply not_elem_of_cons in H as [Hne Hl].
  rewrite filter_cons_True by congruence. f_equal. auto.
Qed.

Lemma od_keys_remove_length {V : Type} (d : odict V) (k : vertex) :
  k ∈ od_keys d ->
  length (od_keys d) = S (length (od_keys (od_remove d k))).
Proof.
  induction d as [|[k' v] d IH]; intros Hin; [inversion Hin|].
  simpl. destruct (decide (k' = k)) as [->|Hne]; [reflexivity|].
  simpl. f_equal. apply IH.
  simpl in Hin. apply elem_of_cons in Hin as [->|Hin]; [contradiction|exact Hin].
Qed.

(** X13.  The graph after [remove_vertex(v)], for a graph that satisfies
    the invariant: [v] is no key any more, there is one vertex less, and
    the list of every other vertex is its old list without [v], in the old
    order. *)
Theorem remove_vertex_effect (s : Surface) (v : vertex) (s' : Surface) :
  surface_inv s ->
  remove_vertex s v = Ok s' ->
  absent s' v /\
  get_num_vertices s' = get_num_vertices s - 1 /\
  (forall u, u <> v ->
             adjacency s' u = filter (fun w => w <> v) (adjacency s u)).
Proof.
  intros Hinv H.
  assert (Hpre : precondition s (RemoveVertex v)).
  { unfold remove_vertex in H. apply bind_Ok in H as (nbrs & Hn & _).
    unfold od_get in Hn. simpl. unfold present.
    destruct (od_lookup (graph s) v); [eauto|discriminate]. }
  destruct (remove_vertex_inv s v Hinv Hpre) as (s'' & H' & Hinv').
  rewrite H in H'. injection H' as <-.
  unfold remove_vertex in H.
  apply bind_Ok in H as (nbrs & Hn & H).
  apply bind_Ok in H as (s1 & Hloop & H).
  apply bind_Ok in H as (g & Hg & H).
  apply bind_Ok in H as (dg & _ & H).
  injection H as <-.
  apply remove_vertex_loop_graph in Hloop as (Hk & Hf).
  unfold od_del in Hg.
  destruct (od_lookup (graph s1) v) as [lv|] eqn:Ev; [|discriminate].
  injection Hg as <-.
  destruct Hinv as (Hnd & _).
  assert (Hnd1 : NoDup (od_keys (graph s1))) by (rewrite Hk; exact Hnd).
  assert (Habs : od_lookup (od_remove (graph s1) v) v = None).
  { rewrite od_lookup_remove by exact Hnd1.
    rewrite decide_True by reflexivity. reflexivity. }
  split; [exact Habs|]. split.
  - unfold get_num_vertices. cbn [graph].
    rewrite <- Hk.
    rewrite (od_keys_remove_length (graph s1) v)
      by (eapply od_lookup_Some_keys; exact Ev).
    lia.
  - intros u Hu.
    destruct Hinv' as (_ & _ & Hsym & _).
    assert (Hnot : v ∉ adjacency
                     {| graph := od_remove (graph s1) v; degrees := dg;
                        num_edges := num_edges s1 |} u).
    { intros Hin. apply Hsym in Hin. unfold adjacency in Hin.
      cbn [graph] in Hin. rewrite Habs in Hin. inversion Hin. }
    rewrite <- Hf.
    assert (Hadj : adjacency
                     {| graph := od_remove (graph s1) v; degrees := dg;
                        num_edges := num_edges s1 |} u = adjacency s1 u).
    { unfold adjacency. cbn [graph].
      rewrite od_lookup_remove by exact Hnd1.
      rewrite decide_False by congruence. reflexivity. }
    rewrite <- Hadj. symmetry. apply filter_absent. exact Hnot.
Qed.

Lemma remove_vertex_effect_witness :
  exists s s',
    Surface_init small_seed = Ok s /\
    remove_vertex s (0, 0, 0) = Ok s' /\
    absent s' (0, 0, 0) /\
    get_num_vertices s' = get_num_vertices s - 1.
Proof.
  destruct (Surface_init_inv small_seed small_seed_symmetric)
    as (s & Hs & Hinv).
  destruct (remove_vertex s (0, 0, 0)) as [s'|] eqn:Hs'.
  - exists s, s'. split; [exact Hs|]. split; [exact Hs'|].
    destruct (remove_vertex_effect s (0, 0, 0) s' Hinv Hs') as (H1 & H2 & _).
    split; [exact H1 | exact H2].
  - vm_compute in Hs. injection Hs as <-. discriminate.
Defined.

Lemma list_remove_absent (v : vertex) (l : list vertex) :
  v ∉ l -> list_remove v l = Raise ValueError.
Proof.
  induction l as [|y l IH]; intros H; [reflexivity|].
  apply not_elem_of_cons in H as [Hne Hl]. simpl.
  rewrite decide_False by congruence. rewrite IH by exact Hl. reflexivity.
Qed.

(** X14.  [remove_vertex] on a graph whose lists are not symmetric: when
    the first neighbour of the vertex is no key of the graph the call ends
    in a KeyError, and when that neighbour does not list the vertex back it
    ends in the ValueError of [list.remove]. *)
Theorem remove_vertex_one_sided_edge (s : Surface) (v u : vertex)
    (l : list vertex) :
  od_lookup (graph s) v = Some (u :: l) ->
  (od_lookup (graph s) u = None -> remove_vertex s v = Raise KeyError) /\
  (forall lu, od_lookup (graph s) u = Some lu -> v ∉ lu ->
              remove_vertex s v = Raise ValueError).
Proof.
  intros Hv. unfold remove_vertex.
  rewrite (od_get_Some _ _ _ Hv). simpl.
  rewrite (od_get_Some _ _ _ Hv). simpl. split.
  - intros Hu. rewrite (od_get_None _ _ Hu). reflexivity.
  - intros lu Hu Hlu. rewrite (od_get_Some _ _ _ Hu). simpl.
    rewrite (list_remove_absent _ _ Hlu). reflexivity.
Qed.

Lemma remove_vertex_one_sided_edge_witness :
  remove_vertex {| graph := [((0, 0, 0), [(0, 1, 0)]); ((0, 1, 0), [])];
                   degrees := [((0, 0, 0), 1); ((0, 1, 0), 0)];
                   num_edges := 1 # 2 |} (0, 0, 0)
  = Raise ValueError.
Proof.
  destruct (remove_vertex_one_sided_edge
              {| graph := [((0, 0, 0), [(0, 1, 0)]); ((0, 1, 0), [])];
                 degrees := [((0, 0, 0), 1); ((0, 1, 0), 0)];
                 num_edges := 1 # 2 |} (0, 0, 0) (0, 1, 0) [] eq_refl)
    as (_ & H).
  apply (H [] eq_refl). apply not_elem_of_nil.
Defined.

(** ** Structure: the graph of the built voxels *)

Lemma od_get_present {V W : Type} (d : odict V) (d' : odict W) (k : vertex)
    (v : V) :
  od_keys d' = od_keys d -> od_get d k = Ok v -> exists w, od_get d' k = Ok w.
Proof.
  intros Hk H. unfold od_get in *.
  destruct (od_lookup d k) eqn:E; [|discriminate].
  apply od_lookup_Some_keys in E. rewrite <- Hk in E.
  destruct (od_lookup d' k) as [w|] eqn:E'; [eauto|].
  apply od_lookup_None in E'. contradiction.
Qed.

Lemma od_keys_set_get {V : Type} (d : odict V) (k : vertex) (v v' : V) :
  od_get d k = Ok v -> od_keys (od_set d k v') = od_keys d.
Proof.
  unfold od_get. intros H. apply od_keys_set_present.
  destruct (od_lookup d k); [eauto|discriminate].
Qed.

Lemma Struct_remove_vertex_loop (v : vertex) (fuel : nat) :
  forall (i : nat) (s : Surface),
    od_keys (degrees s) = od_keys (graph s) ->
    Struct.remove_vertex_loop (graph s) fuel i v
    = (s' ← remove_vertex_loop fuel i v s; Ok (graph s')) /\
    (forall s', remove_vertex_loop fuel i v s = Ok s' ->
                od_keys (degrees s') = od_keys (graph s')).
Proof.
  induction fuel as [|fuel IH]; intros i s Hk; simpl.
  { split; [reflexivity|]. intros s' [= <-]. exact Hk. }
  destruct (od_get (graph s) v) as [nbrs|e]; [|split; [reflexivity|discriminate]].
  simpl. destruct (nbrs !! i) as [nbr|];
    [|split; [reflexivity|intros s' [= <-]; exact Hk]].
  destruct (od_get (graph s) nbr) as [l|e] eqn:El;
    [|split; [reflexivity|discriminate]].
  simpl. destruct (list_remove v l) as [l'|e];
    [|split; [reflexivity|discriminate]].
  simpl.
  destruct (od_get_present _ (degrees s) nbr l Hk El) as (d & Hd).
  rewrite Hd. simpl.
  apply (IH (S i) {| graph := od_set (graph s) nbr l';
                     degrees := od_set (degrees s) nbr (d - 1);
                     num_edges := (num_edges s - 1)%Q |}).
  cbn [graph degrees].
  rewrite (od_keys_set_get _ _ _ _ El), (od_keys_set_get _ _ _ _ Hd).
  exact Hk.
Qed.

(** X15.  [Structure] is [Surface] without the bookkeeping: on a surface
    whose [degrees] has the keys of [graph], [Structure.add_edge] and
    [Structure.remove_vertex] applied to the graph fail with the same
    exception as the methods of [Surface], or return the same graph. *)
Theorem Structure_mirrors_Surface (s : Surface) :
  od_keys (degrees s) = od_keys (graph s) ->
  (forall pair,
     Struct.add_edge (Struct.mk (graph s)) pair
     = (s' ← add_edge s pair; Ok (Struct.mk (graph s')))) /\
  (forall v,
     Struct.remove_vertex (Struct.mk (graph s)) v
     = (s' ← remove_vertex s v; Ok (Struct.mk (graph s')))).
Proof.
  intros Hk. split.
  - intros [v1 v2]. unfold Struct.add_edge, add_edge. cbn [Struct.graph].
    destruct (od_get (graph s) v1) as [l1|e] eqn:E1; [|reflexivity]. simpl.
    destruct (od_get (od_set (graph s) v1 (l1 ++ [v2])) v2) as [l2|e] eqn:E2;
      [|reflexivity].
    simpl.
    destruct (od_get_present _ (degrees s) v1 l1 Hk E1) as (d1 & Hd1).
    rewrite Hd1. simpl.
    assert (Hk' : od_keys (od_set (degrees s) v1 (d1 + 1))
                  = od_keys (od_set (graph s) v1 (l1 ++ [v2]))).
    { rewrite (od_keys_set_get _ _ _ _ E1), (od_keys_set_get _ _ _ _ Hd1).
      exact Hk. }
    destruct (od_get_present _ _ v2 l2 Hk' E2) as (d2 & Hd2).
    rewrite Hd2. reflexivity.
  - intros v. unfold Struct.remove_vertex, remove_vertex. cbn [Struct.graph].
    destruct (od_get (graph s) v) as [nbrs|e] eqn:En; [|reflexivity]. simpl.
    destruct (Struct_remove_vertex_loop v (length nbrs) 0%nat s Hk)
      as (Hloop & Hkeys).
    rewrite Hloop.
    destruct (remove_vertex_loop (length nbrs) 0 v s) as [s1|e]; [|reflexivity].
    simpl. specialize (Hkeys s1 eq_refl).
    unfold od_del.
    destruct (od_lookup (graph s1) v) as [lv|] eqn:Ev; [|reflexivity].
    simpl.
    destruct (od_lookup (degrees s1) v) as [dv|] eqn:Ed; [reflexivity|].
    exfalso. apply od_lookup_Some_keys in Ev. apply od_lookup_None in Ed.
    rewrite Hkeys in Ed. contradiction.
Qed.

Lemma Structure_mirrors_Surface_witness :
  exists s,
    Surface_init small_seed = Ok s /\
    Struct.remove_vertex (Struct.mk (graph s)) (0, 0, 0)
    = (s' ← remove_vertex s (0, 0, 0); Ok (Struct.mk (graph s'))).
Proof.
  destruct (Surface_init_inv small_seed small_seed_symmetric)
    as (s & Hs & Hinv).
  exists s. split; [exact Hs|].
  apply (Structure_mirrors_Surface s). apply Hinv.
Defined.

Lemma lens_update (g : odict (list vertex)) (k : vertex) (l : list vertex) :
  map (fun kv => (kv.1, Z.of_nat (length kv.2))) (od_update g k l)
  = od_update (map (fun kv => (kv.1, Z.of_nat (length kv.2))) g) k
              (Z.of_nat (length l)).
Proof.
  induction g as [|[k' l'] g IH]; [reflexivity|]. simpl.
  destruct (decide (k' = k)); simpl; [reflexivity|]. rewrite IH. reflexivity.
Qed.

Lemma lens_set (g : odict (list vertex)) (k : vertex) (l0 l : list vertex) :
  od_lookup g k = Some l0 ->
  map (fun kv => (kv.1, Z.of_nat (length kv.2))) (od_set g k l)
  = od_set (map (fun kv => (kv.1, Z.of_nat (length kv.2))) g) k
           (Z.of_nat (length l)).
Proof.
  intros H. unfold od_set. rewrite od_lookup_map_degrees, H. simpl.
  apply lens_update.
Qed.

Lemma Struct_get_num_edges_sum (t : Struct.t) :
  NoDup (od_keys (Struct.graph t)) ->
  Struct.get_num_edges t
  = Ok (inject_Z (od_sum (map (fun kv => (kv.1, Z.of_nat (length kv.2)))
                              (Struct.graph t))) / 2)%Q.
Proof.
  intros Hnd. unfold Struct.get_num_edges.
  rewrite mapM_lengths by (intros k l; apply od_lookup_first; exact Hnd).
  simpl. unfold od_sum, od_values. rewrite !map_map. reflexivity.
Qed.

(** X16.  [Structure.add_edge] and the counts: the number of vertices
    stays, the number of edges, counted from the lists, grows by exactly
    one, and the degree of the first end grows by one, or by two for a
    loop edge. *)
Theorem Structure_add_edge_counts (t t' : Struct.t) (v1 v2 : vertex) :
  NoDup (od_keys (Struct.graph t)) ->
  Struct.add_edge t (v1, v2) = Ok t' ->
  Struct.get_num_vertices t' = Struct.get_num_vertices t /\
  (exists q q', Struct.get_num_edges t = Ok q /\
                Struct.get_num_edges t' = Ok q' /\ (q' == q + 1)%Q) /\
  (exists d, Struct.get_degree t v1 = Ok d /\
             Struct.get_degree t' v1
             = Ok (if decide (v1 = v2) then d + 2 else d + 1)).
Proof.
  intros Hnd H. unfold Struct.add_edge in H.
  apply bind_Ok in H as (l1 & H1 & H).
  apply bind_Ok in H as (l2 & H2 & H). injection H as <-.
  unfold od_get in H1, H2.
  destruct (od_lookup (Struct.graph t) v1) as [l1'|] eqn:E1; [|discriminate].
  injection H1 as ->.
  destruct (od_lookup (od_set (Struct.graph t) v1 (l1 ++ [v2])) v2)
    as [l2'|] eqn:E2; [|discriminate].
  injection H2 as ->.
  assert (Hk1 : od_keys (od_set (Struct.graph t) v1 (l1 ++ [v2]))
                = od_keys (Struct.graph t)).
  { apply od_keys_set_present. rewrite E1. eauto. }
  assert (Hk2 : od_keys (od_set (od_set (Struct.graph t) v1 (l1 ++ [v2])) v2
                           (l2 ++ [v1]))
                = od_keys (Struct.graph t)).
  { rewrite od_keys_set_present; [exact Hk1|]. rewrite E2. eauto. }
  split; [|split].
  - unfold Struct.get_num_vertices. cbn [Struct.graph]. rewrite Hk2.
    reflexivity.
  - rewrite !Struct_get_num_edges_sum by (cbn [Struct.graph]; congruence).
    eexists. eexists. split; [reflexivity|]. split; [reflexivity|].
    cbn [Struct.graph].
    rewrite (lens_set _ v2 l2 _ E2), (lens_set _ v1 l1 _ E1).
    rewrite (od_sum_set _ v2 (Z.of_nat (length l2))).
    2:{ rewrite <- (lens_set _ v1 l1 _ E1), od_lookup_map_degrees, E2.
        reflexivity. }
    rewrite (od_sum_set _ v1 (Z.of_nat (length l1))).
    2:{ rewrite od_lookup_map_degrees, E1. reflexivity. }
    rewrite !length_app. simpl length.
    rewrite !Nat2Z.inj_add. simpl Z.of_nat.
    match goal with
    | |- (inject_Z ?a / 2 == inject_Z ?b / 2 + 1)%Q =>
        replace a with (b + 2) by lia
    end.
    rewrite inject_Z_plus. field.
  - unfold Struct.get_degree, od_get. cbn [Struct.graph]. rewrite E1.
    eexists. split; [reflexivity|].
    rewrite od_lookup_set. rewrite od_lookup_set in E2.
    destruct (decide (v1 = v2)) as [->|Hne].
    + rewrite decide_True by reflexivity.
      injection E2 as <-. simpl. rewrite !length_app. simpl. f_equal. lia.
    + rewrite decide_False by congruence.
      rewrite od_lookup_set, decide_True by reflexivity. simpl.
      rewrite length_app. simpl. f_equal. lia.
Qed.

Lemma Structure_add_edge_counts_witness :
  exists t',
    Struct.add_edge (Struct.mk small_seed) ((1, 1, 0), (0, 0, 0)) = Ok t' /\
    exists q q', Struct.get_num_edges (Struct.mk small_seed) = Ok q /\
                 Struct.get_num_edges t' = Ok q' /\ (q' == q + 1)%Q.
Proof.
  destruct (Struct.add_edge (Struct.mk small_seed) ((1, 1, 0), (0, 0, 0)))
    as [t'|] eqn:Ht; [|discriminate].
  exists t'. split; [reflexivity|].
  apply (Structure_add_edge_counts (Struct.mk small_seed) t'
           (1, 1, 0) (0, 0, 0)); [|exact Ht].
  apply small_seed_symmetric.
Defined.

(** ** The pickup and drop probabilities as functions *)

Lemma exp_le (x y : R) : (x <= y)%R -> (exp x <= exp y)%R.
Proof.
  intros [H | ->]; [left; apply exp_increasing; exact H | right; reflexivity].
Qed.

Lemma exp_lt_1 (x : R) : (x < 0)%R -> (exp x < 1)%R.
Proof. intros H. rewrite <- exp_0. apply exp_increasing. exact H. Qed.

Lemma exp_gt_1 (x : R) : (0 < x)%R -> (1 < exp x)%R.
Proof. intros H. rewrite <- exp_0. apply exp_increasing. exact H. Qed.

(** X17.  [prob_pickup] as a function of the number of built neighbours:
    for every count it lies between 0 and 0.029, the pickup rate with no or
    one built neighbour; with no built neighbour it has the value that it
    has with one, and from one on it does not grow as the count grows.  For
    a negative argument, which no count is, the value is not positive. *)
Theorem prob_pickup_shape (N N' : Z) :
  (0 <= N -> (0 <= prob_pickup N <= 0.029)%R) /\
  prob_pickup 0 = prob_pickup 1 /\
  (1 <= N <= N' -> (prob_pickup N' <= prob_pickup N)%R) /\
  (N < 0 -> (prob_pickup N <= 0)%R).
Proof.
  split; [|split; [|split]].
  - intros HN. split; [left; apply prob_pickup_pos; exact HN|].
    unfold prob_pickup.
    pose proof (exp_ineq1_le (- eta_p N)) as Hexp.
    assert (Heta : (eta_p N <= 0.029)%R).
    { unfold eta_p. destruct (Z.eqb_spec N 0) as [-> | Hne]; [lra|].
      assert (HN1 : (1 <= IZR N)%R) by (apply IZR_le; lia).
      pose proof (Rinv_le_contravar 1 (IZR N) ltac:(lra) HN1) as Hinv.
      rewrite Rinv_1 in Hinv.
      assert (0 < / IZR N)%R by (apply Rinv_0_lt_compat; lra).
      unfold Rdiv. nra. }
    lra.
  - unfold prob_pickup, eta_p. simpl. f_equal. f_equal. f_equal. lra.
  - intros [H1 H2]. unfold prob_pickup, eta_p.
    destruct (Z.eqb_spec N 0) as [-> | _]; [lia|].
    destruct (Z.eqb_spec N' 0) as [-> | _]; [lia|].
    assert (HN : (1 <= IZR N)%R) by (apply IZR_le; exact H1).
    assert (HN' : (IZR N <= IZR N')%R) by (apply IZR_le; exact H2).
    assert (Hinv : (/ IZR N' <= / IZR N)%R).
    { apply Rinv_le_contravar; lra. }
    assert (Hle : (- (0.029 / IZR N) <= - (0.029 / IZR N'))%R).
    { unfold Rdiv. nra. }
    pose proof (exp_le _ _ Hle). lra.
  - intros HN. unfold prob_pickup, eta_p.
    destruct (Z.eqb_spec N 0) as [-> | _]; [lia|].
    assert (H : (0 < - (0.029 / IZR N))%R).
    { assert (HN' : (IZR N < 0)%R) by (apply IZR_lt; exact HN).
      pose proof (Rinv_lt_0_compat _ HN') as Hinv.
      unfold Rdiv. nra. }
    pose proof (exp_gt_1 _ H). lra.
Qed.

Lemma prob_pickup_shape_witness :
  (0 <= prob_pickup 2 <= 0.029)%R /\ (prob_pickup 5 <= prob_pickup 2)%R.
Proof.
  destruct (prob_pickup_shape 2 5) as (H1 & _ & H2 & _).
  split; [apply H1; lia | apply H2; lia].
Defined.

Section DropProbabilityShape.

Variable skewnorm_cdf : R -> R -> R -> R -> R.

Lemma drop_base_range (N t_now t_latest : Z) (decay_rate : R) :
  0 < N ->
  (0 < 1 - exp (- (0.025 + 0.11 * IZR N)
                * exp (- (IZR t_now - IZR t_latest) * decay_rate)) < 1)%R.
Proof.
  intros HN.
  assert (HN' : (0 < IZR N)%R) by (apply IZR_lt; exact HN).
  pose proof (exp_pos (- (IZR t_now - IZR t_latest) * decay_rate)) as He.
  assert (Hneg : (- (0.025 + 0.11 * IZR N)
                  * exp (- (IZR t_now - IZR t_latest) * decay_rate) < 0)%R)
    by nra.
  pose proof (exp_lt_1 _ Hneg). pose proof (exp_pos
    (- (0.025 + 0.11 * IZR N)
     * exp (- (IZR t_now - IZR t_latest) * decay_rate))).
  lra.
Qed.

Lemma getitem1_mod_list_value (h : Z) (f : R) :
  getitem1 (mod_list skewnorm_cdf) h = Ok f ->
  exists k : Z, f = skewnorm_cdf (IZR k / 2) 8.582 2.866 3.727.
Proof.
  unfold getitem1. intros H. apply bind_Ok in H as (i & _ & H).
  destruct (mod_list skewnorm_cdf !! Z.to_nat i) as [f'|] eqn:E;
    [|discriminate].
  injection H as ->. apply list_elem_of_lookup_2 in E.
  apply list_elem_of_In in E. unfold mod_list in E.
  apply in_map_iff in E as (k & <- & _). eauto.
Qed.

(** X18.  [prob_drop] returns a probability: whenever the height modifier
    that is looked up lies in [0, 1], as a value of a cumulative
    distribution function does, the result lies between 0 and 1. *)
Theorem prob_drop_range (N t_now t_latest : Z) (decay_rate : R) (h : Z)
    (p : R) :
  (forall x a loc scale, (0 <= skewnorm_cdf x a loc scale <= 1)%R) ->
  0 <= N ->
  prob_drop skewnorm_cdf N t_now t_latest decay_rate h = Ok p ->
  (0 <= p <= 1)%R.
Proof.
  intros Hcdf HN H.
  destruct (Z.eq_dec N 0) as [-> | Hne].
  { unfold prob_drop in H. simpl in H. injection H as <-. lra. }
  rewrite prob_drop_unfold in H by exact Hne. cbv zeta in H.
  pose proof (drop_base_range N t_now t_latest decay_rate ltac:(lia)) as Hb.
  destruct (0 <? h) eqn:Eh.
  - apply bind_Ok in H as (f & Hf & [= <-]).
    assert (Hf' : (0 <= f <= 1)%R).
    { apply getitem1_mod_list_value in Hf as (k & ->). apply Hcdf. }
    nra.
  - injection H as <-. lra.
Qed.

(** X19.  [prob_drop] grows with the number of built neighbours and with
    the time stamp of the latest deposit nearby, the pheromone fading at a
    rate that is not negative; the height modifier, when one is looked up,
    is taken not to be negative. *)
Theorem prob_drop_monotone (N N' t_now t_latest t_latest' : Z)
    (decay_rate : R) (h : Z) (p p' : R) :
  (forall x a loc scale, (0 <= skewnorm_cdf x a loc scale)%R) ->
  (0 <= decay_rate)%R ->
  0 < N <= N' ->
  t_latest <= t_latest' ->
  prob_drop skewnorm_cdf N t_now t_latest decay_rate h = Ok p ->
  prob_drop skewnorm_cdf N' t_now t_latest' decay_rate h = Ok p' ->
  (p <= p')%R.
Proof.
  intros Hcdf Hd [HN HN'] Ht H H'.
  rewrite prob_drop_unfold in H, H' by lia. cbv zeta in H, H'.
  assert (HNr : (0 < IZR N)%R) by (apply IZR_lt; exact HN).
  assert (HNr' : (IZR N <= IZR N')%R) by (apply IZR_le; exact HN').
  assert (Htr : (IZR t_latest <= IZR t_latest')%R) by (apply IZR_le; exact Ht).
  set (e := exp (- (IZR t_now - IZR t_latest) * decay_rate)) in *.
  set (e' := exp (- (IZR t_now - IZR t_latest') * decay_rate)) in *.
  assert (He : (0 < e)%R) by apply exp_pos.
  assert (Hee : (e <= e')%R) by (apply exp_le; nra).
  assert (Hb : (1 - exp (- (0.025 + 0.11 * IZR N) * e)
                <= 1 - exp (- (0.025 + 0.11 * IZR N') * e'))%R).
  { assert (Hle : (- (0.025 + 0.11 * IZR N') * e'
                   <= - (0.025 + 0.11 * IZR N) * e)%R) by nra.
    pose proof (exp_le _ _ Hle). lra. }
  destruct (0 <? h).
  - apply bind_Ok in H as (f & Hf & [= <-]).
    apply bind_Ok in H' as (f' & Hf' & [= <-]).
    rewrite Hf in Hf'. injection Hf' as <-.
    assert (Hf0 : (0 <= f)%R).
    { apply getitem1_mod_list_value in Hf as (k & ->). apply Hcdf. }
    nra.
  - injection H as <-. injection H' as <-. exact Hb.
Qed.

End DropProbabilityShape.

Lemma prob_drop_range_witness :
  exists p, prob_drop (fun _ _ _ _ => (1 / 2)%R) 3 10 4 0.001%R 5 = Ok p /\
            (0 <= p <= 1)%R.
Proof.
  destruct (prob_drop (fun _ _ _ _ => (1 / 2)%R) 3 10 4 0.001%R 5)
    as [p|] eqn:E; [|discriminate].
  exists p. split; [reflexivity|].
  apply (prob_drop_range (fun _ _ _ _ => (1 / 2)%R) 3 10 4 0.001%R 5 p);
    [intros; lra | lia | exact E].
Defined.

Lemma prob_drop_monotone_witness :
  exists p p',
    prob_drop (fun _ _ _ _ => (1 / 2)%R) 3 10 4 0.001%R 5 = Ok p /\
    prob_drop (fun _ _ _ _ => (1 / 2)%R) 4 10 9 0.001%R 5 = Ok p' /\
    (p <= p')%R.
Proof.
  destruct (prob_drop (fun _ _ _ _ => (1 / 2)%R) 3 10 4 0.001%R 5)
    as [p|] eqn:E; [|discriminate].
  destruct (prob_drop (fun _ _ _ _ => (1 / 2)%R) 4 10 9 0.001%R 5)
    as [p'|] eqn:E'; [|discriminate].
  exists p, p'. split; [reflexivity|]. split; [reflexivity|].
  apply (prob_drop_monotone (fun _ _ _ _ => (1 / 2)%R) 3 4 10 4 9 0.001%R 5
           p p'); [intros; lra | lra | lia | lia | exact E | exact E'].
Defined.

(** ** Accepted pickups and drops *)

Section Accepted.

Variable skewnorm_cdf : R -> R -> R -> R -> R.
Variable local_grid_data : coord -> World -> result (list Z).
Variable compute_height : coord -> World -> result Z.

(** X20.  An accepted pickup: [pickup_algorithm] returns a material
    exactly when the voxel below holds a positive code and the draw is
    below the pickup probability; the material is that code, so soil or a
    built voxel and never an obstacle or an agent, the voxel below is empty
    afterwards and nothing else of the world has changed. *)
Theorem pickup_algorithm_accepts (pos : coord) (world : World) (x_rand : R)
    (material : Z) (world' : World) :
  pickup_algorithm local_grid_data pos world x_rand
  = Ok (Some material, world') <->
  (0 < material /\
   getitem (grid world) (pos.1.1, pos.1.2, pos.2 - 1) = Ok material /\
   (exists v26, local_grid_data pos world = Ok v26 /\
                (x_rand < prob_pickup (np_sum_eq v26 2))%R) /\
   exists g, setitem (grid world) (pos.1.1, pos.1.2, pos.2 - 1) 0 = Ok g /\
             world' = with_grid world g).
Proof.
  unfold pickup_algorithm. destruct pos as [[x y] z]. simpl. split.
  - intros H. apply bind_Ok in H as (below & Hb & H).
    destruct (0 <? below) eqn:Epos; [|discriminate].
    apply bind_Ok in H as (v26 & Hv & H).
    destruct (Rlt_dec _ _) as [Hlt|]; [|discriminate].
    apply bind_Ok in H as (m & Hm & H).
    apply bind_Ok in H as (g & Hg & H).
    injection H as <- <-. rewrite Hb in Hm. injection Hm as <-.
    repeat split; eauto. lia.
  - intros (Hpos & Hb & (v26 & Hv & Hlt) & g & Hg & ->).
    rewrite Hb. simpl. destruct (0 <? material) eqn:E; [|lia].
    rewrite Hv. simpl. destruct (Rlt_dec _ _); [|contradiction].
    rewrite Hg. reflexivity.
Qed.

(** X21.  A drop on the graph: when [drop_algorithm_graph] returns a
    position, that position is a neighbour of [pos] in the graph, the voxel
    at [pos] is a built one, its time stamp is the current step, and all
    other voxels are as before; when it returns [None] it has changed
    nothing. *)
Theorem drop_algorithm_graph_outcome (pos : coord) (world : World)
    (graph : odict (list vertex)) (step : Z) (decay_rate x_rand : R)
    (new_pos : option coord) (world' : World) :
  listed (drop_algorithm_graph skewnorm_cdf local_grid_data compute_height
            pos world graph step decay_rate x_rand) (new_pos, world') ->
  match new_pos with
  | None => world' = world
  | Some nbr =>
      nbr ∈ adj_of graph pos /\
      getitem (grid world') pos = Ok Built /\
      getitem (times world') pos = Ok step /\
      (forall q, offset (grid world) q <> offset (grid world) pos ->
                 getitem (grid world') q = getitem (grid world) q) /\
      (forall q, offset (times world) q <> offset (times world) pos ->
                 getitem (times world') q = getitem (times world) q)
  end.
Proof.
  unfold drop_algorithm_graph. intros H.
  apply listed_bind in H as (nbrs & Hn & H). apply listed_lift in Hn.
  destruct (decide _).
  2:{ apply listed_mret in H. injection H as -> ->. reflexivity. }
  destruct pos as [[x y] z].
  apply listed_bind in H as (v26 & _ & H).
  apply listed_bind in H as (t_latest & _ & H).
  apply listed_bind in H as (h & _ & H).
  apply listed_bind in H as (prob & _ & H).
  destruct (Rlt_dec _ _).
  2:{ apply listed_mret in H. injection H as -> ->. reflexivity. }
  apply listed_bind in H as (nbr & Hnbr & H).
  apply listed_bind in H as (g & Hg & H). apply listed_lift in Hg.
  apply listed_bind in H as (t & Ht & H). apply listed_lift in Ht.
  apply listed_mret in H. injection H as -> ->.
  unfold random_choices in Hnbr. 
  assert (Hin : nbr ∈ nbrs).
  { destruct Hnbr as (q & Hin). destruct nbrs as [|b nbrs].
    - destruct Hin as [[=]|[]].
    - unfold np_random_choice, uniform in Hin. cbn [outcomes] in Hin.
      apply in_map_iff in Hin as (a' & [= _ ->] & Hin).
      apply list_elem_of_In. exact Hin. }
  cbn [grid times with_grid with_times].
  split; [|split; [|split; [|split]]].
  - unfold adj_of. unfold od_get in Hn.
    destruct (od_lookup graph (x, y, z)); [|discriminate].
    injection Hn as ->. exact Hin.
  - eapply getitem_setitem_same. exact Hg.
  - eapply getitem_setitem_same. exact Ht.
  - intros q Hq. eapply getitem_setitem_other; eassumption.
  - intros q Hq. eapply getitem_setitem_other; eassumption.
Qed.

End Accepted.

Lemma pickup_algorithm_accepts_witness :
  pickup_algorithm (fun _ _ => Ok [0; 2]) (0, 0, 1)
    (small_world [1; -2; 1; 0; 1; 0; 1; 0] 7) 0%R
  = Ok (Some 1, small_world [0; -2; 1; 0; 1; 0; 1; 0] 7).
Proof.
  apply (pickup_algorithm_accepts (fun _ _ => Ok [0; 2]) (0, 0, 1)
           (small_world [1; -2; 1; 0; 1; 0; 1; 0] 7) 0%R 1
           (small_world [0; -2; 1; 0; 1; 0; 1; 0] 7)).
  split; [lia|]. split; [reflexivity|]. split.
  - exists [0; 2]. split; [reflexivity|].
    apply prob_pickup_pos. unfold np_sum_eq. simpl. lia.
  - eexists. split; reflexivity.
Defined.

Lemma drop_algorithm_graph_outcome_witness :
  getitem
    (grid (small_world [1; 2; 1; 0; 1; 0; 1; 0] 7)) (0, 0, 1) = Ok Built.
Proof.
  pose proof (drop_algorithm_graph_outcome (fun x _ _ _ => x)
                (fun _ _ => Ok [0; 2]) (fun _ _ => Ok 0) (0, 0, 1)
                (small_world [1; -2; 1; 0; 1; 0; 1; 0] (- 10 ^ 9))
                [((0, 0, 1), [(0, 1, 1)])] 7 0%R 0%R (Some (0, 1, 1))
                (small_world [1; 2; 1; 0; 1; 0; 1; 0] 7)) as H.
  apply H. clear H.
  unfold drop_algorithm_graph.
  rewrite od_get_Some with (v := [(0, 1, 1)]) by reflexivity.
  rewrite bind_lift_Ok. rewrite decide_True by (simpl; lia).
  rewrite bind_lift_Ok.
  assert (Ht : latest_time (0, 0, 1)
                 (small_world [1; -2; 1; 0; 1; 0; 1; 0] (- 10 ^ 9))
               = Ok (- 10 ^ 9)) by reflexivity.
  rewrite Ht, bind_lift_Ok, bind_lift_Ok.
  assert (Hp : prob_drop (fun x _ _ _ => x) (np_sum_eq [0; 2] 2) 7 (- 10 ^ 9)
                 0%R 0
               = Ok (1 - exp (- (0.025 + 0.11 * IZR 1)
                              * exp (- (IZR 7 - IZR (- 10 ^ 9)) * 0)))%R).
  { apply (prob_drop_unfold (fun x _ _ _ => x) 1 7 (- 10 ^ 9) 0%R 0). lia. }
  rewrite Hp, bind_lift_Ok.
  destruct (Rlt_dec _ _) as [_|Hn].
  - exists 1%Q. vm_compute. left. reflexivity.
  - exfalso. apply Hn.
    replace (- (IZR 7 - IZR (- 10 ^ 9)) * 0)%R with 0%R by ring.
    rewrite exp_0.
    pose proof (exp_increasing (- (0.025 + 0.11 * 1) * 1) 0 ltac:(lra))
      as Hlt.
    rewrite exp_0 in Hlt. lra.
Defined.

(** ** The walk on the surface graph *)


Lemma move_loop_graph_S (surface_graph : odict (list vertex)) (world : World)
    (j : nat) (pos : coord) :
  move_loop_graph surface_graph world (S j) pos
  = (locs ← lift (od_get surface_graph pos);
     if decide (0 < length locs)%nat then
       chosen_loc ← random_choices locs;
       c ← lift (getitem (grid world) chosen_loc);
       if c =? 0 then move_loop_graph surface_graph world j chosen_loc
       else move_loop_graph surface_graph world j pos
     else move_loop_graph surface_graph world j pos).
Proof. reflexivity. Qed.





(** X23.  The walk from a position that is no vertex of the graph: with
    at least one step to make, the lookup of the neighbours ends in a
    KeyError; with no step to make ([m] zero or negative) the graph is not
    read, and the agent is marked where it stood. *)
Theorem move_algorithm_graph_off_graph (pos : coord)
    (surface_graph : odict (list vertex)) (world : World) (m : Z)
    (g0 : ndarray) :
  od_lookup surface_graph pos = None ->
  setitem (grid world) pos 0 = Ok g0 ->
  (0 < m ->
   move_algorithm_graph pos surface_graph world m = lift (Raise KeyError)) /\
  (m <= 0 ->
   exists g1,
     setitem (grid world) pos AgentOccupied = Ok g1 /\
     move_algorithm_graph pos surface_graph world m
     = mret (pos, with_grid world g1)).
Proof.
  intros Hnone Hg0. unfold move_algorithm_graph.
  rewrite Hg0, bind_lift_Ok. split.
  - intros Hm. destruct (Z.to_nat m) as [|j] eqn:E; [lia|].
    rewrite move_loop_graph_S. rewrite (od_get_None _ _ Hnone).
    rewrite !bind_lift_Raise. reflexivity.
  - intros Hm. replace (Z.to_nat m) with 0%nat by lia.
    pose proof (setitem_twice (grid world) pos 0 AgentOccupied) as Htw.
    rewrite Hg0 in Htw. simpl in Htw.
    pose proof Hg0 as Hd. apply setitem_data in Hd as (o & Ho & Hlt & Hd & Hs).
    assert (Hg1 : setitem g0 pos AgentOccupied
                  = Ok {| shape := shape g0;
                          data := <[o := AgentOccupied]> (data g0) |}).
    { apply setitem_at.
      - rewrite (setitem_offset _ _ _ _ pos Hg0). exact Ho.
      - rewrite Hd, length_insert. exact Hlt. }
    eexists. split; [rewrite <- Htw; exact Hg1|].
    simpl. unfold AgentOccupied in Hg1. rewrite Hg1. reflexivity.
Qed.

Lemma move_algorithm_graph_off_graph_witness :
  move_algorithm_graph (0, 0, 1) []
    (small_world [1; -2; 1; 0; 1; 0; 1; 0] 7) 3
  = lift (Raise KeyError).
Proof.
  destruct (move_algorithm_graph_off_graph (0, 0, 1) []
              (small_world [1; -2; 1; 0; 1; 0; 1; 0] 7) 3
              {| shape := (2, 2, 2); data := [1; 0; 1; 0; 1; 0; 1; 0] |}
              eq_refl eq_refl) as (H & _).
  apply H. lia.
Defined.

(** ** One update of an agent, and the mean-field run *)

Section Updates.

Variable skewnorm_cdf : R -> R -> R -> R -> R.
Variable local_grid_data : coord -> World -> result (list Z).
Variable random_move_direction : list Z -> rand (option coord).
Variable compute_height : coord -> World -> result Z.

Lemma pickup_algorithm_None (p : coord) (world : World) (x_rand : R)
    (world' : World) :
  pickup_algorithm local_grid_data p world x_rand = Ok (None, world') ->
  world' = world.
Proof.
  unfold pickup_algorithm. destruct p as [[x y] z]. intros H.
  apply bind_Ok in H as (below & _ & H).
  destruct (0 <? below); [|injection H as <-; reflexivity].
  apply bind_Ok in H as (v26 & _ & H).
  destruct (Rlt_dec _ _); [|injection H as <-; reflexivity].
  apply bind_Ok in H as (m & _ & H).
  apply bind_Ok in H as (g & _ & H). discriminate.
Qed.

Lemma drop_algorithm_new_None (p : coord) (world : World) (step : Z)
    (decay_rate x_rand : R) (world' : World) :
  listed (drop_algorithm_new skewnorm_cdf local_grid_data
            random_move_direction compute_height p world step decay_rate
            x_rand) (None, world') ->
  world' = world.
Proof.
  unfold drop_algorithm_new. destruct p as [[x y] z]. intros H.
  apply listed_bind in H as (v26 & _ & H).
  apply listed_bind in H as (t_latest & _ & H).
  apply listed_bind in H as (h & _ & H).
  apply listed_bind in H as (prob & _ & H).
  destruct (Rlt_dec _ _).
  2:{ apply listed_mret in H. injection H as ->. reflexivity. }
  apply listed_bind in H as ([dir|] & _ & H).
  - apply listed_bind in H as (g & _ & H).
    apply listed_bind in H as (t & _ & H).
    apply listed_mret in H. discriminate.
  - apply listed_mret in H. injection H as ->. reflexivity.
Qed.

(** X24.  After its update in the agent-based run an agent stands on a
    cell that is marked as occupied, and its pellet flag has either stayed
    or gone from 0 to 1, by a pickup, or from another value to 0, by a
    drop. *)
Theorem agent_based_update_marks_agent (agent : Agent) (world : World)
    (m step : Z) (decay_rate x_rand : R) (agent' : Agent) (world' : World) :
  listed (agent_based_update skewnorm_cdf local_grid_data
            random_move_direction compute_height agent world m step
            decay_rate x_rand) (agent', world') ->
  getitem (grid world') (pos agent') = Ok AgentOccupied /\
  (has_pellet agent' = has_pellet agent \/
   (has_pellet agent = 0 /\ has_pellet agent' = 1) \/
   (has_pellet agent <> 0 /\ has_pellet agent' = 0)).
Proof.
  unfold agent_based_update. intros H.
  apply listed_bind in H as ([last_pos w1] & Hmove & H).
  apply move_algorithm_new_listed in Hmove as (g0 & g1 & _ & Hg1 & ->).
  cbn [pos has_pellet] in H.
  destruct (Z.eqb_spec (has_pellet agent) 0) as [E0|Hne].
  - apply listed_bind in H as ([material w2] & Hp & H).
    apply listed_lift in Hp. destruct material as [mat|].
    + apply listed_lift in H. split.
      * apply pickup_Ok in H as (h1 & h2 & h3 & _ & _ & H3 & _ & ->).
        cbn [grid with_grid]. eapply getitem_setitem_same. exact H3.
      * right. left. split; [exact E0|].
        unfold pickup, place in H. cbn [pos] in H.
        destruct last_pos as [[x y] z].
        apply bind_Ok in H as (h1 & _ & H).
        apply bind_Ok in H as (h2 & _ & H).
        apply bind_Ok in H as (h3 & _ & H).
        injection H as <- _. reflexivity.
    + apply listed_mret in H. injection H as -> ->.
      apply pickup_algorithm_None in Hp as ->.
      split; [|left; reflexivity].
      cbn [pos grid with_grid]. eapply getitem_setitem_same. exact Hg1.
  - apply listed_bind in H as ([new_pos w2] & Hd & H).
    destruct new_pos as [new_pos|].
    + apply listed_lift in H. split.
      * apply drop_Ok in H as (h1 & h2 & _ & H2 & -> & ->).
        cbn [grid with_grid]. eapply getitem_setitem_same. exact H2.
      * right. right. split; [exact Hne|].
        unfold drop, place in H. cbn [pos] in H.
        apply bind_Ok in H as (h1 & _ & H).
        apply bind_Ok in H as (h2 & _ & H).
        injection H as <- _. reflexivity.
    + apply listed_mret in H. injection H as -> ->.
      apply drop_algorithm_new_None in Hd as ->.
      split; [|left; reflexivity].
      cbn [pos grid with_grid]. eapply getitem_setitem_same. exact Hg1.
Qed.

Lemma Forall_setitem (P : Z -> Prop) (g : ndarray) (p : coord) (c : Z)
    (g' : ndarray) :
  Forall P (data g) -> P c -> setitem g p c = Ok g' -> Forall P (data g').
Proof.
  intros Hg Hc H. apply setitem_data in H as (o & _ & _ & -> & _).
  apply Forall_insert; assumption.
Qed.

(** X25.  In the mean-field run no cell is ever marked as occupied by an
    agent: the grid holds the codes for empty, soil, obstacle and built
    voxel only. *)
Theorem mean_field_never_marks (world : World) :
  mean_field_reachable skewnorm_cdf local_grid_data compute_height world ->
  Forall (fun c => c = Empty \/ c = Soil \/ c = Obstacle \/ c = Built)
         (data (grid world)) /\
  count_code AgentOccupied (grid world) = 0%nat.
Proof.
  intros H.
  assert (HF : Forall (fun c => c = Empty \/ c = Soil \/ c = Obstacle \/
                                c = Built) (data (grid world))).
  { induction H as [w l h s objects world Hinit
                   | world graph random_pos i n step decay_rate x_rand world'
                       _ IH Hupd].
    - apply World_init_initial in Hinit.
      eapply Forall_impl; [exact Hinit|]. intros c Hc.
      unfold is_initial_code in Hc. tauto.
    - apply possible_listed in Hupd. unfold mean_field_update in Hupd.
      destruct (i <? n).
      + apply listed_bind in Hupd as ([material w2] & Hp & Hupd).
        apply listed_lift in Hp. apply listed_mret in Hupd as ->.
        apply pickup_algorithm_Ok in Hp as [->|(g & Hg & ->)]; [exact IH|].
        cbn [grid with_grid]. eapply Forall_setitem; [exact IH| |exact Hg].
        left. reflexivity.
      + apply listed_bind in Hupd as ([new_pos w2] & Hd & Hupd).
        apply listed_mret in Hupd as ->.
        apply drop_algorithm_graph_listed in Hd as [->|(g & t & Hg & ->)];
          [exact IH|].
        cbn [grid with_grid with_times].
        eapply Forall_setitem; [exact IH| |exact Hg].
        right. right. right. reflexivity. }
  split; [exact HF|].
  unfold count_code. induction HF as [|c l Hc _ IH]; [reflexivity|].
  simpl. destruct (Z.eqb_spec c AgentOccupied) as [->|_]; [|exact IH].
  unfold Empty, Soil, Obstacle, Built, AgentOccupied in Hc. lia.
Qed.

End Updates.


Lemma agent_based_update_marks_agent_witness :
  getitem (grid (small_world [-2; 0; 1; 0; 1; 0; 1; 0] 7)) (0, 0, 0)
  = Ok AgentOccupied /\
  has_pellet {| pos := (0, 0, 0); has_pellet := 1 |} = 1.
Proof.
  pose proof (agent_based_update_marks_agent (fun x _ _ _ => x)
                (fun _ _ => Ok []) (fun _ => mret None) (fun _ _ => Ok 0)
                {| pos := (0, 0, 1); has_pellet := 0 |}
                (small_world [1; -2; 1; 0; 1; 0; 1; 0] 7) 1 5 0%R 0%R
                {| pos := (0, 0, 0); has_pellet := 1 |}
                (small_world [-2; 0; 1; 0; 1; 0; 1; 0] 7)) as H.
  assert (Hl : listed
                 (agent_based_update (fun x _ _ _ => x) (fun _ _ => Ok [])
                    (fun _ => mret None) (fun _ _ => Ok 0)
                    {| pos := (0, 0, 1); has_pellet := 0 |}
                    (small_world [1; -2; 1; 0; 1; 0; 1; 0] 7) 1 5 0%R 0%R)
                 ({| pos := (0, 0, 0); has_pellet := 1 |},
                  small_world [-2; 0; 1; 0; 1; 0; 1; 0] 7)).
  { exists 1%Q.
    unfold agent_based_update, move_algorithm_new, pickup_algorithm. simpl.
    destruct (Rlt_dec 0 (prob_pickup (np_sum_eq [] 2))) as [_ | Hn].
    - left. reflexivity.
    - exfalso. apply Hn. apply prob_pickup_pos. discriminate. }
  destruct (H Hl) as (H1 & [H2 | [[_ H2] | [_ H2]]]).
  - split; [exact H1 | reflexivity].
  - split; [exact H1 | exact H2].
  - split; [exact H1 | reflexivity].
Defined.

Lemma mean_field_never_marks_witness :
  count_code AgentOccupied (grid (small_world [0; 0; 1; 0; 1; 0; 1; 0]
                                    (- 10 ^ 9))) = 0%nat.
Proof.
  apply (mean_field_never_marks (fun x _ _ _ => x) (fun _ _ => Ok [])
           (fun _ _ => Ok 0)).
  apply (mf_update _ _ _ (small_world [1; 0; 1; 0; 1; 0; 1; 0] (- 10 ^ 9))
           [] (0, 0, 1) 0 1 5 0%R 0%R).
  - apply (mf_world _ _ _ 2 2 2 1 None). reflexivity.
  - exists 1%Q. split; [reflexivity|].
    unfold mean_field_update, pickup_algorithm. simpl.
    destruct (Rlt_dec 0 (prob_pickup (np_sum_eq [] 2))) as [_ | Hn].
    + left. reflexivity.
    + exfalso. apply Hn. apply prob_pickup_pos. discriminate.
Defined.

(** ** Entropy and cross entropy *)

Lemma np_clip_range (x epsilon : R) :
  (0 < epsilon < 1)%R ->
  (0 < np_clip x epsilon (1 - epsilon) < 1)%R.
Proof.
  intros [H0 H1]. unfold np_clip, Rmin, Rmax.
  destruct (Rle_dec x epsilon); destruct (Rle_dec _ _); lra.
Qed.

Lemma ln_2_pos : (0 < ln 2)%R.
Proof. rewrite <- ln_1. apply ln_increasing; lra. Qed.

Lemma ln_neg (p : R) : (0 < p < 1)%R -> (ln p < 0)%R.
Proof. intros [H0 H1]. rewrite <- ln_1. apply ln_increasing; lra. Qed.

Lemma Rsum_nonpos (l : list R) :
  Forall (fun t => (t <= 0)%R) l -> (Rsum l <= 0)%R.
Proof.
  intros H. unfold Rsum. induction H as [|t l Ht Hl IH]; simpl; lra.
Qed.

(** X26.  The entropy of a smoothed distribution is never negative: every
    entry is clipped into [epsilon, 1 - epsilon], where its logarithm is
    not positive.  The entropy of the empty array is zero. *)
Theorem entropy_nonneg (probabilities : list R) (epsilon : R) :
  entropy [] epsilon = 0%R /\
  ((0 < epsilon < 1)%R -> (0 <= entropy probabilities epsilon)%R).
Proof.
  split.
  - unfold entropy, Rsum. simpl. lra.
  - intros He. unfold entropy. cbv zeta.
    assert (H : (Rsum (map (fun p => p * (ln p / ln 2))
                         (map (fun p => np_clip p epsilon (1 - epsilon))
                              probabilities)) <= 0)%R).
    { apply Rsum_nonpos. apply Forall_forall. intros t Ht.
      apply list_elem_of_In, in_map_iff in Ht as (p & <- & Hp).
      apply in_map_iff in Hp as (x & <- & _).
      pose proof (np_clip_range x epsilon He) as Hc.
      pose proof (ln_neg _ Hc) as Hl. pose proof ln_2_pos as H2.
      assert (ln (np_clip x epsilon (1 - epsilon)) / ln 2 < 0)%R.
      { unfold Rdiv. pose proof (Rinv_0_lt_compat _ H2). nra. }
      nra. }
    lra.
Qed.

Lemma entropy_nonneg_witness : (0 <= entropy [1; 0] (1 / 10))%R.
Proof.
  apply (entropy_nonneg [1%R; 0%R] (1 / 10)%R). lra.
Defined.




(** X28.  The cross entropy of two smoothed distributions of the same
    length is never negative. *)
Theorem cross_entropy_nonneg (p_emp p_stat : list R) (epsilon : R) :
  length p_emp = length p_stat ->
  (0 < epsilon < 1)%R -> (0 <= cross_entropy p_emp p_stat epsilon)%R.
Proof.
  intros _ He. unfold cross_entropy. cbv zeta.
  assert (H : forall a b : list R,
            (Rsum (zip_with (fun p q => p * ln q)%R
                     (map (fun p => np_clip p epsilon (1 - epsilon)) a)
                     (map (fun p => np_clip p epsilon (1 - epsilon)) b))
             <= 0)%R).
  { induction a as [|x a IH]; intros b; [unfold Rsum; simpl; lra|].
    destruct b as [|y b]; [unfold Rsum; simpl; lra|].
    specialize (IH b). unfold Rsum in *. simpl.
    pose proof (np_clip_range x epsilon He) as Hx.
    pose proof (np_clip_range y epsilon He) as Hy.
    pose proof (ln_neg _ Hy). nra. }
  specialize (H p_emp p_stat). lra.
Qed.

Lemma cross_entropy_nonneg_witness :
  (0 <= cross_entropy [1; 0] [1 / 2; 1 / 2] (1 / 10))%R.
Proof.
  apply (cross_entropy_nonneg [1%R; 0%R] [(1 / 2)%R; (1 / 2)%R] (1 / 10)%R);
    [reflexivity | lra].
Defined.

(** ** Diffusion *)

Lemma for_each_id {A S : Type} (l : list A) (body : S -> A -> result S)
    (s : S) :
  (forall a, a ∈ l -> body s a = Ok s) -> for_each l body s = Ok s.
Proof.
  induction l as [|a l IH]; intros H; [reflexivity|].
  simpl. rewrite H by left. simpl. apply IH. intros b Hb. apply H. by right.
Qed.

Lemma range2_empty (start stop : Z) : stop <= start -> range2 start stop = [].
Proof.
  intros H. unfold range2, range.
  replace (Z.to_nat (stop - start)) with 0%nat by lia. reflexivity.
Qed.

Lemma elem_of_range2 (start stop k : Z) :
  k ∈ range2 start stop -> start <= k < stop.
Proof.
  unfold range2. intros H.
  apply list_elem_of_In, in_map_iff in H as (i & <- & Hi).
  apply list_elem_of_In, elem_of_range in Hi. lia.
Qed.

Lemma foffset_constant (sh : coord) (c : R) (p : coord) :
  0 <= sh.1.1 -> 0 <= sh.1.2 -> 0 <= sh.2 ->
  0 <= p.1.1 < sh.1.1 -> 0 <= p.1.2 < sh.1.2 -> 0 <= p.2 < sh.2 ->
  exists o, foffset (constant sh c) p = Ok o /\
            (o < Z.to_nat (sh.1.1 * sh.1.2 * sh.2))%nat.
Proof.
  destruct sh as [[d0 d1] d2], p as [[x y] z]. simpl.
  intros H0 H1 H2 Hx Hy Hz.
  pose proof (full_wf d0 d1 d2 (fun _ => 0) H0 H1 H2) as Hwf.
  assert (Hin : in_bounds (full (d0, d1, d2) (fun _ => 0)) (x, y, z))
    by (unfold in_bounds; simpl; lia).
  pose proof (offset_plain _ x y z Hin) as Ho.
  pose proof (offset_lt _ _ _ Hwf Ho) as Hlt.
  eexists. split; [exact Ho|].
  destruct Hwf as (_ & _ & _ & Hl). rewrite Hl in Hlt. exact Hlt.
Qed.

Lemma fgetitem_constant (sh : coord) (c : R) (p : coord) :
  0 <= sh.1.1 -> 0 <= sh.1.2 -> 0 <= sh.2 ->
  0 <= p.1.1 < sh.1.1 -> 0 <= p.1.2 < sh.1.2 -> 0 <= p.2 < sh.2 ->
  fgetitem (constant sh c) p = Ok c.
Proof.
  intros H0 H1 H2 Hx Hy Hz.
  destruct (foffset_constant sh c p H0 H1 H2 Hx Hy Hz) as (o & Ho & Hlt).
  unfold fgetitem. rewrite Ho. simpl.
  rewrite lookup_replicate_2 by exact Hlt. reflexivity.
Qed.

Lemma fsetitem_constant (sh : coord) (c : R) (p : coord) :
  0 <= sh.1.1 -> 0 <= sh.1.2 -> 0 <= sh.2 ->
  0 <= p.1.1 < sh.1.1 -> 0 <= p.1.2 < sh.1.2 -> 0 <= p.2 < sh.2 ->
  fsetitem (constant sh c) p c = Ok (constant sh c).
Proof.
  intros H0 H1 H2 Hx Hy Hz.
  destruct (foffset_constant sh c p H0 H1 H2 Hx Hy Hz) as (o & Ho & Hlt).
  unfold fsetitem. rewrite Ho. simpl.
  rewrite length_replicate, decide_True by exact Hlt.
  unfold constant. f_equal. f_equal.
  apply list_insert_id. apply lookup_replicate_2. exact Hlt.
Qed.

Lemma copy_plane_constant (sh : coord) (c : R) (n n1 n2 : Z)
    (cell : Z -> Z -> Z -> coord) (dst src : Z) :
  0 <= sh.1.1 -> 0 <= sh.1.2 -> 0 <= sh.2 ->
  (forall i y z, 0 <= i < n -> 0 <= y < n1 -> 0 <= z < n2 ->
                 0 <= (cell i y z).1.1 < sh.1.1 /\
                 0 <= (cell i y z).1.2 < sh.1.2 /\
                 0 <= (cell i y z).2 < sh.2) ->
  - n <= dst < n -> - n <= src < n ->
  copy_plane n n1 n2 cell dst src (constant sh c) = Ok (constant sh c).
Proof.
  intros H0 H1 H2 Hcell Hdst Hsrc. unfold copy_plane.
  destruct (norm_index n src) as [i_src|e] eqn:Es.
  2:{ exfalso. destruct (Z_lt_ge_dec src 0).
      - rewrite norm_index_wrap in Es by lia. discriminate.
      - rewrite norm_index_plain in Es by lia. discriminate. }
  destruct (norm_index n dst) as [i_dst|e] eqn:Ed.
  2:{ exfalso. destruct (Z_lt_ge_dec dst 0).
      - rewrite norm_index_wrap in Ed by lia. discriminate.
      - rewrite norm_index_plain in Ed by lia. discriminate. }
  apply norm_index_Ok in Es, Ed. simpl.
  apply for_each_id. intros [y z] Hin.
  apply list_elem_of_bind in Hin as (y' & Hin & Hy).
  apply list_elem_of_bind in Hin as (z' & Hin & Hz).
  apply list_elem_of_singleton in Hin as [= -> ->].
  apply elem_of_range in Hy, Hz.
  destruct (Hcell i_src y' z' Es Hy Hz) as (? & ? & ?).
  destruct (Hcell i_dst y' z' Ed Hy Hz) as (? & ? & ?).
  rewrite fgetitem_constant by assumption. simpl.
  apply fsetitem_constant; assumption.
Qed.

(** X29.  A constant field is a fixed point of the diffusion: in a world
    of at least two cells along each axis, whatever its grid holds,
    [diffuse] returns a field of the world's shape that holds one value
    everywhere as it is, for any rate and any number of rounds. *)
Theorem diffuse_constant (self : World) (c diffusion_rate : R)
    (num_iterations : Z) :
  wf_ndarray (grid self) ->
  shape (grid self) = (width self, wlength self, height self) ->
  2 <= width self -> 2 <= wlength self -> 2 <= height self ->
  diffuse self (constant (shape (grid self)) c) diffusion_rate num_iterations
  = Ok (constant (shape (grid self)) c).
Proof.
  intros Hwf Hsh Hw Hl Hh. unfold diffuse.
  apply for_each_id. intros _ _. unfold diffuse_step.
  rewrite Hsh. cbn [constant fshape fst snd].
  set (sh := (width self, wlength self, height self)).
  assert (H0 : 0 <= sh.1.1) by (simpl; lia).
  assert (H1 : 0 <= sh.1.2) by (simpl; lia).
  assert (H2 : 0 <= sh.2) by (simpl; lia).
  change {| fshape := sh;
            fdata := replicate
                       (Z.to_nat (width self * wlength self * height self)) c |}
    with (constant sh c).
  rewrite for_each_id.
  - simpl.
    do 5 (rewrite (copy_plane_constant sh c)
            by (try assumption; simpl; intros; lia); simpl).
    apply copy_plane_constant; try assumption; simpl; intros; lia.
  - intros [[i j] k] Hin.
    apply list_elem_of_bind in Hin as (i' & Hin & Hi).
    apply list_elem_of_bind in Hin as (j' & Hin & Hj).
    apply list_elem_of_bind in Hin as (k' & Hin & Hk).
    apply list_elem_of_singleton in Hin as [= -> -> ->].
    apply elem_of_range2 in Hi, Hj, Hk.
    unfold diffuse_cell.
    rewrite (for_each_id _ _ 0%R).
    + simpl. rewrite fgetitem_constant by (simpl; lia). simpl.
      rewrite Rplus_0_r. apply fsetitem_constant; simpl; lia.
    + intros [[x y] z] Hnbr.
      assert (Hb : 0 <= x < width self /\ 0 <= y < wlength self /\
                   0 <= z < height self).
      { repeat (apply elem_of_cons in Hnbr as [[= -> -> ->]|Hnbr]; [lia|]).
        inversion Hnbr. }
      destruct (getitem_in_bounds (grid self) (x, y, z) Hwf) as (code & Hc).
      { unfold in_bounds. rewrite Hsh. simpl. lia. }
      rewrite Hc. simpl. destruct (code =? 0); [|reflexivity].
      rewrite !fgetitem_constant by (simpl; lia). simpl. f_equal. ring.
Qed.

Lemma diffuse_constant_witness :
  diffuse (small_world [1; 0; 1; 0; 1; 0; 1; 0] 7) (constant (2, 2, 2) 3%R)
    (1 / 10)%R 4
  = Ok (constant (2, 2, 2) 3%R).
Proof.
  apply (diffuse_constant (small_world [1; 0; 1; 0; 1; 0; 1; 0] 7) 3%R
           (1 / 10)%R 4).
  - unfold wf_ndarray. simpl. repeat split; lia.
  - reflexivity.
  - simpl. lia.
  - simpl. lia.
  - simpl. lia.
Defined.

Lemma copy_plane_out (n n1 n2 : Z) (cell : Z -> Z -> Z -> coord)
    (dst src : Z) (a : farray) :
  src < - n \/ n <= src ->
  copy_plane n n1 n2 cell dst src a = Raise IndexError.
Proof.
  intros H. unfold copy_plane. rewrite (norm_index_out n src H). reflexivity.
Qed.

(** X30.  [diffuse] in a world that is less than two cells wide: with no
    round to make the tensor comes back as it is, and with at least one
    round the call ends in an IndexError, raised by the first of the
    boundary copies, which reads the plane of index 1. *)
Theorem diffuse_thin_world (self : World) (tensor : farray)
    (diffusion_rate : R) (num_iterations : Z) :
  (num_iterations <= 0 ->
   diffuse self tensor diffusion_rate num_iterations = Ok tensor) /\
  ((fshape tensor).1.1 = width self -> width self < 2 ->
   1 <= num_iterations ->
   diffuse self tensor diffusion_rate num_iterations = Raise IndexError).
Proof.
  unfold diffuse. split.
  - intros Hn. unfold range. replace (Z.to_nat num_iterations) with 0%nat by lia.
    reflexivity.
  - intros Hsh Hw Hn.
    assert (Hstep : diffuse_step self diffusion_rate tensor
                    = Raise IndexError).
    { unfold diffuse_step.
      destruct (fshape tensor) as [[d0 d1] d2]. simpl in Hsh. subst d0.
      rewrite (range2_empty 1 (width self - 1)) by lia.
      cbn -[copy_plane].
      rewrite (copy_plane_out (width self) d1 d2 _ 0 1 tensor) by lia.
      reflexivity. }
    unfold range.
    destruct (Z.to_nat num_iterations) as [|n] eqn:E; [lia|].
    cbn [seq map for_each]. rewrite Hstep. reflexivity.
Qed.

Lemma diffuse_thin_world_witness :
  diffuse {| width := 1; wlength := 3; height := 3; soil_height := 1;
             grid := full (1, 3, 3) (fun _ => 0);
             times := full (1, 3, 3) (fun _ => 0) |}
    (constant (1, 3, 3) 0%R) 1%R 1
  = Raise IndexError.
Proof.
  apply (diffuse_thin_world
           {| width := 1; wlength := 3; height := 3; soil_height := 1;
              grid := full (1, 3, 3) (fun _ => 0);
              times := full (1, 3, 3) (fun _ => 0) |}
           (constant (1, 3, 3) 0%R) 1%R 1).
  - reflexivity.
  - simpl. lia.
  - lia.
Defined.
